(** * A shallow embedding of the RAG engine of TemplateAIRAG

    The program is the Python code of the project's phase documents:
    [document_processor.py], [chunking_service.py],
    [vector_store_service.py], [rag_service.py] and [chat_service.py]
    (fasi/05-sistema-rag-avanzato.md) and [indexing_service.py] (the phase-07
    document appended to fasi/considerazioni-tecniche.md).

    Conventions of the embedding:
    - a Python [str] that the code walks character by character (document
      text, queries, answers) is a [list ascii], the list of its code points,
      which the type takes from U+0000 to U+00FF; identifiers, dictionary
      keys, status names and log messages are [string];
    - a Python [int] is a [Z]; a [float] is an exact rational [Q] where
      the code only passes it on or the property bounds it, and a binary64
      number ([Binary64], [Rerank]) where the result depends on the rounding;
    - a [dict] with string keys is a [gmap string _], a [set] is a [gset];
    - code that can raise returns a [result];
    - the services the code calls but does not define (the tokenizer, the
      Azure client, the Qdrant client, MongoDB) are fields of records that the
      functions receive, exactly as the Python objects receive them. *)

From Stdlib Require Import ZArith QArith Qround Ascii String List Sorting.Sorted
  Sorting.Permutation Lia Lqa.
From Stdlib Require SpecFloat.
From stdpp Require Import base decidable list strings gmap pretty.

Import ListNotations.
Open Scope Z_scope.

(** ** Python primitives *)

Module Py.

Abbreviation pystr := (list ascii).

(** A text literal. *)
Definition txt (s : string) : pystr := list_ascii_of_string s.

(** Exceptions carry the name of their class and [str(e)]. They are the
    instances of [Exception], which is what every [except Exception] clause
    of the code catches; a [result] describes a call that returns or raises
    one of them. What derives from [BaseException] only (the cancellation of
    a task, the exit of the interpreter) passes through those clauses and is
    not represented. *)
Inductive exn : Type := Exn (cls : string) (msg : string).

Definition exn_str (e : exn) : string := let 'Exn _ m := e in m.

Inductive result (A : Type) : Type :=
| Ok (a : A)
| Raise (e : exn).
Arguments Ok {A} a.
Arguments Raise {A} e.

Definition bind {A B} (r : result A) (k : A -> result B) : result B :=
  match r with
  | Ok a => k a
  | Raise e => Raise e
  end.

#[global] Instance result_ret : MRet result := @Ok.
#[global] Instance result_bind : MBind result := fun A B k r => bind r k.

(** [try: body except Exception as e: handler(e)] *)
Definition try_except {A} (body : result A) (handler : exn -> result A)
  : result A :=
  match body with
  | Ok a => Ok a
  | Raise e => handler e
  end.

Definition is_ok {A} (r : result A) : bool :=
  match r with Ok _ => true | Raise _ => false end.

(** Values that occur in metadata and configuration dictionaries. *)
Inductive pyval : Type :=
| VNone
| VBool (b : bool)
| VInt (z : Z)
| VStr (s : pystr).

(** [len(l)] *)
Definition len {A} (l : list A) : Z := Z.of_nat (length l).

(** [c.isspace()] for a code point below U+0100: TAB, LF, VT, FF, CR, FS, GS,
    RS, US, the space, NEL (U+0085) and the no-break space (U+00A0). The same
    set is what [\s] matches in a [str] pattern and what [split()] and
    [strip()] remove. *)
Definition isspace (c : ascii) : bool :=
  let n := nat_of_ascii c in
  (((9 <=? n) && (n <=? 13)) || ((28 <=? n) && (n <=? 32))
   || (n =? 133) || (n =? 160))%nat.

(** [c.lower()] for a code point below U+0100: the letters A-Z and the
    capitals U+00C0-U+00DE (the multiplication sign U+00D7 is no letter) move
    up by 32, every other character is left as it is. *)
Definition lower_char (c : ascii) : ascii :=
  let n := nat_of_ascii c in
  if (((65 <=? n) && (n <=? 90))
      || ((192 <=? n) && (n <=? 222) && negb (n =? 215)))%nat
  then ascii_of_nat (n + 32) else c.

Definition lower (s : pystr) : pystr := map lower_char s.

(** [s.lstrip()], [s.rstrip()], [s.strip()] *)
Fixpoint lstrip (s : pystr) : pystr :=
  match s with
  | [] => []
  | c :: s' => if isspace c then lstrip s' else s
  end.

Definition rstrip (s : pystr) : pystr := rev (lstrip (rev s)).

Definition strip (s : pystr) : pystr := rstrip (lstrip s).

(** Truth value of a [str]: non-empty. *)
Definition truthy (s : pystr) : bool :=
  match s with [] => false | _ :: _ => true end.

(** Adds a character to the piece that is being read. *)
Definition cons_head (c : ascii) (ps : list pystr) : list pystr :=
  match ps with
  | [] => [[c]]
  | p :: ps' => (c :: p) :: ps'
  end.

(** [s.split()]: the maximal runs of non-space characters. [word] holds the
    characters of the run being read, last one first. *)
Fixpoint split_ws_from (word : pystr) (s : pystr) : list pystr :=
  match s with
  | [] => if truthy word then [rev word] else []
  | c :: s' =>
      if isspace c then
        if truthy word then rev word :: split_ws_from [] s'
        else split_ws_from [] s'
      else split_ws_from (c :: word) s'
  end.

Definition split_ws (s : pystr) : list pystr := split_ws_from [] s.

Definition is_newline (c : ascii) : bool := (nat_of_ascii c =? 10)%nat.

(** [s.split('\n\n')]: the separator is consumed left to right, empty pieces
    are kept. *)
Fixpoint split_paragraphs (s : pystr) : list pystr :=
  match s with
  | [] => [[]]
  | c :: s' =>
      match s' with
      | [] => [[c]]
      | d :: s'' =>
          if is_newline c && is_newline d
          then [] :: split_paragraphs s''
          else cons_head c (split_paragraphs s')
      end
  end.

(** [.], [!] and [?], the characters of the look-behind [(?<=[.!?])]. *)
Definition is_terminator (c : ascii) : bool :=
  let n := nat_of_ascii c in
  ((n =? 46) || (n =? 33) || (n =? 63))%nat.

(** [re.split(r'(?<=[.!?])\s+', s)]. [after_term] tells whether the previous
    character is a terminator, [in_sep] whether a separator match is being
    consumed (the match [\s+] is greedy). *)
Fixpoint re_split_sentences (after_term in_sep : bool) (s : pystr)
  : list pystr :=
  match s with
  | [] => [[]]
  | c :: s' =>
      if isspace c then
        if in_sep then re_split_sentences false true s'
        else if after_term then [] :: re_split_sentences false true s'
        else cons_head c (re_split_sentences false false s')
      else cons_head c (re_split_sentences (is_terminator c) false s')
  end.

(** [range(0, n, step)]: [ValueError] for a zero step, empty for a negative
    one, and [0, step, 2*step, ...] below [n] otherwise. *)
Definition range_len (n : nat) (step : Z) : nat :=
  Z.to_nat ((Z.of_nat n + step - 1) / step).

Definition range0 (n : nat) (step : Z) : result (list nat) :=
  if step =? 0 then Raise (Exn "ValueError" "range() arg 3 must not be zero")
  else if step <? 0 then Ok []
  else Ok (map (fun k => (k * Z.to_nat step)%nat) (seq 0 (range_len n step))).

(** A slice bound, as Python normalises it: a negative bound counts from the
    end, and the result is clamped to [0, len]. *)
Definition slice_bound (n : nat) (i : Z) : nat :=
  let j := if i <? 0 then i + Z.of_nat n else i in
  Z.to_nat (Z.min (Z.max j 0) (Z.of_nat n)).

(** [l[lo:hi]] *)
Definition slice {A} (l : list A) (lo hi : Z) : list A :=
  let a := slice_bound (length l) lo in
  let b := slice_bound (length l) hi in
  take (b - a) (drop a l).

(** [l[:hi]] *)
Definition slice_to {A} (l : list A) (hi : Z) : list A :=
  take (slice_bound (length l) hi) l.

(** [l[lo:]] *)
Definition slice_from {A} (l : list A) (lo : Z) : list A :=
  drop (slice_bound (length l) lo) l.

(** [await asyncio.gather( *tasks )]: the results in the order of the tasks, or
    the exception of the first task that raised. *)
Fixpoint gather {A} (tasks : list (result A)) : result (list A) :=
  match tasks with
  | [] => Ok []
  | t :: ts => a ← t; r ← gather ts; Ok (a :: r)
  end.

End Py.

Import Py.


(** ** chunking_service.py *)

Module Chunking.

(** The [tiktoken] encoding the strategies hold in [self.tokenizer]. The
    table [cl100k_base] is not part of the repository: the encoding is a
    field of the strategy object, as in the code. *)
Record Tokenizer : Type := {
  encode : pystr -> list Z;
  decode : list Z -> pystr
}.

(** A chunk dictionary [{"text": ..., "metadata": {...}}]. *)
Record Chunk : Type := {
  text : pystr;
  metadata : gmap string pyval
}.

Module SemanticChunkingStrategy.

(** The attributes set by [__init__]. *)
Record t : Type := {
  max_chunk_size : Z;
  overlap : Z;
  tokenizer : Tokenizer
}.

(** [_split_by_sentences] *)
Definition _split_by_sentences (self : t) (text : pystr) : list pystr :=
  let sentences := re_split_sentences false false text in
  List.filter truthy (map strip sentences).

(** [_create_chunk] *)
Definition _create_chunk (self : t) (text : pystr)
    (metadata : gmap string pyval) (chunk_index : Z) : Chunk :=
  {| Chunking.text := strip text;
     Chunking.metadata :=
       <["token_count" := VInt (len (encode (tokenizer self) text))]>
         (<["chunk_index" := VInt chunk_index]> metadata) |}.

(** The local variables of [chunk_text] that the loops update. *)
Record locals : Type := {
  chunks : list Chunk;
  current_chunk : pystr;
  current_tokens : Z
}.

(** The body shared by the sentence loop and the paragraph branch of
    [chunk_text]: the two differ in the separator only, a space between
    sentences and a blank line between paragraphs. *)
Definition accumulate (self : t) (metadata : gmap string pyval)
    (sep : pystr) (st : locals) (piece : pystr) : locals :=
  let piece_tokens := len (encode (tokenizer self) piece) in
  if (current_tokens st + piece_tokens >? max_chunk_size self)
     && truthy (current_chunk st)
  then
    {| chunks := chunks st ++
         [_create_chunk self (current_chunk st) metadata (len (chunks st))];
       current_chunk := piece;
       current_tokens := piece_tokens |}
  else
    {| chunks := chunks st;
       current_chunk :=
         if truthy (current_chunk st)
         then current_chunk st ++ sep ++ piece
         else piece;
       current_tokens := current_tokens st + piece_tokens |}.

(** One iteration of [for paragraph in paragraphs]. *)
Definition paragraph_step (self : t) (metadata : gmap string pyval)
    (st : locals) (paragraph : pystr) : locals :=
  let paragraph_tokens := len (encode (tokenizer self) paragraph) in
  if paragraph_tokens >? max_chunk_size self then
    let sentences := _split_by_sentences self paragraph in
    fold_left (accumulate self metadata (txt " ")) sentences st
  else
    accumulate self metadata [ascii_of_nat 10; ascii_of_nat 10] st paragraph.

(** The state after the paragraph loop. *)
Definition run_paragraphs (self : t) (text : pystr)
    (metadata : gmap string pyval) : locals :=
  let paragraphs := split_paragraphs text in
  fold_left (paragraph_step self metadata) paragraphs
    {| chunks := []; current_chunk := []; current_tokens := 0 |}.

(** [chunk_text] *)
Definition chunk_text (self : t) (text : pystr)
    (metadata : gmap string pyval) : list Chunk :=
  let st := run_paragraphs self text metadata in
  if truthy (current_chunk st)
  then chunks st ++
         [_create_chunk self (current_chunk st) metadata (len (chunks st))]
  else chunks st.

End SemanticChunkingStrategy.

Module FixedSizeChunkingStrategy.

Record t : Type := {
  chunk_size : Z;
  overlap : Z;
  tokenizer : Tokenizer
}.

(** The window [tokens[i:i + self.chunk_size]] of one iteration. *)
Definition window (self : t) (tokens : list Z) (i : nat) : list Z :=
  slice tokens (Z.of_nat i) (Z.of_nat i + chunk_size self).

(** The loop body: appends the chunk of the window that starts at [i]. *)
Definition append_chunk (self : t) (tokens : list Z)
    (metadata : gmap string pyval) (chunks : list Chunk) (i : nat)
  : list Chunk :=
  let chunk_tokens := window self tokens i in
  let chunk_text := decode (tokenizer self) chunk_tokens in
  chunks ++
    [ {| text := chunk_text;
         metadata :=
           <["end_token" := VInt (Z.of_nat i + len chunk_tokens)]>
             (<["start_token" := VInt (Z.of_nat i)]>
                (<["token_count" := VInt (len chunk_tokens)]>
                   (<["chunk_index" := VInt (len chunks)]> metadata))) |} ].

(** The window starts [range(0, len(tokens), self.chunk_size - self.overlap)]. *)
Definition starts (self : t) (tokens : list Z) : result (list nat) :=
  range0 (length tokens) (chunk_size self - overlap self).

(** [chunk_text] *)
Definition chunk_text (self : t) (text : pystr)
    (metadata : gmap string pyval) : result (list Chunk) :=
  let tokens := encode (tokenizer self) text in
  idxs ← starts self tokens;
  Ok (fold_left (append_chunk self tokens metadata) idxs []).

End FixedSizeChunkingStrategy.

(** A tokenizer to run the strategies on: one token per character, the
    token being the character code. *)
Definition char_tokenizer : Tokenizer :=
  {| encode := fun s => map (fun c => Z.of_nat (nat_of_ascii c)) s;
     decode := fun l => map (fun z => ascii_of_nat (Z.to_nat z)) l |}.

End Chunking.

Import Chunking.
Module Sem := SemanticChunkingStrategy.
Module Fix := FixedSizeChunkingStrategy.

(** ** vector_store_service.py *)

Module VectorStore.

(** The payload dictionary of a point. [dict.get] gives [None] for a missing
    key, so the last four fields are optional values. *)
Record Payload : Type := {
  p_text : pystr;
  p_metadata : gmap string pyval;
  p_document_id : option pyval;
  p_file_path : option pyval;
  p_chunk_index : option pyval;
  p_token_count : option pyval
}.

Record PointStruct : Type := {
  id : string;
  vector : list Q;
  payload : Payload
}.

(** The store object together with what it reaches: the points of the
    collection [documents] on the Qdrant server, whether the server answers,
    and the values [uuid.uuid4()] returns, in the order of the calls.
    Qdrant is an external service: its [upsert] writes each point under its
    id, replacing a point that has the same id. *)
Record QdrantVectorStore : Type := {
  points : gmap string PointStruct;
  reachable : bool;
  uuid4 : nat -> string;
  uuid_calls : nat
}.

(** [self.client.upsert(collection_name, points)] *)
Definition upsert (stored : gmap string PointStruct)
    (pts : list PointStruct) : gmap string PointStruct :=
  fold_left (fun m p => <[id p := p]> m) pts stored.

(** The point built for one [(chunk, embedding)] pair. *)
Definition make_point (point_id : string) (chunk : Chunk)
    (embedding : list Q) : PointStruct :=
  {| id := point_id;
     vector := embedding;
     payload :=
       {| p_text := text chunk;
          p_metadata := metadata chunk;
          p_document_id := metadata chunk !! "document_id";
          p_file_path := metadata chunk !! "file_path";
          p_chunk_index := metadata chunk !! "chunk_index";
          p_token_count := metadata chunk !! "token_count" |} |}.

(** The loop over [zip(chunks, embeddings)]: the [k]-th pair gets the
    [k]-th identifier drawn in this call. *)
Definition build_points (self : QdrantVectorStore)
    (pairs : list (Chunk * list Q)) : list PointStruct :=
  imap (fun k '(chunk, embedding) =>
          make_point (uuid4 self (uuid_calls self + k)) chunk embedding)
       pairs.

(** [add_documents]: the identifiers returned (or the exception) and the
    store afterwards. *)
Definition add_documents (self : QdrantVectorStore) (chunks : list Chunk)
    (embeddings : list (list Q))
  : result (list string) * QdrantVectorStore :=
  let pairs := zip chunks embeddings in
  let pts := build_points self pairs in
  let point_ids := map id pts in
  let drawn := (uuid_calls self + length pairs)%nat in
  if reachable self then
    (Ok point_ids,
     {| points := upsert (points self) pts;
        reachable := reachable self;
        uuid4 := uuid4 self;
        uuid_calls := drawn |})
  else
    (Raise (Exn "ResponseHandlingException" "Qdrant is unreachable"),
     {| points := points self;
        reachable := reachable self;
        uuid4 := uuid4 self;
        uuid_calls := drawn |}).

End VectorStore.

Import VectorStore.

(** ** rag_service.py *)

Module Rag.

(** A chat message [{"role": ..., "content": ...}]. *)
Record Message : Type := {
  role : string;
  content : pystr
}.

(** The Azure client: [generate_embedding] and [generate_response] are
    declared in the repository without a body; they are what the deployment
    answers. *)
Record AzureAIService : Type := {
  generate_embedding : pystr -> result (list Q);
  generate_response : list Message -> result pystr
}.

(** The service object. [search_similar] stands for
    [self.vector_store.search_similar], which returns what the Qdrant server
    answers to the search, or re-raises its exception. *)
Record RAGService : Type := {
  azure_ai : AzureAIService;
  search_similar :
    list Q -> Z -> Q -> option (gmap string pyval) ->
    result (list (Payload * Q))
}.

(** An entry of the list [_prepare_sources] returns. *)
Record Source : Type := {
  s_title : pyval;
  s_file_path : pyval;
  s_chunk_index : pyval;
  s_score : Q;
  s_preview : pystr
}.

(** [_generate_embeddings_batch] *)
Definition _generate_embeddings_batch (self : RAGService)
    (texts : list pystr) (batch_size : Z) : result (list (list Q)) :=
  idxs ← range0 (length texts) batch_size;
  fold_left
    (fun (acc : result (list (list Q))) i =>
       embeddings ← acc;
       let batch := slice texts (Z.of_nat i) (Z.of_nat i + batch_size) in
       batch_embeddings ←
         gather (map (generate_embedding (azure_ai self)) batch);
       Ok (embeddings ++ batch_embeddings))
    idxs (Ok []).

(** [sorted(l, key=..., reverse=True)]: the sort is stable, so the result is
    determined by the keys: an element goes before those already placed
    unless one of them has a strictly greater key. *)
Definition Qgtb (x y : Q) : bool := negb (Qle_bool x y).

Fixpoint insert_desc {A} (key : A -> Q) (x : A) (l : list A) : list A :=
  match l with
  | [] => [x]
  | y :: l' =>
      if Qgtb (key y) (key x) then y :: insert_desc key x l' else x :: l
  end.

Definition sorted_desc {A} (key : A -> Q) (l : list A) : list A :=
  foldr (insert_desc key) [] l.

(** The words of a text, as a set: [set(s.lower().split())]. *)
Definition word_set (s : pystr) : gset pystr :=
  list_to_set (split_ws (lower s)).

(** [keyword_score] of a candidate text. *)
Definition keyword_score (query_words : gset pystr) (text : pystr) : Q :=
  let text_words := word_set text in
  let overlap := size (query_words ∩ text_words) in
  if decide (query_words = ∅) then 0%Q
  else (inject_Z (Z.of_nat overlap) / inject_Z (Z.of_nat (size query_words)))%Q.

(** [combined_score] of a candidate. *)
Definition combined_score (query_words : gset pystr)
    (candidate : Payload * Q) : Q :=
  let '(result, similarity_score) := candidate in
  (similarity_score * (7 # 10)
   + keyword_score query_words (p_text result) * (3 # 10))%Q.

(** [_rerank_results] *)
Definition _rerank_results (self : RAGService) (query : pystr)
    (search_results : list (Payload * Q)) : list (Payload * Q) :=
  let query_words := word_set query in
  let scored_results :=
    map (fun c => (fst c, combined_score query_words c)) search_results in
  sorted_desc snd scored_results.

(** [str(v)] for a metadata value placed in an f-string. *)
Definition pyval_str (v : pyval) : pystr :=
  match v with
  | VNone => txt "None"
  | VBool true => txt "True"
  | VBool false => txt "False"
  | VInt z => txt (pretty z)
  | VStr s => s
  end.

(** [sep.join(parts)] *)
Fixpoint join (sep : pystr) (parts : list pystr) : pystr :=
  match parts with
  | [] => []
  | [p] => p
  | p :: ps => p ++ sep ++ join sep ps
  end.

Definition newline : pystr := [ascii_of_nat 10].

(** [_prepare_context] *)
Definition _prepare_context (self : RAGService)
    (results : list (Payload * Q)) : pystr :=
  let context_parts :=
    imap (fun i '(result, score) =>
            let source_info :=
              txt "[Source " ++ txt (pretty (i + 1)%nat) ++ txt "]" in
            let source_info :=
              match p_metadata result !! "title" with
              | Some v => source_info ++ txt " " ++ pyval_str v
              | None => source_info
              end in
            let source_info :=
              match p_metadata result !! "author" with
              | Some v => source_info ++ txt " by " ++ pyval_str v
              | None => source_info
              end in
            source_info ++ newline ++ p_text result ++ newline)
         results in
  join newline context_parts.

(** [round(x, 3)]: to the nearest multiple of 1/1000, a tie to the even one. *)
Definition round3 (x : Q) : Q :=
  let y := (x * 1000)%Q in
  let f := Qfloor y in
  let r := (y - inject_Z f)%Q in
  let n :=
    match (r ?= 1 # 2)%Q with
    | Lt => f
    | Gt => f + 1
    | Eq => if Z.even f then f else f + 1
    end in
  (inject_Z n / 1000)%Q.

(** [_prepare_sources] *)
Definition _prepare_sources (self : RAGService)
    (results : list (Payload * Q)) : list Source :=
  map (fun '(result, score) =>
         let metadata := p_metadata result in
         {| s_title := default (VStr (txt "Unknown Document")) (metadata !! "title");
            s_file_path := default (VStr []) (metadata !! "file_path");
            s_chunk_index := default (VInt 0) (metadata !! "chunk_index");
            s_score := round3 score;
            s_preview :=
              if len (p_text result) >? 200
              then slice_to (p_text result) 200 ++ txt "..."
              else p_text result |})
      results.

(** The two parts of the f-string [system_prompt], before and after
    [{context}]; the lines keep the indentation of the method body. *)
Definition system_prompt_head : pystr := txt
"You are an AI assistant with access to a knowledge base. 
        Use the provided context to answer the user's question accurately.
        If the context doesn't contain relevant information, say so and provide a general response based on your knowledge.
        
        Context from knowledge base:
        ".

Definition system_prompt_tail : pystr := txt "
        ".

(** The messages [_generate_rag_response] sends. *)
Definition rag_messages (query context : pystr)
    (conversation_history : list Message) : list Message :=
  let system_prompt := system_prompt_head ++ context ++ system_prompt_tail in
  [ {| role := "system"; content := system_prompt |} ]
  ++ slice_from conversation_history (-5)
  ++ [ {| role := "user"; content := query |} ].

(** [_generate_rag_response] *)
Definition _generate_rag_response (self : RAGService)
    (query context : pystr) (conversation_history : list Message)
  : result pystr :=
  generate_response (azure_ai self)
    (rag_messages query context conversation_history).

(** The messages of the fallback in the [except] clause. *)
Definition fallback_messages (query : pystr) : list Message :=
  [ {| role := "system"; content := txt "You are a helpful AI assistant." |};
    {| role := "user"; content := query |} ].

(** The [try] block of [query_knowledge_base]. *)
Definition query_knowledge_base_try (self : RAGService) (query : pystr)
    (conversation_history : option (list Message))
    (filters : option (gmap string pyval))
    (max_results : Z) (score_threshold : Q)
  : result (pystr * list Source) :=
  query_embedding ← generate_embedding (azure_ai self) query;
  search_results ←
    search_similar self query_embedding (max_results * 2) score_threshold
      filters;
  let ranked_results := _rerank_results self query search_results in
  let top_results := slice_to ranked_results max_results in
  let context := _prepare_context self top_results in
  response ←
    _generate_rag_response self query context
      (default [] conversation_history);
  let sources := _prepare_sources self top_results in
  Ok (response, sources).

(** [query_knowledge_base] *)
Definition query_knowledge_base (self : RAGService) (query : pystr)
    (conversation_history : option (list Message))
    (filters : option (gmap string pyval))
    (max_results : Z) (score_threshold : Q)
  : result (pystr * list Source) :=
  try_except
    (query_knowledge_base_try self query conversation_history filters
       max_results score_threshold)
    (fun e =>
       fallback_response ←
         generate_response (azure_ai self) (fallback_messages query);
       Ok (fallback_response, [])).

End Rag.

Import Rag.

(** ** chat_service.py *)

Module Chat.

(** A value of a streamed event dictionary. *)
Inductive jval : Type :=
| JId (s : string)
| JText (s : pystr)
| JSources (l : list Source).

(** The chat service. [save_chat_message_with_sources] writes to MongoDB and
    gives the identifier of the stored message, or raises. *)
Record ChatService : Type := {
  save_chat_message_with_sources :
    string -> string -> pystr -> pystr -> list Source -> result string
}.

(** The first event [stream_rag_response] yields. *)
Definition sources_event (session_id : string) (sources : list Source)
  : gmap string jval :=
  <["session_id" := JId session_id]>
    (<["sources" := JSources sources]>
       (<["type" := JId "sources"]> ∅)).

(** The event yielded for one word. *)
Definition chunk_event (session_id : string) (word : pystr)
  : gmap string jval :=
  <["session_id" := JId session_id]>
    (<["content" := JText (word ++ txt " ")]>
       (<["type" := JId "chunk"]> ∅)).

Definition complete_event (session_id message_id : string)
  : gmap string jval :=
  <["message_id" := JId message_id]>
    (<["session_id" := JId session_id]>
       (<["type" := JId "complete"]> ∅)).

(** [stream_rag_response]: the dictionaries handed to [json.dumps] and
    yielded, in order, and how the generator ends: normally, or with the
    exception of the save. *)
Definition stream_rag_response (self : ChatService)
    (session_id user_id : string) (user_message rag_response : pystr)
    (sources : list Source)
  : list (gmap string jval) * result unit :=
  let words := split_ws rag_response in
  let full_response :=
    fold_left (fun acc word => acc ++ word ++ txt " ") words [] in
  let yielded :=
    sources_event session_id sources :: map (chunk_event session_id) words in
  match save_chat_message_with_sources self session_id user_id user_message
          (strip full_response) sources with
  | Ok message_id =>
      (yielded ++ [complete_event session_id message_id], Ok tt)
  | Raise e => (yielded, Raise e)
  end.

End Chat.

Import Chat.

(** ** indexing_service.py *)

Module Indexing.

(** The attributes of an [IndexingJob]. Times are seconds of the clock. *)
Record IndexingJob : Type := {
  job_id : string;
  config : gmap string pyval;
  status : string;
  progress : Q;
  total_files : Z;
  processed_files : Z;
  errors : list string;
  start_time : option Z;
  end_time : option Z
}.

(** [IndexingJob.__init__] *)
Definition new_job (job_id : string) (config : gmap string pyval)
  : IndexingJob :=
  {| job_id := job_id; config := config; status := "pending";
     progress := 0; total_files := 0; processed_files := 0; errors := [];
     start_time := None; end_time := None |}.

(** What the service reaches: the file system and database behind
    [_discover_files], the indexing of one file ([_index_single_file], which
    calls the RAG service and MongoDB), the persistence of the job
    ([_update_job_status], called in the repository but not defined there) and
    the clock. *)
Record IndexingService : Type := {
  _discover_files : gmap string pyval -> result (list string);
  _index_single_file : string -> IndexingJob -> result bool;
  _update_job_status : IndexingJob -> result unit;
  utcnow : Z
}.

Definition set_status (s : string) (job : IndexingJob) : IndexingJob :=
  {| job_id := job_id job; config := config job; status := s;
     progress := progress job; total_files := total_files job;
     processed_files := processed_files job; errors := errors job;
     start_time := start_time job; end_time := end_time job |}.

Definition set_progress (p : Q) (job : IndexingJob) : IndexingJob :=
  {| job_id := job_id job; config := config job; status := status job;
     progress := p; total_files := total_files job;
     processed_files := processed_files job; errors := errors job;
     start_time := start_time job; end_time := end_time job |}.

Definition set_total_files (n : Z) (job : IndexingJob) : IndexingJob :=
  {| job_id := job_id job; config := config job; status := status job;
     progress := progress job; total_files := n;
     processed_files := processed_files job; errors := errors job;
     start_time := start_time job; end_time := end_time job |}.

Definition incr_processed (job : IndexingJob) : IndexingJob :=
  {| job_id := job_id job; config := config job; status := status job;
     progress := progress job; total_files := total_files job;
     processed_files := processed_files job + 1; errors := errors job;
     start_time := start_time job; end_time := end_time job |}.

Definition append_error (msg : string) (job : IndexingJob) : IndexingJob :=
  {| job_id := job_id job; config := config job; status := status job;
     progress := progress job; total_files := total_files job;
     processed_files := processed_files job; errors := errors job ++ [msg];
     start_time := start_time job; end_time := end_time job |}.

Definition set_start_time (t : Z) (job : IndexingJob) : IndexingJob :=
  {| job_id := job_id job; config := config job; status := status job;
     progress := progress job; total_files := total_files job;
     processed_files := processed_files job; errors := errors job;
     start_time := Some t; end_time := end_time job |}.

Definition set_end_time (t : Z) (job : IndexingJob) : IndexingJob :=
  {| job_id := job_id job; config := config job; status := status job;
     progress := progress job; total_files := total_files job;
     processed_files := processed_files job; errors := errors job;
     start_time := start_time job; end_time := Some t |}.

(** Code that mutates the job and may raise: the job as it is when the code
    returns or raises is part of the outcome, because the [except] and
    [finally] clauses go on with the same object. *)
Definition jobM (A : Type) : Type := IndexingJob -> result A * IndexingJob.

Definition ret {A} (a : A) : jobM A := fun job => (Ok a, job).

Definition raise {A} (e : exn) : jobM A := fun job => (Raise e, job).

Definition bindM {A B} (m : jobM A) (k : A -> jobM B) : jobM B :=
  fun job =>
    match m job with
    | (Ok a, job') => k a job'
    | (Raise e, job') => (Raise e, job')
    end.

Definition modify (f : IndexingJob -> IndexingJob) : jobM unit :=
  fun job => (Ok tt, f job).

Definition lift {A} (f : IndexingJob -> result A) : jobM A :=
  fun job => (f job, job).

#[global] Instance jobM_ret : MRet jobM := @ret.
#[global] Instance jobM_bind : MBind jobM := fun A B k m => bindM m k.

(** [job.config.get("batch_size", 10)], as the step of a [range]. *)
Definition batch_size_of (config : gmap string pyval) : result Z :=
  match config !! "batch_size" with
  | None => Ok 10
  | Some (VInt b) => Ok b
  | Some (VBool b) => Ok (if b then 1 else 0)
  | Some _ =>
      Raise (Exn "TypeError" "object cannot be interpreted as an integer")
  end.

(** The update loop over the results of one [asyncio.gather]. *)
Definition record_results (batch : list string)
    (results : list (result bool)) (job : IndexingJob) : IndexingJob :=
  fold_left
    (fun job '(file_path, r) =>
       match r with
       | Raise e =>
           append_error
             ("Error processing " +:+ file_path +:+ ": " +:+ exn_str e) job
       | Ok _ => incr_processed job
       end)
    (zip batch results) job.

(** One iteration of the loop of [_process_files_batch], up to its [yield]:
    the progress it yields. *)
Definition process_batch (self : IndexingService) (files : list string)
    (batch_size : Z) (i : nat) : jobM Q :=
  fun job =>
    let batch := slice files (Z.of_nat i) (Z.of_nat i + batch_size) in
    let results := map (fun file_path => _index_single_file self file_path job)
                       batch in
    let job := record_results batch results job in
    if total_files job =? 0
    then (Raise (Exn "ZeroDivisionError" "division by zero"), job)
    else
      (Ok ((inject_Z (processed_files job) / inject_Z (total_files job))
           * 100)%Q, job).

(** What follows the iterations [done] of the loop: the next iteration of
    the generator, then the body of the consumer, which runs at the
    [yield]. *)
Definition next_batch (self : IndexingService) (files : list string)
    (batch_size : Z) (done : jobM unit) (i : nat) : jobM unit :=
  done;;
  progress ← process_batch self files batch_size i;
  modify (set_progress progress);;
  lift (_update_job_status self).

(** [async for progress in self._process_files_batch(job, files)] *)
Definition process_files (self : IndexingService) (files : list string)
  : jobM unit :=
  batch_size ← lift (fun job => batch_size_of (config job));
  idxs ← lift (fun _ => range0 (length files) batch_size);
  fold_left (next_batch self files batch_size) idxs (ret tt).

(** The [try] block of [_execute_indexing_job]. *)
Definition execute_try (self : IndexingService) : jobM unit :=
  modify (set_status "running");;
  modify (set_start_time (utcnow self));;
  lift (_update_job_status self);;
  files_to_index ← lift (fun job => _discover_files self (config job));
  modify (set_total_files (len files_to_index));;
  lift (_update_job_status self);;
  process_files self files_to_index;;
  modify (set_status "completed");;
  modify (set_end_time (utcnow self)).

(** [_execute_indexing_job]: [try], [except Exception], [finally]. The
    outcome is that of the [finally] clause. *)
Definition _execute_indexing_job (self : IndexingService) : jobM unit :=
  fun job =>
    let job :=
      match execute_try self job with
      | (Ok _, job) => job
      | (Raise e, job) =>
          set_end_time (utcnow self)
            (append_error (exn_str e) (set_status "failed" job))
      end in
    lift (_update_job_status self) job.

End Indexing.

Import Indexing.

(** ** vector_store_service.py: deletion *)

Module VectorStoreOps.

#[global] Instance pyval_eq_dec : EqDecision pyval.
Proof. solve_decision. Defined.

(** The selector of [delete_document]:
    [Filter(must=[FieldCondition(key="document_id",
    match=MatchValue(value=document_id))])]. Qdrant selects the points whose
    payload entry [document_id] equals the value. *)
Definition selects (document_id : string) (p : PointStruct) : Prop :=
  p_document_id (payload p) = Some (VStr (txt document_id)).

#[global] Instance selects_dec document_id p : Decision (selects document_id p).
Proof. unfold selects. apply _. Defined.

(** [delete_document]: the server deletes the selected points, or the
    exception of the client is raised again. *)
Definition delete_document (self : QdrantVectorStore) (document_id : string)
  : result unit * QdrantVectorStore :=
  if reachable self then
    (Ok tt,
     {| points :=
          filter (fun kv : string * PointStruct =>
                    ¬ selects document_id kv.2) (points self);
        reachable := reachable self;
        uuid4 := uuid4 self;
        uuid_calls := uuid_calls self |})
  else
    (Raise (Exn "ResponseHandlingException" "Qdrant is unreachable"), self).

End VectorStoreOps.

Import VectorStoreOps.

(** ** document_processor.py and [RAGService.index_document] *)

Module Documents.

(** The processor classes that [get_processor] names. *)
Inductive DocumentProcessor : Type :=
| PDFProcessor
| DOCXProcessor
| XLSXProcessor
| HTMLProcessor
| EMLProcessor
| TXTProcessor.

Definition class_name (cls : DocumentProcessor) : string :=
  match cls with
  | PDFProcessor => "PDFProcessor"
  | DOCXProcessor => "DOCXProcessor"
  | XLSXProcessor => "XLSXProcessor"
  | HTMLProcessor => "HTMLProcessor"
  | EMLProcessor => "EMLProcessor"
  | TXTProcessor => "TXTProcessor"
  end.

(** The methods that the body of each class defines: [EMLProcessor] has
    [extract_text] only, and no class statement binds [TXTProcessor]. *)
Definition class_body (cls : DocumentProcessor) : option (list string) :=
  match cls with
  | EMLProcessor => Some ["extract_text"%string]
  | TXTProcessor => None
  | _ => Some ["extract_text"%string; "extract_metadata"%string]
  end.

(** The methods [DocumentProcessor(ABC)] declares with [@abstractmethod]. *)
Definition abstract_methods : list string :=
  ["extract_text"%string; "extract_metadata"%string].

(** [cls()]: a name that is not bound raises [NameError], and [ABC] refuses to
    instantiate a class that leaves an abstract method undefined. The text of
    the [TypeError] is that of Python 3.11. *)
Definition instantiate (cls : DocumentProcessor) : result DocumentProcessor :=
  match class_body cls with
  | None =>
      Raise (Exn "NameError" ("name '" +:+ class_name cls +:+ "' is not defined"))
  | Some defined =>
      match filter (fun m => m ∉ defined) abstract_methods with
      | [] => Ok cls
      | missing =>
          Raise (Exn "TypeError"
                   ("Can't instantiate abstract class " +:+ class_name cls
                    +:+ " with abstract method"
                    +:+ (if decide (length missing = 1%nat) then EmptyString else "s")
                    +:+ " " +:+ String.concat ", " missing))
      end
  end.

(** The dictionary display [processors] of [get_processor]: the keys with the
    classes whose constructors it calls, in the order of the source. *)
Definition processors : list (pystr * DocumentProcessor) :=
  [ (txt ".pdf", PDFProcessor);
    (txt ".docx", DOCXProcessor);
    (txt ".xlsx", XLSXProcessor);
    (txt ".html", HTMLProcessor);
    (txt ".htm", HTMLProcessor);
    (txt ".eml", EMLProcessor);
    (txt ".txt", TXTProcessor) ].

(** [DocumentProcessorFactory.get_processor]: the dictionary is built at every
    call, one constructor call after the other, and then [dict.get] gives
    [None] for a missing key. *)
Definition get_processor (file_extension : pystr)
  : result (option DocumentProcessor) :=
  table ← mapM (fun '(key, cls) => processor ← instantiate cls;
                                   Ok (key, processor)) processors;
  Ok ((list_to_map table : gmap pystr DocumentProcessor)
        !! lower file_extension).

(** What [index_document] reaches besides the vector store: the Azure
    client of the service, its chunking strategy, the extraction methods of
    the processors (they read the file), [Path(file_path).suffix] and
    [datetime.utcnow().isoformat()]. *)
Record Indexer : Type := {
  rag : RAGService;
  chunking_strategy : Sem.t;
  extract_text : DocumentProcessor -> string -> result pystr;
  extract_metadata :
    DocumentProcessor -> string -> result (gmap string pyval);
  path_suffix : string -> pystr;
  utcnow_isoformat : pystr
}.

(** The dictionary [index_document] returns. *)
Record IndexResult : Type := {
  r_document_id : string;
  r_chunks_count : Z;
  r_point_ids : list string;
  r_status : string;
  r_metadata : gmap string pyval
}.

(** [full_metadata]: the entries of the caller override those of the
    document, and the three entries written last override both. *)
Definition full_metadata (self : Indexer) (doc_metadata : gmap string pyval)
    (metadata : option (gmap string pyval)) (file_path document_id : string)
  : gmap string pyval :=
  <["indexed_at" := VStr (utcnow_isoformat self)]>
    (<["file_path" := VStr (txt file_path)]>
       (<["document_id" := VStr (txt document_id)]>
          (default ∅ metadata ∪ doc_metadata))).

(** [index_document]: what it returns or raises, and the vector store
    afterwards. The [except] clause logs and raises the exception again. *)
Definition index_document (self : Indexer) (store : QdrantVectorStore)
    (file_path document_id : string)
    (metadata : option (gmap string pyval))
  : result IndexResult * QdrantVectorStore :=
  let file_ext := path_suffix self file_path in
  match get_processor file_ext with
  | Raise e => (Raise e, store)
  | Ok None =>
      (Raise (Exn "ValueError"
                ("Unsupported file format: "
                 +:+ string_of_list_ascii file_ext)),
       store)
  | Ok (Some processor) =>
      match extract_text self processor file_path with
      | Raise e => (Raise e, store)
      | Ok text =>
          match extract_metadata self processor file_path with
          | Raise e => (Raise e, store)
          | Ok doc_metadata =>
              let full :=
                full_metadata self doc_metadata metadata file_path
                  document_id in
              let chunks :=
                Sem.chunk_text (chunking_strategy self) text full in
              match _generate_embeddings_batch (rag self)
                      (map Chunking.text chunks) 10 with
              | Raise e => (Raise e, store)
              | Ok embeddings =>
                  match add_documents store chunks embeddings with
                  | (Raise e, store') => (Raise e, store')
                  | (Ok point_ids, store') =>
                      (Ok {| r_document_id := document_id;
                             r_chunks_count := len chunks;
                             r_point_ids := point_ids;
                             r_status := "indexed";
                             r_metadata := full |},
                       store')
                  end
              end
          end
      end
  end.

End Documents.

Import Documents.

(** ** indexing_service.py: the records of the indexed files *)

Module IndexedFiles.

(** [Path(file_path).stat()] *)
Record Stat : Type := {
  st_size : Z;
  st_mtime : Q
}.

(** A document of the collection [indexed_files]. *)
Record FileRecord : Type := {
  f_document_id : string;
  f_file_hash : string;
  f_modified_time : Q;
  f_indexed_at : Z;
  f_indexing_job_id : string;
  f_chunks_count : Z;
  f_status : string
}.

(** What the file functions reach: the file system ([exists], [rglob],
    [stat]), the hash of a file's content ([_calculate_file_hash], SHA-256),
    the MD5 digest of a path, the indexing of a document by the RAG service,
    and the clock. The collection [indexed_files] holds one record for each
    path, as [update_one] with [upsert=True] on [file_path] keeps it. *)
Record FileIndexer : Type := {
  path_exists : string -> bool;
  rglob : string -> string -> list string;
  path_stat : string -> result Stat;
  _calculate_file_hash : string -> result string;
  md5_hexdigest : string -> string;
  rag_index_document :
    string -> string -> gmap string pyval -> result IndexResult;
  clock : Z
}.

(** [_should_reindex_file] *)
Definition _should_reindex_file (self : FileIndexer)
    (indexed_files : gmap string FileRecord) (file_path : string)
  : result bool :=
  file_stat ← path_stat self file_path;
  current_hash ← _calculate_file_hash self file_path;
  match indexed_files !! file_path with
  | None => Ok true
  | Some existing_record =>
      if bool_decide (f_file_hash existing_record ≠ current_hash)
         || negb (Qeq_bool (f_modified_time existing_record)
                    (st_mtime file_stat))
      then Ok true
      else Ok false
  end.

(** [_index_single_file], with the collection afterwards. The [except]
    clause logs and raises the exception again. *)
Definition _index_single_file (self : FileIndexer)
    (indexed_files : gmap string FileRecord) (file_path : string)
    (job : IndexingJob)
  : result bool * gmap string FileRecord :=
  let document_id := "doc_" +:+ md5_hexdigest self file_path in
  let metadata : gmap string pyval :=
    <["indexed_by_user" := default VNone (config job !! "user_id")]>
      (<["indexed_by_job" := VStr (txt (job_id job))]> ∅) in
  match rag_index_document self file_path document_id metadata with
  | Raise e => (Raise e, indexed_files)
  | Ok result =>
      match path_stat self file_path with
      | Raise e => (Raise e, indexed_files)
      | Ok file_stat =>
          match _calculate_file_hash self file_path with
          | Raise e => (Raise e, indexed_files)
          | Ok file_hash =>
              (Ok true,
               <[file_path :=
                   {| f_document_id := document_id;
                      f_file_hash := file_hash;
                      f_modified_time := st_mtime file_stat;
                      f_indexed_at := clock self;
                      f_indexing_job_id := job_id job;
                      f_chunks_count := r_chunks_count result;
                      f_status := "indexed" |}]> indexed_files)
          end
      end
  end.

(** [needle in hay] *)
Fixpoint contains (needle hay : string) : bool :=
  if String.prefix needle hay then true
  else
    match hay with
    | EmptyString => false
    | String _ hay' => contains needle hay'
    end.

(** The entries of the configuration that [_discover_files] reads; [None]
    for a missing key. *)
Record DiscoveryConfig : Type := {
  cfg_paths : option (list string);
  cfg_extensions : option (list string);
  cfg_max_file_size : option Z;
  cfg_excluded_paths : option (list string)
}.

(** A loop whose body may raise. *)
Fixpoint for_each {A B} (body : B -> A -> result B) (l : list A) (acc : B)
  : result B :=
  match l with
  | [] => Ok acc
  | a :: l' => acc' ← body acc a; for_each body l' acc'
  end.

(** The body of the innermost loop of [_discover_files]. *)
Definition consider_file (self : FileIndexer)
    (indexed_files : gmap string FileRecord) (excluded_paths : list string)
    (max_file_size : Z) (files_to_index : list string) (file_path : string)
  : result (list string) :=
  if existsb (fun excluded => contains excluded file_path) excluded_paths
  then Ok files_to_index
  else
    file_stat ← path_stat self file_path;
    if st_size file_stat >? max_file_size then Ok files_to_index
    else
      reindex ← _should_reindex_file self indexed_files file_path;
      if (reindex : bool) then Ok (files_to_index ++ [file_path])
      else Ok files_to_index.

(** [_discover_files] *)
Definition _discover_files (self : FileIndexer)
    (indexed_files : gmap string FileRecord) (config : DiscoveryConfig)
  : result (list string) :=
  let base_paths := default ["/mnt"%string] (cfg_paths config) in
  let extensions :=
    default [".pdf"; ".docx"; ".txt"]%string (cfg_extensions config) in
  let max_file_size :=
    default (100 * 1024 * 1024) (cfg_max_file_size config) in
  let excluded_paths := default [] (cfg_excluded_paths config) in
  for_each
    (fun files_to_index base_path =>
       if negb (path_exists self base_path) then Ok files_to_index
       else
         for_each
           (fun files_to_index ext =>
              for_each
                (consider_file self indexed_files excluded_paths
                   max_file_size)
                (rglob self base_path ("*" +:+ ext)) files_to_index)
           extensions files_to_index)
    base_paths [].

(** [cancel_job], with [self.current_jobs] afterwards: the job object is
    changed before its state is persisted. *)
Definition cancel_job (self : IndexingService)
    (current_jobs : gmap string IndexingJob) (job_id : string)
  : result bool * gmap string IndexingJob :=
  match current_jobs !! job_id with
  | Some job =>
      if String.eqb (status job) "running" then
        let job :=
          set_end_time (utcnow self) (set_status "cancelled" job) in
        let current_jobs := <[job_id := job]> current_jobs in
        match _update_job_status self job with
        | Ok _ => (Ok true, current_jobs)
        | Raise e => (Raise e, current_jobs)
        end
      else (Ok false, current_jobs)
  | None => (Ok false, current_jobs)
  end.

End IndexedFiles.

Module Files := IndexedFiles.

(** ** Python floats *)

Module Binary64.

(** A Python [float] is an IEEE 754 binary64 number, and its operations round
    to the nearest number, a tie to the even one. [SpecFloat] is the Standard
    Library's definition of these numbers and operations. *)
Definition float : Type := SpecFloat.spec_float.

Definition prec : Z := 53.
Definition emax : Z := 1024.

(** [x * y] and [x + y] *)
Definition fmul : float -> float -> float := SpecFloat.SFmul prec emax.
Definition fadd : float -> float -> float := SpecFloat.SFadd prec emax.

(** [x < y], [x <= y] and [x == y]: all false when an operand is NaN. *)
Definition flt : float -> float -> bool := SpecFloat.SFltb.
Definition fle : float -> float -> bool := SpecFloat.SFleb.
Definition feq : float -> float -> bool := SpecFloat.SFeqb.

Definition is_nan (x : float) : bool :=
  match x with SpecFloat.S754_nan => true | _ => false end.

(** [float(z)], the conversion that mixed arithmetic applies to an [int]. *)
Definition float_of_int (z : Z) : float :=
  SpecFloat.binary_normalize prec emax z 0 false.

(** [a / b] on two [int], for [b] other than 0 (the code divides by the size
    of a set that is not empty): the exact quotient, rounded once. *)
Definition int_truediv (a b : Z) : float :=
  let sign := xorb (a <? 0) (b <? 0) in
  match a with
  | 0 => SpecFloat.S754_zero sign
  | _ =>
      let '(q, e, l) :=
        SpecFloat.SFdiv_core_binary prec emax (Z.abs a) 0 (Z.abs b) 0 in
      SpecFloat.binary_round_aux prec emax sign q e l
  end.

(** The value of a decimal literal that reads [n/d], such as [0.7] for
    [7/10]: the float nearest to it. *)
Definition literal (n d : Z) : float := int_truediv n d.

End Binary64.

Import Binary64.

(** ** rag_service.py: the scores of [_rerank_results] as floats

    [Rag._rerank_results] above computes the scores in exact rationals, which
    is enough for what is said of the candidates it keeps and of the range
    of the scores. The order of the result depends on the rounding of every
    operation: here is the method with the scores as the interpreter has
    them. *)

Module Rerank.

(** [sorted(l, key=..., reverse=True)] on float keys: the sort is stable and
    compares keys with [<]; an element goes before those already placed
    unless one of them has a strictly greater key. *)
Fixpoint insert_desc {A} (key : A -> float) (x : A) (l : list A) : list A :=
  match l with
  | [] => [x]
  | y :: l' =>
      if flt (key x) (key y) then y :: insert_desc key x l' else x :: l
  end.

Definition sorted_desc {A} (key : A -> float) (l : list A) : list A :=
  foldr (insert_desc key) [] l.

(** [keyword_score] of a candidate text: [overlap / len(query_words)], or the
    [int] 0, which the product with [0.3] converts. *)
Definition keyword_score (query_words : gset pystr) (text : pystr) : float :=
  let text_words := word_set text in
  let overlap := size (query_words ∩ text_words) in
  if decide (query_words = ∅) then float_of_int 0
  else int_truediv (Z.of_nat overlap) (Z.of_nat (size query_words)).

(** [combined_score] of a candidate:
    [(similarity_score * 0.7) + (keyword_score * 0.3)]. *)
Definition combined_score (query_words : gset pystr)
    (candidate : Payload * float) : float :=
  let '(result, similarity_score) := candidate in
  fadd (fmul similarity_score (literal 7 10))
       (fmul (keyword_score query_words (p_text result)) (literal 3 10)).

(** [_rerank_results] *)
Definition _rerank_results (self : RAGService) (query : pystr)
    (search_results : list (Payload * float)) : list (Payload * float) :=
  let query_words := word_set query in
  let scored_results :=
    map (fun c => (fst c, combined_score query_words c)) search_results in
  sorted_desc snd scored_results.

End Rerank.

(** * Vocabulary of the properties *)

(** The [chunk_index] entries of a chunk list, and the ordinals 0..n-1. *)
Definition chunk_indices (cs : list Chunk) : list (option pyval) :=
  map (fun c => metadata c !! "chunk_index") cs.

Definition ordinals (n : nat) : list (option pyval) :=
  map (fun i => Some (VInt (Z.of_nat i))) (seq 0 n).

(** The chunks cut so far carry the ordinals. *)
Definition well_numbered (st : Sem.locals) : Prop :=
  chunk_indices (Sem.chunks st) = ordinals (length (Sem.chunks st)).

(** The characters of a text that are not white space, in order. *)
Definition nonspace (s : pystr) : pystr :=
  List.filter (fun c => negb (isspace c)) s.

(** The text held by the loop: the chunks already cut and the chunk under
    construction. *)
Definition held (st : Sem.locals) : pystr :=
  concat (map text (Sem.chunks st)) ++ Sem.current_chunk st.

(** A service whose embedding capability is the total function [embed]. *)
Definition total_embedder (embed : pystr -> list Q) (self : RAGService)
  : RAGService :=
  {| azure_ai :=
       {| generate_embedding := fun t => Ok (embed t);
          generate_response := generate_response (azure_ai self) |};
     search_similar := search_similar self |}.

(** The windows with the overlap removed: every window but the first loses
    its first [o] tokens, which the window before it already holds. *)
Definition without_overlap (o : nat) (ws : list (list Z)) : list Z :=
  match ws with
  | [] => []
  | w :: ws' => w ++ concat (map (drop o) ws')
  end.

(** The two parts of the chunk text of the window that starts at [i]: the
    text of its first [overlap] tokens, which are the tokens it shares with
    the window before it, and the text of the other tokens. *)
Definition shared_text (self : Fix.t) (tokens : list Z) (i : nat) : pystr :=
  decode (Fix.tokenizer self)
    (take (Z.to_nat (Fix.overlap self)) (Fix.window self tokens i)).

Definition fresh_text (self : Fix.t) (tokens : list Z) (i : nat) : pystr :=
  decode (Fix.tokenizer self)
    (drop (Z.to_nat (Fix.overlap self)) (Fix.window self tokens i)).

(** The chunk texts of the windows that start at [idxs], put end to end once
    the overlap is removed: every chunk but the first loses its shared
    text. *)
Definition texts_without_overlap (self : Fix.t) (tokens : list Z)
    (idxs : list nat) : pystr :=
  match idxs with
  | [] => []
  | i :: idxs' =>
      (shared_text self tokens i ++ fresh_text self tokens i)
      ++ concat (map (fresh_text self tokens) idxs')
  end.

(** A text without white space at either end. *)
Definition trimmed (s : pystr) : Prop :=
  lstrip s = s /\ lstrip (rev s) = rev s.

(** A chunk text as the loop builds it: a first piece, then separators and
    further pieces. *)
Definition glue (p0 : pystr) (rest : list (pystr * pystr)) : pystr :=
  p0 ++ concat (map (fun sp => fst sp ++ snd sp) rest).

(** The token count of a piece, as the loop measures it. *)
Definition piece_tokens (self : Sem.t) (p : pystr) : Z :=
  len (encode (Sem.tokenizer self) p).

(** The budget the loop charges for a chunk: the token counts of its pieces,
    each measured on its own. *)
Definition budget (self : Sem.t) (p0 : pystr) (rest : list (pystr * pystr))
  : Z :=
  piece_tokens self p0
  + fold_right Z.add 0 (map (fun sp => piece_tokens self (snd sp)) rest).

(** A sentence of a paragraph that the strategy splits. *)
Definition is_sentence (self : Sem.t) (text s : pystr) : Prop :=
  exists para,
    In para (split_paragraphs text)
    /\ Sem.max_chunk_size self < piece_tokens self para
    /\ In s (Sem._split_by_sentences self para).

(** A piece: a paragraph of the text, or a sentence of a split paragraph. *)
Definition is_piece (self : Sem.t) (text p : pystr) : Prop :=
  In p (split_paragraphs text) \/ is_sentence self text p.

(** Within budget, or one sentence that exceeds it on its own. *)
Definition within_budget (self : Sem.t) (text : pystr) (p0 : pystr)
    (rest : list (pystr * pystr)) : Prop :=
  budget self p0 rest <= Sem.max_chunk_size self
  \/ (rest = [] /\ is_sentence self text p0
      /\ Sem.max_chunk_size self < piece_tokens self p0).

(** A chunk that the budget accounts for. *)
Definition good_chunk (self : Sem.t) (text : pystr) (md : gmap string pyval)
    (c : Chunk) : Prop :=
  exists p0 rest i,
    c = Sem._create_chunk self (glue p0 rest) md i
    /\ Forall (is_piece self text) (p0 :: map snd rest)
    /\ within_budget self text p0 rest.

(** The chunk under construction, with the tokens charged for it. *)
Definition good_current (self : Sem.t) (text : pystr) (current : pystr)
    (tokens : Z) : Prop :=
  current = []
  \/ exists p0 rest,
       current = glue p0 rest
       /\ Forall (is_piece self text) (p0 :: map snd rest)
       /\ budget self p0 rest <= tokens
       /\ within_budget self text p0 rest.

(** The invariant of the loops of [chunk_text]. *)
Definition budget_inv (self : Sem.t) (text : pystr) (md : gmap string pyval)
    (st : Sem.locals) : Prop :=
  Forall (good_chunk self text md) (Sem.chunks st)
  /\ good_current self text (Sem.current_chunk st) (Sem.current_tokens st)
  /\ 0 <= Sem.current_tokens st.

(** A piece the loop may receive: a paragraph within the size, or a
    sentence. *)
Definition admissible (self : Sem.t) (text : pystr) (p : pystr) : Prop :=
  is_piece self text p
  /\ (piece_tokens self p <= Sem.max_chunk_size self
      \/ is_sentence self text p).

(** ** How the semantic strategy groups the pieces of a text *)

(** The pieces that the loops of [chunk_text] hand to the buffer, in order,
    each with the separator that goes before it when it joins a chunk under
    construction: a blank line before a paragraph, a space before a sentence
    of a paragraph that is too long. *)
Definition pieces_of (self : Sem.t) (text : pystr) : list (pystr * pystr) :=
  flat_map
    (fun paragraph =>
       if piece_tokens self paragraph >? Sem.max_chunk_size self
       then map (fun s => (txt " ", s)) (Sem._split_by_sentences self paragraph)
       else [([ascii_of_nat 10; ascii_of_nat 10], paragraph)])
    (split_paragraphs text).

(** The text of a group of consecutive pieces: the pieces with their
    separators between them; the separator of the first piece is not used. *)
Definition joined (g : list (pystr * pystr)) : pystr :=
  match g with
  | [] => []
  | (_, p0) :: rest => glue p0 rest
  end.

(** What the loop charges for a group: the token counts of its pieces, each
    measured on its own. *)
Definition charged (self : Sem.t) (g : list (pystr * pystr)) : Z :=
  fold_right Z.add 0 (map (fun sp => piece_tokens self (snd sp)) g).

(** The pieces that are not the empty text. *)
Definition nonempty_pieces (l : list (pystr * pystr)) : list (pystr * pystr) :=
  List.filter (fun sp => truthy (snd sp)) l.

(** The chunks made of a list of groups. *)
Definition chunks_of (self : Sem.t) (md : gmap string pyval)
    (groups : list (list (pystr * pystr))) : list Chunk :=
  imap (fun i g => Sem._create_chunk self (joined g) md (Z.of_nat i)) groups.

(** A group fits: it is charged at most [max_chunk_size], or it is a single
    sentence that exceeds [max_chunk_size] alone, and which is then the whole
    text of its chunk. *)
Definition fits (self : Sem.t) (text : pystr) (g : list (pystr * pystr))
  : Prop :=
  g <> []
  /\ (charged self g <= Sem.max_chunk_size self
      \/ exists sep s,
           g = [(sep, s)]
           /\ Sem.max_chunk_size self < piece_tokens self s
           /\ is_sentence self text s
           /\ strip (joined g) = s).

(** The invariant of the loops of [chunk_text], on the pieces [seen] so far:
    the groups behind the chunks already cut, and the group under
    construction. *)
Definition grouping_inv (self : Sem.t) (text : pystr)
    (md : gmap string pyval) (seen : list (pystr * pystr)) (st : Sem.locals)
  : Prop :=
  exists done cur,
    Sem.chunks st = chunks_of self md done
    /\ Sem.current_chunk st = joined cur
    /\ (Sem.current_chunk st = [] -> cur = [])
    /\ nonempty_pieces (concat done ++ cur) = nonempty_pieces seen
    /\ Forall (fits self text) done
    /\ (cur <> [] -> fits self text cur)
    /\ charged self cur <= Sem.current_tokens st
    /\ 0 <= Sem.current_tokens st.

(** ** Values for the concrete runs *)

(** The line feed. *)
Definition nl : ascii := ascii_of_nat 10.

(** The semantic strategy with a budget of two tokens and the default
    overlap, on the character tokenizer. *)
Definition tiny_semantic : Sem.t :=
  {| Sem.max_chunk_size := 2; Sem.overlap := 50;
     Sem.tokenizer := char_tokenizer |}.

(** The fixed-size strategy with windows of four tokens that overlap by
    two. *)
Definition small_fixed : Fix.t :=
  {| Fix.chunk_size := 4; Fix.overlap := 2; Fix.tokenizer := char_tokenizer |}.

(** A service whose calls all fail, to build other services from. *)
Definition offline : RAGService :=
  {| azure_ai :=
       {| generate_embedding := fun _ => Raise (Exn "EmbeddingServiceError" "embedding failed");
          generate_response := fun _ => Raise (Exn "APIError" "generation failed") |};
     search_similar := fun _ _ _ _ => Raise (Exn "ResponseHandlingException" "Qdrant is unreachable") |}.

(** ** The order of floats and of the reranked results *)

(** The place of a float in the order of [<]: for two numbers, [x < y] is
    the lexicographic order of their places, and [x == y] says that the
    places are the same. *)
Definition place (x : float) : Z * (Z * Z) :=
  match x with
  | SpecFloat.S754_infinity true => (-2, (0, 0))
  | SpecFloat.S754_finite true m e => (-1, (- e, Z.neg m))
  | SpecFloat.S754_zero _ => (0, (0, 0))
  | SpecFloat.S754_finite false m e => (1, (e, Z.pos m))
  | SpecFloat.S754_infinity false => (2, (0, 0))
  | SpecFloat.S754_nan => (3, (0, 0))
  end.

Definition place_lt (a b : Z * (Z * Z)) : Prop :=
  a.1 < b.1
  \/ (a.1 = b.1 /\ (a.2.1 < b.2.1 \/ (a.2.1 = b.2.1 /\ a.2.2 < b.2.2))).

Definition place_eq (a b : Z * (Z * Z)) : Prop :=
  a.1 = b.1 /\ a.2.1 = b.2.1 /\ a.2.2 = b.2.2.

(** A float that is zero or finite. *)
Definition is_finite (x : float) : bool :=
  match x with
  | SpecFloat.S754_zero _ | SpecFloat.S754_finite _ _ _ => true
  | _ => false
  end.

(** A float that is zero, or finite and of magnitude below 4. *)
Definition is_small (x : float) : Prop :=
  match x with
  | SpecFloat.S754_zero _ => True
  | SpecFloat.S754_finite _ m e =>
      e <= emax - prec /\ SpecFloat.Zdigits2 (Z.pos m) + e <= 2
  | _ => False
  end.

(** The number that a finite float is, exactly. *)
Definition float_value (x : float) : Q :=
  match x with
  | SpecFloat.S754_finite s m e =>
      ((if s then -1 else 1) * inject_Z (Z.pos m) * 2 ^ e)%Q
  | _ => 0%Q
  end.

(** The order of the result of a stable descending sort: a greater key first,
    and for equal keys what [before] tells of the order of the input. *)
Definition placed_before {A} (key : A -> float) (before : A -> A -> Prop)
    (a b : A) : Prop :=
  flt (key b) (key a) = true \/ (feq (key a) (key b) = true /\ before a b).

(** The candidates with their positions in the list the search returned. *)
Definition indexed_from (start : nat) (cands : list (Payload * float))
  : list (nat * (Payload * float)) :=
  zip (seq start (length cands)) cands.

(** The similarity of an indexed candidate. *)
Definition similarity (a : nat * (Payload * float)) : float := snd (snd a).

(** Earlier in the search results, with a similarity that is not smaller. *)
Definition earlier (a b : nat * (Payload * float)) : Prop :=
  (fst a < fst b)%nat /\ fle (similarity b) (similarity a) = true.

(** The rank order the engine realises on search results: a greater combined
    score first, then a greater similarity, then the earlier position. *)
Definition ranks_before (query : pystr) (a b : nat * (Payload * float))
  : Prop :=
  let score x := Rerank.combined_score (word_set query) (snd x) in
  flt (score b) (score a) = true
  \/ (feq (score a) (score b) = true
      /\ (flt (similarity b) (similarity a) = true
          \/ (feq (similarity a) (similarity b) = true
              /\ (fst a < fst b)%nat))).

(** The order in which [_rerank_results] returns the texts of the
    candidates. *)
Definition ranked_texts (query : pystr) (cands : list (Payload * float))
  : list pystr :=
  map (fun c => p_text (fst c)) (Rerank._rerank_results offline query cands).

(** The combined score of a candidate in exact arithmetic: [0.7] and [0.3]
    as the rationals they read, the similarity as the number the float is,
    and the keyword score as the fraction of the query words. *)
Definition exact_combined_score (query : pystr) (candidate : Payload * float)
  : Q :=
  ((7 # 10) * float_value (snd candidate)
   + (3 # 10) * keyword_score (word_set query) (p_text (fst candidate)))%Q.

(** A payload that holds a text only. *)
Definition doc (t : string) : Payload :=
  {| p_text := txt t; p_metadata := ∅; p_document_id := None;
     p_file_path := None; p_chunk_index := None; p_token_count := None |}.

(** ** The lexical overlap in the words of the specification

    The terms are cut at white space and at punctuation; the code's own
    [keyword_score] is compared with this reading. *)

(** ASCII punctuation. *)
Definition is_punct (c : ascii) : bool :=
  let n := nat_of_ascii c in
  (((33 <=? n) && (n <=? 47)) || ((58 <=? n) && (n <=? 64))
   || ((91 <=? n) && (n <=? 96)) || ((123 <=? n) && (n <=? 126)))%nat.

(** The terms of a text tokenized on white space and punctuation. *)
Fixpoint claimed_terms_from (word : pystr) (s : pystr) : list pystr :=
  match s with
  | [] => if truthy word then [rev word] else []
  | c :: s' =>
      if isspace c || is_punct c then
        if truthy word then rev word :: claimed_terms_from [] s'
        else claimed_terms_from [] s'
      else claimed_terms_from (c :: word) s'
  end.

(** The set of the terms of a lower-cased text. *)
Definition claimed_terms (s : pystr) : gset pystr :=
  list_to_set (claimed_terms_from [] (lower s)).

(** The fraction of the query terms that occur in the candidate text. *)
Definition claimed_lexical_overlap (query text : pystr) : Q :=
  let q := claimed_terms query in
  if decide (q = ∅) then 0%Q
  else (inject_Z (Z.of_nat (size (q ∩ claimed_terms text)))
        / inject_Z (Z.of_nat (size q)))%Q.

(** [0.7 * similarity + 0.3 * lexical_overlap] *)
Definition claimed_combined_score (query : pystr)
    (candidate : Payload * float) : Q :=
  ((7 # 10) * float_value (snd candidate)
   + (3 # 10) * claimed_lexical_overlap query (p_text (fst candidate)))%Q.

(** A deployment whose embedding capability is down and whose generation
    capability answers. *)
Definition embedding_down : RAGService :=
  {| azure_ai :=
       {| generate_embedding :=
            fun _ => Raise (Exn "EmbeddingServiceError" "embedding failed");
          generate_response := fun _ => Ok (txt "general answer") |};
     search_similar := fun _ _ _ _ => Ok [] |}.

(** An empty collection on a server that answers, with distinct
    identifiers drawn. *)
Definition empty_store : QdrantVectorStore :=
  {| points := ∅; reachable := true;
     uuid4 := fun n => "uuid-" +:+ pretty n; uuid_calls := 0 |}.

(** A chunk of an indexed document. *)
Definition sample_chunk : Chunk :=
  {| text := txt "Refunds are issued within 30 days.";
     metadata := <["chunk_index" := VInt 0]> (<["document_id" := VStr (txt "doc_1")]> ∅) |}.

(** A deployment in which every call succeeds and the search finds
    nothing. *)
Definition nothing_found : RAGService :=
  {| azure_ai :=
       {| generate_embedding := fun _ => Ok [1%Q];
          generate_response := fun _ => Ok (txt "I found nothing on that.") |};
     search_similar := fun _ _ _ _ => Ok [] |}.

(** A chat service whose database stores every message. *)
Definition chat_db : ChatService :=
  {| save_chat_message_with_sources := fun _ _ _ _ _ => Ok "msg-1"%string |}.

(** A deployment in which the search finds nothing and the generation
    capability is down. *)
Definition generation_down : RAGService :=
  {| azure_ai :=
       {| generate_embedding := fun _ => Ok [1%Q];
          generate_response :=
            fun _ => Raise (Exn "APIError" "generation failed") |};
     search_similar := fun _ _ _ _ => Ok [] |}.

(** A chat service whose database refuses every message. *)
Definition chat_db_down : ChatService :=
  {| save_chat_message_with_sources :=
       fun _ _ _ _ _ => Raise (Exn "ServerSelectionTimeoutError" "no server") |}.

(** The preview [_prepare_sources] makes of a text. *)
Definition preview_of (text : pystr) : pystr :=
  if len text >? 200 then slice_to text 200 ++ txt "..." else text.

(** The entry of [job.errors] for a file that failed. *)
Definition error_message (file_path : string) (e : exn) : string :=
  "Error processing " +:+ file_path +:+ ": " +:+ exn_str e.

(** The job after the files of a list were indexed, one after the other,
    with the outcomes [outcome]. *)
Definition tally (outcome : string -> result bool) (files : list string)
    (job : IndexingJob) : IndexingJob :=
  fold_left
    (fun job file_path =>
       match outcome file_path with
       | Raise e => append_error (error_message file_path e) job
       | Ok _ => incr_processed job
       end)
    files job.

(** The error entries of the files that failed, in the order of the files. *)
Definition failures (outcome : string -> result bool) (files : list string)
  : list string :=
  flat_map
    (fun file_path =>
       match outcome file_path with
       | Raise e => [error_message file_path e]
       | Ok _ => []
       end)
    files.

(** Unfolds the plumbing of [jobM]. *)
Ltac run_job :=
  unfold mbind, jobM_bind, bindM, mret, jobM_ret, ret, modify, lift.

(** A job of three files in batches of one, whose second file cannot be
    embedded. *)
Definition second_fails (file_path : string) : result bool :=
  if String.eqb file_path "b.pdf"
  then Raise (Exn "EmbeddingServiceError" "embedding failed")
  else Ok true.

(** The service that discovers three files and persists every job
    state. *)
Definition three_files : IndexingService :=
  {| _discover_files := fun _ => Ok ["a.pdf"; "b.pdf"; "c.pdf"]%string;
     _index_single_file := fun file_path _ => second_fails file_path;
     _update_job_status := fun _ => Ok tt;
     utcnow := 0 |}.

(** The job configuration [{"batch_size": 1}]. *)
Definition batches_of_one : gmap string pyval := {["batch_size" := VInt 1]}.

(** ** Vocabulary of the further properties *)

(** The chunk the fixed-size strategy builds as its [k]-th chunk, for the
    window that starts at token [i]. *)
Definition fixed_chunk (self : Fix.t) (tokens : list Z)
    (md : gmap string pyval) (k i : nat) : Chunk :=
  let chunk_tokens := Fix.window self tokens i in
  {| text := decode (Fix.tokenizer self) chunk_tokens;
     metadata :=
       <["end_token" := VInt (Z.of_nat i + len chunk_tokens)]>
         (<["start_token" := VInt (Z.of_nat i)]>
            (<["token_count" := VInt (len chunk_tokens)]>
               (<["chunk_index" := VInt (Z.of_nat k)]> md))) |}.

(** The step of the windows, [chunk_size - overlap], when it is positive. *)
Definition fixed_step (self : Fix.t) : nat :=
  Z.to_nat (Fix.chunk_size self - Fix.overlap self).

(** The identifiers [uuid.uuid4()] returns for the next [n] calls. *)
Definition drawn_ids (self : QdrantVectorStore) (n : nat) : list string :=
  map (fun k => uuid4 self (uuid_calls self + k)%nat) (seq 0 n).

(** A service whose search finds three passages and whose generation
    answers. *)
Definition three_found : RAGService :=
  {| azure_ai :=
       {| generate_embedding := fun _ => Ok [1%Q];
          generate_response := fun _ => Ok (txt "See the sources.") |};
     search_similar :=
       fun _ _ _ _ =>
         Ok [ (doc "Our refund policy", 9 # 10);
              (doc "Shipping rates", 8 # 10);
              (doc "The refund form", 3 # 4) ] |}.

(** What [_discover_files] requires of a file it returns. *)
Definition passes_filters (self : Files.FileIndexer)
    (indexed_files : gmap string Files.FileRecord)
    (config : Files.DiscoveryConfig) (file_path : string) : Prop :=
  existsb (fun excluded => Files.contains excluded file_path)
    (default [] (Files.cfg_excluded_paths config)) = false
  /\ (exists file_stat,
        Files.path_stat self file_path = Ok file_stat
        /\ Files.st_size file_stat
           <= default (100 * 1024 * 1024) (Files.cfg_max_file_size config))
  /\ Files._should_reindex_file self indexed_files file_path = Ok true
  /\ exists base_path ext,
       In base_path (default ["/mnt"%string] (Files.cfg_paths config))
       /\ Files.path_exists self base_path = true
       /\ In ext (default [".pdf"; ".docx"; ".txt"]%string
                    (Files.cfg_extensions config))
       /\ In file_path (Files.rglob self base_path ("*" +:+ ext)).

(** A text without a blank line: it has no two consecutive line feeds. *)
Definition no_blank_line (s : pystr) : Prop :=
  forall pre post, s <> pre ++ nl :: nl :: post.

(** A file system with three PDF files under [/mnt], one of them too large,
    and nothing indexed yet. *)
Definition demo_files : Files.FileIndexer :=
  {| Files.path_exists := fun p => String.eqb p "/mnt";
     Files.rglob :=
       fun base pattern =>
         if String.eqb pattern "*.pdf"
         then ["/mnt/a.pdf"; "/mnt/tmp/b.pdf"; "/mnt/big.pdf"]%string
         else [];
     Files.path_stat :=
       fun p =>
         Ok {| Files.st_size :=
                 if String.eqb p "/mnt/big.pdf" then 200 * 1024 * 1024
                 else 10;
               Files.st_mtime := 5 |};
     Files._calculate_file_hash := fun p => Ok ("sha256:" +:+ p);
     Files.md5_hexdigest := fun p => p;
     Files.rag_index_document :=
       fun _ _ _ => Raise (Exn "EmbeddingServiceError" "embedding failed");
     Files.clock := 0 |}.

(** The configuration [{"excluded_paths": ["/tmp/"]}]. *)
Definition exclude_tmp : Files.DiscoveryConfig :=
  {| Files.cfg_paths := None; Files.cfg_extensions := None;
     Files.cfg_max_file_size := None;
     Files.cfg_excluded_paths := Some ["/tmp/"%string] |}.

(** * Properties *)

(** ** Chunk ordinals *)

Lemma ordinals_snoc n : ordinals (S n) = ordinals n ++ [Some (VInt (Z.of_nat n))].
Proof.
  unfold ordinals. rewrite seq_S, map_app. reflexivity.
Qed.

Lemma chunk_indices_snoc cs c :
  chunk_indices (cs ++ [c]) = chunk_indices cs ++ [metadata c !! "chunk_index"].
Proof. unfold chunk_indices. now rewrite map_app. Qed.

Lemma create_chunk_index self s md i :
  metadata (Sem._create_chunk self s md i) !! "chunk_index" = Some (VInt i).
Proof.
  unfold Sem._create_chunk; simpl.
  rewrite lookup_insert_ne by done. apply lookup_insert_eq.
Qed.

(** Appending a chunk numbered [len chunks] keeps the ordinals contiguous. *)
Lemma ordinals_extend cs c :
  chunk_indices cs = ordinals (length cs) ->
  metadata c !! "chunk_index" = Some (VInt (len cs)) ->
  chunk_indices (cs ++ [c]) = ordinals (length (cs ++ [c])).
Proof.
  intros Hcs Hc.
  rewrite chunk_indices_snoc, length_app, Hcs, Hc. simpl.
  rewrite Nat.add_1_r, ordinals_snoc. reflexivity.
Qed.

Lemma accumulate_numbered self md sep st piece :
  well_numbered st -> well_numbered (Sem.accumulate self md sep st piece).
Proof.
  unfold well_numbered, Sem.accumulate. intros H.
  destruct (_ && _); simpl; [|exact H].
  apply ordinals_extend; [exact H|apply create_chunk_index].
Qed.

Lemma fold_accumulate_numbered self md sep pieces st :
  well_numbered st ->
  well_numbered (fold_left (Sem.accumulate self md sep) pieces st).
Proof.
  revert st. induction pieces as [|p ps IH]; intros st H; simpl; [exact H|].
  apply IH, accumulate_numbered, H.
Qed.

Lemma paragraph_step_numbered self md st p :
  well_numbered st -> well_numbered (Sem.paragraph_step self md st p).
Proof.
  intros H. unfold Sem.paragraph_step.
  destruct (_ >? _).
  - now apply fold_accumulate_numbered.
  - now apply accumulate_numbered.
Qed.

Lemma run_paragraphs_numbered self text md :
  well_numbered (Sem.run_paragraphs self text md).
Proof.
  unfold Sem.run_paragraphs.
  generalize (split_paragraphs text) as ps.
  assert (H0 : well_numbered
            {| Sem.chunks := []; Sem.current_chunk := [];
               Sem.current_tokens := 0 |}) by reflexivity.
  revert H0.
  generalize {| Sem.chunks := []; Sem.current_chunk := [];
                Sem.current_tokens := 0 |} as st.
  intros st H ps. revert st H.
  induction ps as [|p ps IH]; intros st H; simpl; [exact H|].
  apply IH, paragraph_step_numbered, H.
Qed.

Lemma semantic_ordinals self text md :
  chunk_indices (Sem.chunk_text self text md)
  = ordinals (length (Sem.chunk_text self text md)).
Proof.
  unfold Sem.chunk_text.
  pose proof (run_paragraphs_numbered self text md) as H.
  destruct (truthy _); [|exact H].
  apply ordinals_extend; [exact H|apply create_chunk_index].
Qed.

Lemma fixed_fold_ordinals self tokens md idxs cs :
  chunk_indices cs = ordinals (length cs) ->
  chunk_indices (fold_left (Fix.append_chunk self tokens md) idxs cs)
  = ordinals (length (fold_left (Fix.append_chunk self tokens md) idxs cs)).
Proof.
  revert cs. induction idxs as [|i idxs IH]; intros cs H; simpl; [exact H|].
  apply IH. unfold Fix.append_chunk.
  apply ordinals_extend; [exact H|]. simpl.
  rewrite !lookup_insert_ne by done. apply lookup_insert_eq.
Qed.

Lemma range0_raises n step e :
  range0 n step = Raise e -> step = 0.
Proof.
  unfold range0. destruct (Z.eqb_spec step 0); [auto|].
  destruct (step <? 0); discriminate.
Qed.

(** C7: the chunks of the semantic strategy carry the ordinals 0..n-1 in
    order, and so do the chunks of the fixed-size strategy whenever it returns
    a list; it returns one unless the window step [chunk_size - overlap] is
    zero, the only case in which [range] raises. *)
Theorem chunk_ordinals_contiguous
    (sem : Sem.t) (fixed : Fix.t) (text : pystr) (md : gmap string pyval) :
  chunk_indices (Sem.chunk_text sem text md)
    = ordinals (length (Sem.chunk_text sem text md))
  /\ match Fix.chunk_text fixed text md with
     | Ok cs => chunk_indices cs = ordinals (length cs)
     | Raise _ => Fix.chunk_size fixed = Fix.overlap fixed
     end.
Proof.
  split; [apply semantic_ordinals|].
  unfold Fix.chunk_text, Fix.starts.
  destruct (range0 _ _) as [idxs|e] eqn:Hr; cbn.
  - now apply fixed_fold_ordinals.
  - apply range0_raises in Hr. lia.
Qed.

(** ** Characters kept by the semantic strategy *)

Lemma nonspace_app s1 s2 : nonspace (s1 ++ s2) = nonspace s1 ++ nonspace s2.
Proof. apply List.filter_app. Qed.

Lemma nonspace_cons c s :
  nonspace (c :: s) = if isspace c then nonspace s else c :: nonspace s.
Proof. unfold nonspace. simpl. now destruct (isspace c). Qed.

Lemma nonspace_rev s : nonspace (rev s) = rev (nonspace s).
Proof. apply List.filter_rev. Qed.

Lemma nonspace_lstrip s : nonspace (lstrip s) = nonspace s.
Proof.
  induction s as [|c s IH]; [reflexivity|]. simpl.
  destruct (isspace c) eqn:Hc; simpl; [exact IH|]. now rewrite Hc.
Qed.

Lemma nonspace_strip s : nonspace (strip s) = nonspace s.
Proof.
  unfold strip, rstrip.
  rewrite nonspace_rev, nonspace_lstrip, nonspace_rev, rev_involutive.
  apply nonspace_lstrip.
Qed.

Lemma concat_cons_head c ps :
  ps <> [] -> concat (cons_head c ps) = c :: concat ps.
Proof. destruct ps; [congruence|reflexivity]. Qed.

Lemma cons_head_nonempty c ps : cons_head c ps <> [].
Proof. destruct ps; discriminate. Qed.

Lemma split_paragraphs_nonempty s : split_paragraphs s <> [].
Proof.
  destruct s as [|c [|d s]]; simpl; try discriminate.
  destruct (_ && _); [discriminate|apply cons_head_nonempty].
Qed.

Lemma is_newline_space c : is_newline c = true -> isspace c = true.
Proof.
  unfold is_newline, isspace. intros H%Nat.eqb_eq. now rewrite H.
Qed.

Lemma nonspace_split_paragraphs s :
  nonspace (concat (split_paragraphs s)) = nonspace s.
Proof.
  enough (H : forall s,
             nonspace (concat (split_paragraphs s)) = nonspace s
             /\ forall c, nonspace (concat (split_paragraphs (c :: s)))
                          = nonspace (c :: s)) by apply H.
  clear s. induction s as [|d s [IH1 IH2]]; (split; [|intros c]).
  - reflexivity.
  - reflexivity.
  - apply IH2.
  - change (split_paragraphs (c :: d :: s))
      with (if is_newline c && is_newline d
            then [] :: split_paragraphs s
            else cons_head c (split_paragraphs (d :: s))).
    destruct (is_newline c && is_newline d) eqn:Hnl.
    + apply andb_prop in Hnl as [Hc%is_newline_space Hd%is_newline_space].
      rewrite !nonspace_cons, Hc, Hd. exact IH1.
    + rewrite concat_cons_head by apply split_paragraphs_nonempty.
      rewrite !(nonspace_cons c), IH2. reflexivity.
Qed.

Lemma re_split_sentences_nonempty a b s : re_split_sentences a b s <> [].
Proof.
  revert a b. induction s as [|c s IH]; intros a b; simpl; [discriminate|].
  destruct (isspace c), b, a;
    try discriminate; try apply cons_head_nonempty; apply IH.
Qed.

Lemma nonspace_re_split_sentences a b s :
  nonspace (concat (re_split_sentences a b s)) = nonspace s.
Proof.
  revert a b. induction s as [|c s IH]; intros a b; [reflexivity|].
  simpl re_split_sentences. rewrite nonspace_cons.
  destruct (isspace c) eqn:Hc.
  - destruct b; [apply IH|]. destruct a; [apply IH|].
    rewrite concat_cons_head by apply re_split_sentences_nonempty.
    rewrite nonspace_cons, Hc. apply IH.
  - rewrite concat_cons_head by apply re_split_sentences_nonempty.
    rewrite nonspace_cons, Hc. now rewrite IH.
Qed.

Lemma truthy_false s : truthy s = false -> s = [].
Proof. destruct s; [reflexivity|discriminate]. Qed.

Lemma nonspace_concat_strip l :
  nonspace (concat (List.filter truthy (map strip l))) = nonspace (concat l).
Proof.
  induction l as [|s l IH]; [reflexivity|].
  cbn [map List.filter concat].
  destruct (truthy (strip s)) eqn:Ht.
  - cbn [concat]. rewrite !nonspace_app, IH, nonspace_strip. reflexivity.
  - apply truthy_false in Ht.
    rewrite nonspace_app, IH, <- (nonspace_strip s), Ht. reflexivity.
Qed.

Lemma nonspace_split_by_sentences self p :
  nonspace (concat (Sem._split_by_sentences self p)) = nonspace p.
Proof.
  unfold Sem._split_by_sentences.
  rewrite nonspace_concat_strip. apply nonspace_re_split_sentences.
Qed.

Lemma nonspace_accumulate self md sep st piece :
  nonspace sep = [] ->
  nonspace (held (Sem.accumulate self md sep st piece))
  = nonspace (held st) ++ nonspace piece.
Proof.
  intros Hsep. unfold held, Sem.accumulate.
  destruct (_ >? _); simpl andb; cbv iota.
  - destruct (truthy (Sem.current_chunk st)) eqn:Hcur; simpl.
    + rewrite map_app, concat_app. simpl.
      rewrite !nonspace_app, app_nil_r, nonspace_strip. reflexivity.
    + apply truthy_false in Hcur. rewrite Hcur, app_nil_r.
      now rewrite nonspace_app.
  - simpl. destruct (truthy (Sem.current_chunk st)) eqn:Hcur.
    + rewrite !nonspace_app, Hsep. simpl. now rewrite app_assoc.
    + apply truthy_false in Hcur. rewrite Hcur, app_nil_r.
      now rewrite nonspace_app.
Qed.

Lemma nonspace_fold_accumulate self md sep pieces st :
  nonspace sep = [] ->
  nonspace (held (fold_left (Sem.accumulate self md sep) pieces st))
  = nonspace (held st) ++ nonspace (concat pieces).
Proof.
  intros Hsep. revert st.
  induction pieces as [|p ps IH]; intros st; simpl.
  - now rewrite app_nil_r.
  - rewrite IH, nonspace_accumulate by exact Hsep.
    now rewrite nonspace_app, app_assoc.
Qed.

Lemma nonspace_paragraph_step self md st p :
  nonspace (held (Sem.paragraph_step self md st p))
  = nonspace (held st) ++ nonspace p.
Proof.
  unfold Sem.paragraph_step. destruct (_ >? _).
  - rewrite nonspace_fold_accumulate by reflexivity.
    now rewrite nonspace_split_by_sentences.
  - now rewrite nonspace_accumulate by reflexivity.
Qed.

Lemma nonspace_fold_paragraphs self md ps st :
  nonspace (held (fold_left (Sem.paragraph_step self md) ps st))
  = nonspace (held st) ++ nonspace (concat ps).
Proof.
  revert st. induction ps as [|p ps IH]; intros st; simpl.
  - now rewrite app_nil_r.
  - rewrite IH, nonspace_paragraph_step.
    now rewrite nonspace_app, app_assoc.
Qed.

(** The chunk texts of the semantic strategy, put end to end, are the source
    text up to white space: no other character is lost, repeated or moved. *)
Lemma semantic_nonspace self text md :
  nonspace (concat (map Chunking.text (Sem.chunk_text self text md)))
  = nonspace text.
Proof.
  unfold Sem.chunk_text.
  pose proof (nonspace_fold_paragraphs self md (split_paragraphs text)
                {| Sem.chunks := []; Sem.current_chunk := [];
                   Sem.current_tokens := 0 |}) as H.
  fold (Sem.run_paragraphs self text md) in H.
  rewrite nonspace_split_paragraphs in H. simpl in H.
  rewrite <- H. unfold held.
  destruct (truthy _) eqn:Hcur.
  - rewrite map_app, concat_app. simpl.
    now rewrite !nonspace_app, app_nil_r, nonspace_strip.
  - apply truthy_false in Hcur. now rewrite Hcur, app_nil_r.
Qed.

(** C10: the chunks of the semantic strategy do not depend on the [overlap]
    attribute, and they carry no overlap: put end to end, the chunk texts hold
    the non-space characters of the source once each, in order. *)
Theorem semantic_chunks_ignore_overlap
    (max_size o1 o2 : Z) (tok : Tokenizer) (text : pystr)
    (md : gmap string pyval) :
  Sem.chunk_text
    {| Sem.max_chunk_size := max_size; Sem.overlap := o1;
       Sem.tokenizer := tok |} text md
  = Sem.chunk_text
      {| Sem.max_chunk_size := max_size; Sem.overlap := o2;
         Sem.tokenizer := tok |} text md
  /\ nonspace
       (concat (map Chunking.text
          (Sem.chunk_text
             {| Sem.max_chunk_size := max_size; Sem.overlap := o1;
                Sem.tokenizer := tok |} text md)))
     = nonspace text.
Proof.
  split; [reflexivity|apply semantic_nonspace].
Qed.

(** ** Batches and windows *)

Section Batches.
Context {A : Type}.
Implicit Types l : list A.

Lemma slice_take_drop l (i k : nat) :
  slice l (Z.of_nat i) (Z.of_nat i + Z.of_nat k) = take k (drop i l).
Proof.
  unfold slice, slice_bound.
  destruct (Z.ltb_spec (Z.of_nat i) 0); [lia|].
  destruct (Z.ltb_spec (Z.of_nat i + Z.of_nat k) 0); [lia|].
  destruct (Nat.le_gt_cases (length l) i) as [Hge|Hlt].
  - rewrite (drop_ge l i) by exact Hge. rewrite take_nil.
    replace (Z.to_nat (Z.min (Z.max (Z.of_nat i) 0) (Z.of_nat (length l))))
      with (length l) by lia.
    rewrite drop_all. apply take_nil.
  - replace (Z.to_nat (Z.min (Z.max (Z.of_nat i) 0) (Z.of_nat (length l))))
      with i by lia.
    destruct (Nat.le_gt_cases (length l) (i + k)) as [Hge|Hlt2].
    + replace (Z.to_nat (Z.min (Z.max (Z.of_nat i + Z.of_nat k) 0)
                           (Z.of_nat (length l))))
        with (length l) by lia.
      rewrite !take_ge; [reflexivity| |]; rewrite length_drop; lia.
    + replace (Z.to_nat (Z.min (Z.max (Z.of_nat i + Z.of_nat k) 0)
                           (Z.of_nat (length l))))
        with (i + k)%nat by lia.
      f_equal. lia.
Qed.

(** The first [m] consecutive batches of [s] elements are the first [m * s]
    elements. *)
Lemma concat_batches l (s m : nat) :
  concat (map (fun k => take s (drop (k * s) l)) (seq 0 m))
  = take (m * s) l.
Proof.
  induction m as [|m IH]; [now rewrite take_0|].
  rewrite seq_S, map_app, concat_app, IH. simpl.
  rewrite app_nil_r, take_take_drop. f_equal. lia.
Qed.

Lemma range_len_covers (n : nat) (step : Z) :
  0 < step -> (n <= range_len n step * Z.to_nat step)%nat.
Proof.
  intros Hs. unfold range_len.
  pose proof (Z.div_mod (Z.of_nat n + step - 1) step ltac:(lia)) as Hdm.
  pose proof (Z.mod_pos_bound (Z.of_nat n + step - 1) step Hs) as Hm.
  assert (0 <= (Z.of_nat n + step - 1) / step)
    by (apply Z.div_pos; lia).
  nia.
Qed.

(** The slices [l[i:i + step]] taken at the indices of
    [range(0, len(l), step)] are a partition of [l], in order. *)
Lemma range0_batches l (step : Z) :
  0 < step ->
  exists idxs,
    range0 (length l) step = Ok idxs
    /\ concat (map (fun i => slice l (Z.of_nat i) (Z.of_nat i + step)) idxs)
       = l.
Proof.
  intros Hs. unfold range0.
  destruct (Z.eqb_spec step 0); [lia|].
  destruct (Z.ltb_spec step 0); [lia|].
  eexists; split; [reflexivity|].
  rewrite map_map.
  erewrite map_ext; [rewrite concat_batches|].
  - apply take_ge, range_len_covers, Hs.
  - intros k. cbv beta.
    rewrite <- slice_take_drop. f_equal. lia.
Qed.
End Batches.

(** ** Batched embedding *)

Lemma gather_total {A B} (f : A -> B) (l : list A) :
  gather (map (fun a => Ok (f a)) l) = Ok (map f l).
Proof.
  induction l as [|a l IH]; [reflexivity|].
  simpl. rewrite IH. reflexivity.
Qed.

Lemma embeddings_fold embed self texts bs idxs acc :
  fold_left
    (fun (acc : result (list (list Q))) (i : nat) =>
       embeddings ← acc;
       let batch := slice texts (Z.of_nat i) (Z.of_nat i + bs) in
       batch_embeddings ←
         gather (map (generate_embedding
                        (azure_ai (total_embedder embed self))) batch);
       Ok (embeddings ++ batch_embeddings))
    idxs (Ok acc)
  = Ok (acc ++ map embed
          (concat (map (fun i => slice texts (Z.of_nat i) (Z.of_nat i + bs))
                       idxs))).
Proof.
  revert acc. induction idxs as [|i idxs IH]; intros acc; simpl.
  - now rewrite app_nil_r.
  - cbn. rewrite gather_total. cbn. rewrite IH, map_app, app_assoc.
    reflexivity.
Qed.

(** C9: with an embedding capability that is a function of the text, the
    batched embedding of a list of texts, for a positive batch size, is the
    list of their vectors: one per input, in the order of the inputs. *)
Theorem batched_embedding_preserves_inputs
    (embed : pystr -> list Q) (self : RAGService) (texts : list pystr)
    (batch_size : Z) :
  0 < batch_size ->
  _generate_embeddings_batch (total_embedder embed self) texts batch_size
  = Ok (map embed texts).
Proof.
  intros Hb. unfold _generate_embeddings_batch.
  destruct (range0_batches texts batch_size Hb) as (idxs & Hr & Hcat).
  rewrite Hr. cbn -[total_embedder].
  rewrite embeddings_fold, Hcat. reflexivity.
Qed.

(** ** Coverage by the fixed-size strategy *)

Lemma windows_without_overlap (l : list Z) (s o m : nat) :
  (length l <= m * s)%nat ->
  without_overlap o (map (fun k => take (s + o) (drop (k * s) l)) (seq 0 m))
  = l.
Proof.
  intros Hlen. destruct m as [|m].
  - simpl in *. destruct l; [reflexivity|simpl in Hlen; lia].
  - cbn [seq map without_overlap]. rewrite drop_0.
    rewrite <- seq_shift, !map_map.
    erewrite map_ext.
    + rewrite (concat_batches (drop (s + o) l) s m), take_take_drop.
      apply take_ge. lia.
    + intros k. cbv beta.
      rewrite drop_drop.
      replace (s + o)%nat with (o + s)%nat at 1 by lia.
      rewrite <- take_drop_commute, drop_drop. do 2 f_equal. lia.
Qed.

Lemma fixed_texts self tokens md idxs cs :
  map Chunking.text (fold_left (Fix.append_chunk self tokens md) idxs cs)
  = map Chunking.text cs
    ++ map (fun i => decode (Fix.tokenizer self) (Fix.window self tokens i))
           idxs.
Proof.
  revert cs. induction idxs as [|i idxs IH]; intros cs; simpl.
  - now rewrite app_nil_r.
  - rewrite IH. unfold Fix.append_chunk at 1.
    rewrite map_app, <- app_assoc. reflexivity.
Qed.

Section DecodeLaws.
Variable tok : Tokenizer.
Hypothesis decode_app :
  forall a b, decode tok (a ++ b) = decode tok a ++ decode tok b.

Lemma decode_nil : decode tok [] = [].
Proof.
  pose proof (decode_app [] []) as H. simpl in H.
  apply (f_equal (@length ascii)) in H. rewrite length_app in H.
  destruct (decode tok []); [reflexivity|simpl in H; lia].
Qed.

Lemma decode_concat ws :
  decode tok (concat ws) = concat (map (decode tok) ws).
Proof.
  induction ws as [|w ws IH]; simpl; [apply decode_nil|].
  now rewrite decode_app, IH.
Qed.
End DecodeLaws.

(** C8, as the code has it. The chunk texts of the semantic strategy cover
    the source up to white space. For the fixed-size strategy with an overlap
    from 0 to below the window size, and a tokenizer whose [decode] goes
    through concatenation and gives the text back from its tokens: every
    chunk text is the text of its first [overlap] tokens followed by the text
    of the others; the former ends the chunk text before it; and the chunk
    texts put end to end, every one but the first without that shared part,
    are exactly the source text. *)
Theorem chunks_cover_source
    (sem : Sem.t) (fixed : Fix.t) (text : pystr) (md : gmap string pyval) :
  0 <= Fix.overlap fixed < Fix.chunk_size fixed ->
  (forall a b,
     decode (Fix.tokenizer fixed) (a ++ b)
     = decode (Fix.tokenizer fixed) a ++ decode (Fix.tokenizer fixed) b) ->
  decode (Fix.tokenizer fixed) (encode (Fix.tokenizer fixed) text) = text ->
  nonspace (concat (map Chunking.text (Sem.chunk_text sem text md)))
    = nonspace text
  /\ exists idxs cs,
       let tokens := encode (Fix.tokenizer fixed) text in
       Fix.starts fixed tokens = Ok idxs
       /\ Fix.chunk_text fixed text md = Ok cs
       /\ map Chunking.text cs
          = map (fun i => shared_text fixed tokens i
                          ++ fresh_text fixed tokens i) idxs
       /\ (forall k i prev,
             idxs !! S k = Some i ->
             map Chunking.text cs !! k = Some prev ->
             exists pre, prev = pre ++ shared_text fixed tokens i)
       /\ texts_without_overlap fixed tokens idxs = text.
Proof.
  intros Ho Happ Hinv. split; [apply semantic_nonspace|].
  set (tokens := encode (Fix.tokenizer fixed) text).
  set (step := Fix.chunk_size fixed - Fix.overlap fixed).
  set (s := Z.to_nat step).
  set (o := Z.to_nat (Fix.overlap fixed)).
  assert (Hstep : 0 < step) by (unfold step; lia).
  set (m := range_len (length tokens) step).
  assert (Hr : Fix.starts fixed tokens
               = Ok (map (fun k => (k * s)%nat) (seq 0 m))).
  { unfold Fix.starts, range0. fold step.
    destruct (Z.eqb_spec step 0); [lia|].
    destruct (Z.ltb_spec step 0); [lia|]. reflexivity. }
  assert (Hw : forall i, Fix.window fixed tokens i
                         = take (s + o) (drop i tokens)).
  { intros i. unfold Fix.window. rewrite <- slice_take_drop. f_equal.
    unfold s, o, step. lia. }
  assert (Hparts : forall i,
             shared_text fixed tokens i ++ fresh_text fixed tokens i
             = decode (Fix.tokenizer fixed) (Fix.window fixed tokens i)).
  { intros i. unfold shared_text, fresh_text.
    now rewrite <- Happ, take_drop. }
  assert (Htexts : forall cs,
             Fix.chunk_text fixed text md = Ok cs ->
             map Chunking.text cs
             = map (fun i => shared_text fixed tokens i
                             ++ fresh_text fixed tokens i)
                 (map (fun k => (k * s)%nat) (seq 0 m))).
  { intros cs Hcs. unfold Fix.chunk_text in Hcs. fold tokens in Hcs.
    rewrite Hr in Hcs. cbn in Hcs. injection Hcs as <-.
    rewrite fixed_texts. simpl. apply map_ext. intros i.
    now rewrite Hparts. }
  exists (map (fun k => (k * s)%nat) (seq 0 m)). eexists. cbv zeta.
  fold tokens.
  split; [exact Hr|].
  split; [unfold Fix.chunk_text; fold tokens; rewrite Hr; reflexivity|].
  split; [apply Htexts; unfold Fix.chunk_text; fold tokens; rewrite Hr;
          reflexivity|].
  split.
  - intros k i prev Hi Hprev.
    rewrite (Htexts _ ltac:(unfold Fix.chunk_text; fold tokens; rewrite Hr;
                            reflexivity)) in Hprev.
    change (map ?f ?l) with (f <$> l) in Hi, Hprev.
    rewrite !list_lookup_fmap in Hprev. rewrite list_lookup_fmap in Hi.
    destruct (seq 0 m !! S k) as [k1|] eqn:H1; [|discriminate].
    destruct (seq 0 m !! k) as [k0|] eqn:H0; [|discriminate].
    apply lookup_seq in H1 as [-> _]. apply lookup_seq in H0 as [-> _].
    cbn in Hi, Hprev. injection Hi as <-. injection Hprev as <-.
    exists (decode (Fix.tokenizer fixed) (take s (drop (k * s) tokens))).
    rewrite Hparts. unfold shared_text. fold o. rewrite <- Happ, !Hw.
    f_equal. rewrite take_take.
    replace (o `min` (s + o))%nat with o by lia.
    rewrite <- take_take_drop, drop_drop. do 3 f_equal. cbn. lia.
  - rewrite <- Hinv. fold tokens.
    rewrite <- (windows_without_overlap tokens s o m) at 2
      by (apply range_len_covers, Hstep).
    unfold texts_without_overlap, without_overlap.
    destruct m as [|m']; [cbn; now rewrite (decode_nil _ Happ)|].
    cbn [seq map]. rewrite Hparts, Happ, (decode_concat _ Happ), Hw.
    rewrite Nat.mul_0_l. f_equal. f_equal.
    rewrite !map_map. apply map_ext. intros k.
    unfold fresh_text. now rewrite Hw.
Qed.

(** ** Stripping *)

Lemma lstrip_fixed c s : isspace c = false -> lstrip (c :: s) = c :: s.
Proof. intros H. simpl. now rewrite H. Qed.

Lemma lstrip_head s :
  lstrip s = [] \/ exists c s', lstrip s = c :: s' /\ isspace c = false.
Proof.
  induction s as [|c s IH]; [now left|]. simpl.
  destruct (isspace c) eqn:Hc; [exact IH|]. right. now exists c, s.
Qed.

Lemma lstrip_idem s : lstrip (lstrip s) = lstrip s.
Proof.
  destruct (lstrip_head s) as [H|(c & s' & H & Hc)]; rewrite H;
    [reflexivity|now apply lstrip_fixed].
Qed.

(** [lstrip] removes a prefix. *)
Lemma lstrip_suffix s : exists w, s = w ++ lstrip s.
Proof.
  induction s as [|c s [w IH]]; [now exists []|]. simpl.
  destruct (isspace c).
  - exists (c :: w). simpl. now rewrite <- IH.
  - now exists [].
Qed.

Lemma lstrip_length s : (length (lstrip s) <= length s)%nat.
Proof.
  induction s as [|c s IH]; simpl; [lia|].
  destruct (isspace c); simpl; lia.
Qed.

Lemma strip_trimmed s : trimmed (strip s).
Proof.
  unfold trimmed, strip, rstrip. rewrite rev_involutive, lstrip_idem.
  split; [|reflexivity].
  destruct (lstrip_suffix (rev (lstrip s))) as [w Hw].
  set (v := lstrip (rev (lstrip s))) in *.
  destruct v as [|a v'] eqn:Hv; [reflexivity|].
  assert (Hu : lstrip s = rev (a :: v') ++ rev w).
  { rewrite <- rev_app_distr, <- Hw. now rewrite rev_involutive. }
  destruct (lstrip_head s) as [H0|(c & s' & H1 & Hc)].
  - rewrite H0 in Hu. destruct (rev (a :: v')) eqn:Hr; [|discriminate].
    apply (f_equal (@rev ascii)) in Hr. rewrite rev_involutive in Hr.
    discriminate.
  - rewrite H1 in Hu.
    destruct (rev (a :: v')) as [|b r] eqn:Hr.
    + apply (f_equal (@rev ascii)) in Hr. rewrite rev_involutive in Hr.
      discriminate.
    + simpl in Hu. injection Hu as -> _. now apply lstrip_fixed.
Qed.

Lemma strip_of_trimmed s : trimmed s -> strip s = s.
Proof.
  intros [H1 H2]. unfold strip, rstrip.
  now rewrite H1, H2, rev_involutive.
Qed.

Lemma strip_idem s : strip (strip s) = strip s.
Proof. apply strip_of_trimmed, strip_trimmed. Qed.

Lemma split_by_sentences_stripped self para s :
  In s (Sem._split_by_sentences self para) -> strip s = s.
Proof.
  unfold Sem._split_by_sentences.
  intros [Hin _]%List.filter_In.
  apply List.in_map_iff in Hin as (x & <- & _). apply strip_idem.
Qed.

(** ** The token budget of the semantic strategy *)

Section Budget.
Variable self : Sem.t.
Variable text : pystr.
Variable md : gmap string pyval.

Lemma piece_tokens_nonneg p : 0 <= piece_tokens self p.
Proof. unfold piece_tokens, len. lia. Qed.

Lemma single_within_budget p :
  (admissible self text) p -> within_budget self text p [].
Proof.
  intros [_ Hp]. unfold within_budget, budget. simpl.
  destruct (Z.le_gt_cases (piece_tokens self p) (Sem.max_chunk_size self))
    as [Hle|Hgt]; [left; lia|].
  destruct Hp as [Hle|Hs]; [lia|]. right. repeat split; [exact Hs|lia].
Qed.

Lemma good_current_single p tokens :
  (admissible self text) p -> piece_tokens self p <= tokens ->
  good_current self text p tokens.
Proof.
  intros Hp Ht. right. exists p, [].
  split; [unfold glue; simpl; now rewrite app_nil_r|].
  split; [constructor; [apply Hp|constructor]|].
  split; [unfold budget; simpl; lia|].
  now apply single_within_budget.
Qed.

Lemma budget_snoc p0 rest sep p :
  budget self p0 (rest ++ [(sep, p)])
  = budget self p0 rest + piece_tokens self p.
Proof.
  unfold budget. rewrite map_app, fold_right_app. simpl.
  induction (map (fun sp => piece_tokens self (snd sp)) rest) as [|x l IH];
    simpl in *; lia.
Qed.

Lemma glue_snoc p0 rest sep p :
  glue p0 (rest ++ [(sep, p)]) = glue p0 rest ++ sep ++ p.
Proof.
  unfold glue. rewrite map_app, concat_app. simpl.
  now rewrite app_nil_r, app_assoc.
Qed.

Lemma accumulate_budget sep st p :
  budget_inv self text md st -> (admissible self text) p ->
  budget_inv self text md (Sem.accumulate self md sep st p).
Proof.
  intros (Hcs & Hcur & Hnn) Hp.
  pose proof (piece_tokens_nonneg p) as Hpn.
  unfold Sem.accumulate. fold (piece_tokens self p).
  destruct (Sem.current_tokens st + piece_tokens self p
            >? Sem.max_chunk_size self) eqn:Hover;
    destruct (truthy (Sem.current_chunk st)) eqn:Htr; simpl andb; cbv iota.
  - (* the chunk under construction is cut *)
    split; [|split]; simpl.
    + apply Forall_app. split; [exact Hcs|]. constructor; [|constructor].
      destruct Hcur as [H0|(p0 & rest & Hg & Hps & _ & Hw)].
      * rewrite H0 in Htr. discriminate.
      * exists p0, rest, (len (Sem.chunks st)). now rewrite Hg.
    + apply good_current_single; [exact Hp|lia].
    + exact Hpn.
  - apply truthy_false in Htr.
    split; [exact Hcs|split]; simpl; [|lia].
    apply good_current_single; [exact Hp|lia].
  - (* the piece joins the chunk under construction *)
    split; [exact Hcs|split]; simpl; [|lia].
    destruct Hcur as [H0|(p0 & rest & Hg & Hps & Hb & _)].
    + rewrite H0 in Htr. discriminate.
    + right. exists p0, (rest ++ [(sep, p)]).
      rewrite glue_snoc, budget_snoc, Hg.
      split; [reflexivity|]. split; [|split].
      * rewrite map_app. simpl.
        change (p0 :: map snd rest ++ [p])
          with ((p0 :: map snd rest) ++ [p]).
        apply Forall_app. split; [exact Hps|].
        constructor; [apply Hp|constructor].
      * lia.
      * left. rewrite budget_snoc. rewrite Z.gtb_ltb in Hover.
        apply Z.ltb_ge in Hover. lia.
  - apply truthy_false in Htr.
    split; [exact Hcs|split]; simpl; [|lia].
    apply good_current_single; [exact Hp|lia].
Qed.

Lemma fold_accumulate_budget sep pieces st :
  budget_inv self text md st -> Forall (admissible self text) pieces ->
  budget_inv self text md (fold_left (Sem.accumulate self md sep) pieces st).
Proof.
  revert st. induction pieces as [|p ps IH]; intros st Hst Hps; simpl;
    [exact Hst|].
  apply Forall_cons_1 in Hps as [Hp Hps].
  apply IH; [now apply accumulate_budget|exact Hps].
Qed.

Lemma paragraph_step_budget st para :
  In para (split_paragraphs text) ->
  budget_inv self text md st -> budget_inv self text md (Sem.paragraph_step self md st para).
Proof.
  intros Hin Hst. unfold Sem.paragraph_step.
  fold (piece_tokens self para).
  destruct (piece_tokens self para >? Sem.max_chunk_size self) eqn:Hbig.
  - apply fold_accumulate_budget; [exact Hst|].
    apply List.Forall_forall. intros s Hs.
    assert (is_sentence self text s).
    { exists para. repeat split; [exact Hin| |exact Hs].
      rewrite Z.gtb_ltb in Hbig. now apply Z.ltb_lt in Hbig. }
    split; [now right|now right].
  - apply accumulate_budget; [exact Hst|].
    split; [now left|left].
    rewrite Z.gtb_ltb in Hbig. now apply Z.ltb_ge in Hbig.
Qed.

Lemma fold_paragraphs_budget paras st :
  (forall para, In para paras -> In para (split_paragraphs text)) ->
  budget_inv self text md st ->
  budget_inv self text md (fold_left (Sem.paragraph_step self md) paras st).
Proof.
  revert st. induction paras as [|para ps IH]; intros st Hin Hst; simpl;
    [exact Hst|].
  apply IH; [intros q Hq; apply Hin; now right|].
  apply paragraph_step_budget; [apply Hin; now left|exact Hst].
Qed.

Lemma run_paragraphs_budget : budget_inv self text md (Sem.run_paragraphs self text md).
Proof.
  unfold Sem.run_paragraphs. apply fold_paragraphs_budget; [auto|].
  split; [constructor|split]; simpl; [now left|lia].
Qed.

Lemma chunk_text_good c :
  In c (Sem.chunk_text self text md) -> (good_chunk self text md) c.
Proof.
  unfold Sem.chunk_text.
  destruct run_paragraphs_budget as (Hcs & Hcur & _).
  destruct (truthy _) eqn:Htr; intros Hin.
  - apply in_app_or in Hin as [Hin|[<-|[]]].
    + eapply List.Forall_forall in Hcs; eassumption.
    + destruct Hcur as [H0|(p0 & rest & Hg & Hps & _ & Hw)].
      * rewrite H0 in Htr. discriminate.
      * exists p0, rest, (len (Sem.chunks (Sem.run_paragraphs self text md))).
        now rewrite Hg.
  - eapply List.Forall_forall in Hcs; eassumption.
Qed.
End Budget.

(** ** The groups of pieces behind the chunks of the semantic strategy *)

Lemma fold_left_flat_map {A B C} (f : A -> B -> A) (g : C -> list B)
    (l : list C) (a : A) :
  fold_left f (flat_map g l) a
  = fold_left (fun a x => fold_left f (g x) a) l a.
Proof.
  revert a. induction l as [|x l IH]; intros a; [reflexivity|].
  cbn [flat_map]. now rewrite fold_left_app, IH.
Qed.

Lemma fold_left_map_arg {A B C} (f : A -> B -> A) (h : C -> B) (l : list C)
    (a : A) :
  fold_left f (map h l) a = fold_left (fun a x => f a (h x)) l a.
Proof.
  revert a. induction l as [|x l IH]; intros a; [reflexivity|].
  simpl. apply IH.
Qed.

Lemma fold_left_pointwise {A B} (f g : A -> B -> A) (l : list B) (a : A) :
  (forall a x, f a x = g a x) -> fold_left f l a = fold_left g l a.
Proof.
  intros Hfg. revert a. induction l as [|x l IH]; intros a; [reflexivity|].
  simpl. now rewrite Hfg, IH.
Qed.

Lemma run_paragraphs_pieces self text md :
  Sem.run_paragraphs self text md
  = fold_left (fun st sp => Sem.accumulate self md (fst sp) st (snd sp))
      (pieces_of self text)
      {| Sem.chunks := []; Sem.current_chunk := []; Sem.current_tokens := 0 |}.
Proof.
  unfold Sem.run_paragraphs, pieces_of. rewrite fold_left_flat_map.
  apply fold_left_pointwise. intros st paragraph.
  unfold Sem.paragraph_step. fold (piece_tokens self paragraph).
  destruct (piece_tokens self paragraph >? Sem.max_chunk_size self);
    [|reflexivity].
  now rewrite fold_left_map_arg.
Qed.

Lemma pieces_of_admissible self text :
  Forall (fun sp => admissible self text (snd sp)) (pieces_of self text).
Proof.
  unfold pieces_of. apply List.Forall_flat_map, List.Forall_forall.
  intros paragraph Hin.
  destruct (piece_tokens self paragraph >? Sem.max_chunk_size self) eqn:Hbig;
    rewrite Z.gtb_ltb in Hbig.
  - apply Z.ltb_lt in Hbig. apply List.Forall_map, List.Forall_forall.
    intros s Hs. cbn [snd].
    assert (is_sentence self text s) by (now exists paragraph).
    split; now right.
  - apply Z.ltb_ge in Hbig. constructor; [|constructor]. cbn [snd].
    split; [now left|now left].
Qed.

Section Grouping.
Variable self : Sem.t.
Variable text : pystr.
Variable md : gmap string pyval.

Lemma joined_single sep p : joined [(sep, p)] = p.
Proof. unfold joined, glue. simpl. apply app_nil_r. Qed.

Lemma joined_snoc g sep p :
  g <> [] -> joined (g ++ [(sep, p)]) = joined g ++ sep ++ p.
Proof.
  destruct g as [|[s0 p0] rest]; [congruence|]. intros _.
  cbn [joined app]. apply glue_snoc.
Qed.

Lemma charged_snoc g sp :
  charged self (g ++ [sp]) = charged self g + piece_tokens self (snd sp).
Proof.
  unfold charged. induction g as [|x g IH]; simpl in *; lia.
Qed.

Lemma charged_nonneg g : 0 <= charged self g.
Proof.
  unfold charged. induction g as [|x g IH]; simpl; [lia|].
  pose proof (piece_tokens_nonneg self (snd x)). lia.
Qed.

Lemma nonempty_pieces_app l1 l2 :
  nonempty_pieces (l1 ++ l2) = nonempty_pieces l1 ++ nonempty_pieces l2.
Proof. apply List.filter_app. Qed.

Lemma chunks_of_snoc done g :
  chunks_of self md (done ++ [g])
  = chunks_of self md done
    ++ [Sem._create_chunk self (joined g) md (len (chunks_of self md done))].
Proof.
  unfold chunks_of, len. rewrite imap_app, length_imap. simpl.
  now rewrite Nat.add_0_r.
Qed.

(** The group that a piece opens when the buffer is empty or has just been
    cut: the piece alone, or no group yet if the piece is the empty text. *)
Lemma opened_group sep p :
  admissible self text p ->
  exists cur,
    p = joined cur
    /\ (p = [] -> cur = [])
    /\ nonempty_pieces cur = nonempty_pieces [(sep, p)]
    /\ (cur <> [] -> fits self text cur)
    /\ charged self cur <= piece_tokens self p.
Proof.
  intros [_ Hp]. pose proof (piece_tokens_nonneg self p) as Hpn.
  destruct p as [|c p'].
  - exists []. split; [reflexivity|]. split; [reflexivity|].
    split; [reflexivity|]. split; [congruence|cbn; lia].
  - exists [(sep, c :: p')].
    split; [now rewrite joined_single|].
    split; [discriminate|]. split; [reflexivity|]. split.
    + intros _. split; [discriminate|].
      unfold charged. cbn [map fold_right snd].
      destruct (Z.le_gt_cases (piece_tokens self (c :: p'))
                  (Sem.max_chunk_size self)) as [Hle|Hgt]; [left; lia|].
      destruct Hp as [Hle|Hs]; [lia|]. right.
      exists sep, (c :: p'). rewrite joined_single.
      repeat split; [lia|exact Hs|].
      destruct Hs as (para & _ & _ & Hs).
      eapply split_by_sentences_stripped, Hs.
    + unfold charged. cbn [map fold_right snd]. lia.
Qed.

Lemma accumulate_grouping seen sep st p :
  grouping_inv self text md seen st -> admissible self text p ->
  grouping_inv self text md (seen ++ [(sep, p)])
    (Sem.accumulate self md sep st p).
Proof.
  intros (done & cur & Hch & Hcur & Hemp & Hne & Hdone & Hfit & Hchg & Hnn) Hp.
  pose proof (piece_tokens_nonneg self p) as Hpn.
  destruct (opened_group sep p Hp) as (new & Hj & He & Hn & Hf & Hc).
  unfold Sem.accumulate. fold (piece_tokens self p).
  destruct (Sem.current_tokens st + piece_tokens self p
            >? Sem.max_chunk_size self) eqn:Hover;
    destruct (truthy (Sem.current_chunk st)) eqn:Htr; simpl andb; cbv iota.
  - (* the chunk under construction is cut *)
    assert (Hcn : cur <> []).
    { intros ->. rewrite Hcur in Htr. discriminate. }
    exists (done ++ [cur]), new. cbn [Sem.chunks Sem.current_chunk
                                      Sem.current_tokens].
    split; [now rewrite chunks_of_snoc, Hch, Hcur|].
    split; [exact Hj|]. split; [exact He|]. split.
    { rewrite concat_app. cbn [concat]. rewrite app_nil_r.
      now rewrite !nonempty_pieces_app, Hn, <- Hne, nonempty_pieces_app. }
    split; [apply Forall_app; split; [exact Hdone|]; constructor; auto|].
    split; [exact Hf|]. split; [exact Hc|exact Hpn].
  - (* nothing under construction: the piece opens a group *)
    apply truthy_false in Htr. specialize (Hemp Htr). subst cur.
    exists done, new. cbn [Sem.chunks Sem.current_chunk Sem.current_tokens].
    split; [exact Hch|]. split; [exact Hj|]. split; [exact He|]. split.
    { rewrite app_nil_r in Hne.
      now rewrite !nonempty_pieces_app, Hn, Hne. }
    split; [exact Hdone|]. split; [exact Hf|]. split; lia.
  - (* the piece joins the chunk under construction *)
    assert (Hcn : cur <> []).
    { intros ->. rewrite Hcur in Htr. discriminate. }
    rewrite Z.gtb_ltb in Hover. apply Z.ltb_ge in Hover.
    exists done, (cur ++ [(sep, p)]).
    cbn [Sem.chunks Sem.current_chunk Sem.current_tokens].
    split; [exact Hch|].
    split; [now rewrite joined_snoc, Hcur|].
    split.
    { intros H. apply app_eq_nil in H as [H _]. rewrite H in Htr.
      discriminate. }
    split.
    { now rewrite app_assoc, (nonempty_pieces_app (concat done ++ cur)), Hne,
        <- nonempty_pieces_app. }
    split; [exact Hdone|]. rewrite charged_snoc. cbn [snd].
    split; [|split; lia].
    intros _. split; [destruct cur; discriminate|].
    left. rewrite charged_snoc. cbn [snd]. lia.
  - apply truthy_false in Htr. specialize (Hemp Htr). subst cur.
    exists done, new. cbn [Sem.chunks Sem.current_chunk Sem.current_tokens].
    split; [exact Hch|]. split; [exact Hj|]. split; [exact He|]. split.
    { rewrite app_nil_r in Hne.
      now rewrite !nonempty_pieces_app, Hn, Hne. }
    split; [exact Hdone|]. split; [exact Hf|]. split; lia.
Qed.

Lemma fold_accumulate_grouping pieces seen st :
  grouping_inv self text md seen st ->
  Forall (fun sp => admissible self text (snd sp)) pieces ->
  grouping_inv self text md (seen ++ pieces)
    (fold_left (fun st sp => Sem.accumulate self md (fst sp) st (snd sp))
       pieces st).
Proof.
  revert seen st.
  induction pieces as [|[sep p] pieces IH]; intros seen st Hst Hps.
  - now rewrite app_nil_r.
  - apply Forall_cons_1 in Hps as [Hp Hps]. cbn [fold_left fst snd].
    replace (seen ++ (sep, p) :: pieces)
      with ((seen ++ [(sep, p)]) ++ pieces) by now rewrite <- app_assoc.
    apply IH; [now apply accumulate_grouping|exact Hps].
Qed.

Lemma run_paragraphs_grouping :
  grouping_inv self text md (pieces_of self text)
    (Sem.run_paragraphs self text md).
Proof.
  rewrite run_paragraphs_pieces.
  apply (fold_accumulate_grouping (pieces_of self text) []);
    [|apply pieces_of_admissible].
  exists [], [].
  split; [reflexivity|]. split; [reflexivity|]. split; [reflexivity|].
  split; [reflexivity|]. split; [constructor|]. split; [congruence|].
  cbn. lia.
Qed.

End Grouping.

(** C3, as the code has it. The chunks of the semantic strategy are the joins
    of groups of consecutive pieces of the text (paragraphs, or the sentences
    of a paragraph that is too long, with a blank line before a paragraph and
    a space before a sentence): the groups, put end to end, are the pieces of
    the text in order, but for empty pieces. The token counts of the pieces
    of a group, each measured on its own, add up to at most
    [max_chunk_size], unless the group is one sentence that exceeds
    [max_chunk_size] alone; that sentence is then the whole text of its chunk.
    The metadata of a chunk is the metadata given plus [chunk_index] and
    [token_count]: no [chunk_oversized] entry is added. *)
Theorem semantic_chunk_budget
    (self : Sem.t) (text : pystr) (md : gmap string pyval) :
  exists groups : list (list (pystr * pystr)),
    Sem.chunk_text self text md
    = imap (fun i g => Sem._create_chunk self (joined g) md (Z.of_nat i))
        groups
    /\ nonempty_pieces (concat groups) = nonempty_pieces (pieces_of self text)
    /\ Forall
         (fun g =>
            g <> []
            /\ (charged self g <= Sem.max_chunk_size self
                \/ exists sep s,
                     g = [(sep, s)]
                     /\ Sem.max_chunk_size self < piece_tokens self s
                     /\ is_sentence self text s
                     /\ strip (joined g) = s))
         groups
    /\ forall c,
         In c (Sem.chunk_text self text md) ->
         metadata c !! "chunk_oversized" = md !! "chunk_oversized".
Proof.
  destruct (run_paragraphs_grouping self text md)
    as (done & cur & Hch & Hcur & Hemp & Hne & Hdone & Hfit & _ & _).
  assert (Hmd : forall c, In c (Sem.chunk_text self text md) ->
                          metadata c !! "chunk_oversized"
                          = md !! "chunk_oversized").
  { intros c Hin.
    destruct (chunk_text_good self text md c Hin) as (p0 & rest & i & -> & _).
    simpl. now rewrite !lookup_insert_ne by done. }
  unfold Sem.chunk_text in *.
  destruct (truthy (Sem.current_chunk (Sem.run_paragraphs self text md)))
    eqn:Htr.
  - assert (Hcn : cur <> []).
    { intros ->. rewrite Hcur in Htr. discriminate. }
    exists (done ++ [cur]). fold (chunks_of self md (done ++ [cur])).
    split; [now rewrite chunks_of_snoc, Hch, Hcur|].
    split; [now rewrite concat_app; cbn [concat]; rewrite app_nil_r|].
    split; [|exact Hmd].
    apply Forall_app. split; [exact Hdone|].
    constructor; [exact (Hfit Hcn)|constructor].
  - apply truthy_false in Htr. specialize (Hemp Htr). subst cur.
    exists done. rewrite app_nil_r in Hne.
    split; [exact Hch|]. split; [exact Hne|]. split; [exact Hdone|exact Hmd].
Qed.

(** ** Concrete runs *)

(** C3 fails as stated: a sentence of twelve tokens under a budget of two
    becomes a chunk of its own, whole, and its metadata has no
    [chunk_oversized] entry; and two paragraphs of one token each are joined
    into a chunk of four tokens, which is over the budget of two without being
    a single sentence. *)
Lemma oversized_sentence_not_flagged :
  (exists c,
     Sem.chunk_text tiny_semantic (txt "Hello world.") ∅ = [c]
     /\ Chunking.text c = txt "Hello world."
     /\ metadata c !! "token_count" = Some (VInt 12)
     /\ metadata c !! "chunk_oversized" = None
     /\ metadata c !! "chunk_oversized" <> Some (VBool true))
  /\ (exists c,
        Sem.chunk_text tiny_semantic (txt "a" ++ [nl; nl] ++ txt "b") ∅ = [c]
        /\ Chunking.text c = txt "a" ++ [nl; nl] ++ txt "b"
        /\ metadata c !! "token_count" = Some (VInt 4)
        /\ Sem.max_chunk_size tiny_semantic = 2
        /\ pieces_of tiny_semantic (txt "a" ++ [nl; nl] ++ txt "b")
           = [([nl; nl], txt "a"); ([nl; nl], txt "b")]).
Proof.
  split.
  - eexists. split; [vm_compute; reflexivity|].
    vm_compute. repeat split; discriminate.
  - eexists. split; [vm_compute; reflexivity|].
    vm_compute. repeat split.
Qed.

(** Two paragraphs of one token each fit the budget of two as the loop counts
    them, and the chunk that joins them has four tokens. *)
Example joined_paragraphs_exceed_budget :
  map (fun c => (Chunking.text c, metadata c !! "token_count"))
    (Sem.chunk_text tiny_semantic (txt "a" ++ [nl; nl] ++ txt "b") ∅)
  = [(txt "a" ++ [nl; nl] ++ txt "b", Some (VInt 4))].
Proof. vm_compute. reflexivity. Qed.

(** C8 fails as stated. With the semantic strategy, the blank line between
    two paragraphs that end up in different chunks is in no chunk. With the
    fixed-size strategy, a negative overlap makes the windows skip tokens (the
    character [c] below is in no chunk), and an overlap equal to the window
    size gives no chunk at all. *)
Lemma chunks_miss_characters :
  (let source := txt "a" ++ [nl; nl] ++ txt "b" in
   let cs :=
     Sem.chunk_text
       {| Sem.max_chunk_size := 1; Sem.overlap := 50;
          Sem.tokenizer := char_tokenizer |} source ∅ in
   map Chunking.text cs = [txt "a"; txt "b"]
   /\ In nl source
   /\ ~ In nl (concat (map Chunking.text cs))
   /\ concat (map Chunking.text cs) <> source)
  /\ (exists cs,
        Fix.chunk_text
          {| Fix.chunk_size := 2; Fix.overlap := -1;
             Fix.tokenizer := char_tokenizer |} (txt "abcdef") ∅ = Ok cs
        /\ map Chunking.text cs = [txt "ab"; txt "de"]
        /\ ~ In "c"%char (concat (map Chunking.text cs)))
  /\ Fix.chunk_text
       {| Fix.chunk_size := 2; Fix.overlap := 2;
          Fix.tokenizer := char_tokenizer |} (txt "abcdef") ∅
     = Raise (Exn "ValueError" "range() arg 3 must not be zero").
Proof.
  split; [|split].
  - vm_compute. repeat split.
    + right; left; reflexivity.
    + intros [H|[H|[]]]; discriminate.
    + discriminate.
  - eexists. split; [vm_compute; reflexivity|]. vm_compute.
    split; [reflexivity|]. intros [H|[H|[H|[H|[]]]]]; discriminate.
  - reflexivity.
Qed.

Lemma chunks_cover_source_witness :
  nonspace (concat (map Chunking.text
     (Sem.chunk_text tiny_semantic (txt "0123456789") ∅)))
    = nonspace (txt "0123456789")
  /\ exists idxs cs,
       let tokens := encode char_tokenizer (txt "0123456789") in
       Fix.starts small_fixed tokens = Ok idxs
       /\ Fix.chunk_text small_fixed (txt "0123456789") ∅ = Ok cs
       /\ map Chunking.text cs
          = map (fun i => shared_text small_fixed tokens i
                          ++ fresh_text small_fixed tokens i) idxs
       /\ (forall k i prev,
             idxs !! S k = Some i ->
             map Chunking.text cs !! k = Some prev ->
             exists pre, prev = pre ++ shared_text small_fixed tokens i)
       /\ texts_without_overlap small_fixed tokens idxs = txt "0123456789".
Proof.
  apply (chunks_cover_source tiny_semantic small_fixed (txt "0123456789") ∅).
  - simpl. lia.
  - intros a b. apply map_app.
  - vm_compute. reflexivity.
Defined.


Lemma batched_embedding_witness :
  _generate_embeddings_batch
    (total_embedder (fun t => [inject_Z (len t)]) offline)
    [txt "a"; txt "bb"; txt "ccc"] 2
  = Ok [[1%Q]; [2%Q]; [3%Q]].
Proof.
  apply (batched_embedding_preserves_inputs
           (fun t => [inject_Z (len t)]) offline
           [txt "a"; txt "bb"; txt "ccc"] 2).
  lia.
Defined.

(** ** The order of the reranked results *)

Section StableSort.
Context {A : Type}.
Variable key : A -> Q.

Lemma Qgtb_true x y : Qgtb x y = true <-> (y < x)%Q.
Proof.
  unfold Qgtb. rewrite negb_true_iff.
  destruct (Qle_bool x y) eqn:H.
  - apply Qle_bool_iff in H. split; [discriminate|]. intros Hlt. lra.
  - split; [intros _|reflexivity].
    apply Qnot_le_lt. intros Hle. apply Qle_bool_iff in Hle. congruence.
Qed.



End StableSort.

(** *** Floats that are numbers are totally preordered by [<] *)

Lemma compare_place (x y : float) :
  is_nan x = false -> is_nan y = false ->
  (SpecFloat.SFcompare x y = Some Lt /\ place_lt (place x) (place y))
  \/ (SpecFloat.SFcompare x y = Some Eq /\ place_eq (place x) (place y))
  \/ (SpecFloat.SFcompare x y = Some Gt /\ place_lt (place y) (place x)).
Proof.
  intros Hx Hy. unfold place_lt, place_eq.
  destruct x as [sx|sx| |sx mx ex]; try discriminate;
    destruct y as [sy|sy| |sy my ey]; try discriminate;
    try destruct sx; try destruct sy;
    cbn [SpecFloat.SFcompare place fst snd];
    try (left; split; [reflexivity|lia]);
    try (right; left; split; [reflexivity|lia]);
    try (right; right; split; [reflexivity|lia]).
  - (* two negative finite floats *)
    change (Pos.compare_cont Eq mx my) with (mx ?= my)%positive.
    destruct (Z.compare_spec ex ey); try destruct (Pos.compare_spec mx my);
      cbn [CompOpp];
      first [ left; split; [reflexivity|lia]
            | right; left; split; [reflexivity|lia]
            | right; right; split; [reflexivity|lia] ].
  - (* two positive finite floats *)
    change (Pos.compare_cont Eq mx my) with (mx ?= my)%positive.
    destruct (Z.compare_spec ex ey); try destruct (Pos.compare_spec mx my);
      first [ left; split; [reflexivity|lia]
            | right; left; split; [reflexivity|lia]
            | right; right; split; [reflexivity|lia] ].
Qed.

Lemma fle_number x y :
  fle x y = true -> is_nan x = false /\ is_nan y = false.
Proof.
  unfold fle, SpecFloat.SFleb.
  destruct x, y; cbn; (discriminate || (intros _; split; reflexivity)).
Qed.

(** Replaces the comparison of two floats by each of its three outcomes,
    with what the outcome says of their places. *)
Ltac places x y Hx Hy :=
  let P := fresh "P" in
  destruct (compare_place x y Hx Hy) as [[-> P]|[[-> P]|[-> P]]];
  revert P.

Ltac place_solve :=
  cbn; intros; try discriminate;
  first
    [ reflexivity
    | left; reflexivity
    | right; reflexivity
    | exfalso;
      unfold place_lt, place_eq in *;
      repeat match goal with
             | H : context [place ?x] |- _ => revert H
             end;
      repeat match goal with
             | |- context [place ?x] => destruct (place x) as [? [? ?]]
             end;
      cbn [fst snd]; lia ].

Section FloatOrder.
Variables x y z : float.
Hypothesis Hx : is_nan x = false.
Hypothesis Hy : is_nan y = false.
Hypothesis Hz : is_nan z = false.

Lemma flt_total : flt x y = false -> flt y x = true \/ feq x y = true.
Proof.
  unfold flt, feq, SpecFloat.SFltb, SpecFloat.SFeqb.
  places x y Hx Hy; places y x Hy Hx; place_solve.
Qed.

Lemma flt_below : flt z y = true -> flt x y = false -> flt z x = true.
Proof.
  unfold flt, SpecFloat.SFltb.
  places z y Hz Hy; places x y Hx Hy; places z x Hz Hx; place_solve.
Qed.

Lemma feq_between :
  feq y z = true -> flt x y = false -> flt z x = false -> feq x z = true.
Proof.
  unfold flt, feq, SpecFloat.SFltb, SpecFloat.SFeqb.
  places y z Hy Hz; places x y Hx Hy; places z x Hz Hx; places x z Hx Hz;
    place_solve.
Qed.

Lemma fle_cases : fle y x = true -> flt y x = true \/ feq x y = true.
Proof.
  unfold flt, feq, fle, SpecFloat.SFltb, SpecFloat.SFeqb, SpecFloat.SFleb.
  places y x Hy Hx; places x y Hx Hy; place_solve.
Qed.
End FloatOrder.

(** *** Scores that are numbers *)

Lemma digits2_pos_size p : SpecFloat.digits2_pos p = Pos.size p.
Proof. induction p as [p IH|p IH|]; simpl; now rewrite ?IH. Qed.

Lemma Zdigits2_log2 m : 0 < m -> SpecFloat.Zdigits2 m = Z.log2 m + 1.
Proof.
  destruct m as [|p|p]; try lia. intros _. simpl.
  rewrite digits2_pos_size. destruct p; simpl; lia.
Qed.

Lemma Zdigits2_nonneg m : 0 <= SpecFloat.Zdigits2 m.
Proof. destruct m; simpl; lia. Qed.

Lemma Zdigits2_pos m : 0 < m -> 0 < SpecFloat.Zdigits2 m.
Proof. destruct m; simpl; lia. Qed.

Lemma Zdigits2_mono a b :
  0 <= a <= b -> SpecFloat.Zdigits2 a <= SpecFloat.Zdigits2 b.
Proof.
  intros [Ha Hab]. destruct (Z.eq_dec a 0) as [->|Hne].
  - apply Zdigits2_nonneg.
  - rewrite !Zdigits2_log2 by lia.
    pose proof (Z.log2_le_mono a b Hab). lia.
Qed.

Lemma Zdigits2_succ m :
  0 <= m -> SpecFloat.Zdigits2 (m + 1) <= SpecFloat.Zdigits2 m + 1.
Proof.
  intros Hm. destruct (Z.eq_dec m 0) as [->|Hne]; [simpl; lia|].
  rewrite !Zdigits2_log2 by lia.
  pose proof (Z.log2_succ_le m). unfold Z.succ in *. lia.
Qed.

Lemma Zdigits2_mul a b :
  0 < a -> 0 < b ->
  SpecFloat.Zdigits2 (a * b) <= SpecFloat.Zdigits2 a + SpecFloat.Zdigits2 b.
Proof.
  intros Ha Hb. rewrite !Zdigits2_log2 by nia.
  pose proof (Z.log2_mul_above a b ltac:(lia) ltac:(lia)). lia.
Qed.

Lemma Zdigits2_below_pow m k :
  0 <= k -> 0 <= m <= 2 ^ k -> SpecFloat.Zdigits2 m <= k + 1.
Proof.
  intros Hk [Hm Hle]. destruct (Z.eq_dec m 0) as [->|Hne]; [simpl; lia|].
  rewrite Zdigits2_log2 by lia.
  pose proof (Z.log2_le_mono m (2 ^ k) Hle) as H.
  rewrite Z.log2_pow2 in H by lia. lia.
Qed.

Lemma shr_1_spec mrs :
  0 <= SpecFloat.shr_m mrs ->
  0 <= SpecFloat.shr_m (SpecFloat.shr_1 mrs)
  /\ SpecFloat.Zdigits2 (SpecFloat.shr_m (SpecFloat.shr_1 mrs))
     = Z.max 0 (SpecFloat.Zdigits2 (SpecFloat.shr_m mrs) - 1).
Proof.
  destruct mrs as [m r s]. simpl. intros Hm.
  destruct m as [|[p|p|]|p]; simpl; try lia.
Qed.

Lemma iter_shr_1_spec p mrs :
  0 <= SpecFloat.shr_m mrs ->
  0 <= SpecFloat.shr_m (SpecFloat.iter_pos SpecFloat.shr_1 p mrs)
  /\ SpecFloat.Zdigits2
       (SpecFloat.shr_m (SpecFloat.iter_pos SpecFloat.shr_1 p mrs))
     = Z.max 0 (SpecFloat.Zdigits2 (SpecFloat.shr_m mrs) - Z.pos p).
Proof.
  revert mrs. induction p as [p IH|p IH|]; intros mrs Hm; simpl.
  - destruct (shr_1_spec mrs Hm) as [H1 D1].
    destruct (IH _ H1) as [H2 D2]. destruct (IH _ H2) as [H3 D3].
    split; [exact H3|]. rewrite D3, D2, D1. lia.
  - destruct (IH _ Hm) as [H2 D2]. destruct (IH _ H2) as [H3 D3].
    split; [exact H3|]. rewrite D3, D2. lia.
  - apply shr_1_spec, Hm.
Qed.

Lemma shr_record_of_loc_m m l :
  SpecFloat.shr_m (SpecFloat.shr_record_of_loc m l) = m.
Proof. destruct l as [|[]]; reflexivity. Qed.

Lemma shr_fexp_spec m e l :
  0 <= m ->
  let n := Z.max 0 (SpecFloat.fexp prec emax (SpecFloat.Zdigits2 m + e) - e) in
  0 <= SpecFloat.shr_m (SpecFloat.shr_fexp prec emax m e l).1
  /\ (SpecFloat.shr_fexp prec emax m e l).2 = e + n
  /\ SpecFloat.Zdigits2 (SpecFloat.shr_m (SpecFloat.shr_fexp prec emax m e l).1)
     = Z.max 0 (SpecFloat.Zdigits2 m - n).
Proof.
  intros Hm n. unfold SpecFloat.shr_fexp, SpecFloat.shr. fold n.
  pose proof (Zdigits2_nonneg m) as Hd.
  destruct (SpecFloat.fexp prec emax (SpecFloat.Zdigits2 m + e) - e)
    as [|p|p] eqn:Hn; cbn [fst snd]; rewrite ?shr_record_of_loc_m.
  - split; [exact Hm|]. subst n. split; lia.
  - destruct (iter_shr_1_spec p (SpecFloat.shr_record_of_loc m l))
      as [H1 D1]; [now rewrite shr_record_of_loc_m|].
    rewrite shr_record_of_loc_m in D1.
    split; [exact H1|]. subst n. split; [lia|]. rewrite D1. lia.
  - split; [exact Hm|]. subst n. split; lia.
Qed.

Lemma round_nearest_even_spec m l :
  0 <= m -> m <= SpecFloat.round_nearest_even m l <= m + 1.
Proof.
  intros Hm. unfold SpecFloat.round_nearest_even.
  destruct l as [|[]]; try destruct (Z.even m); lia.
Qed.

(** What [binary_round_aux] gives for a mantissa that is not negative. *)
Lemma binary_round_aux_spec sx mx ex lx :
  0 <= mx ->
  match SpecFloat.binary_round_aux prec emax sx mx ex lx with
  | SpecFloat.S754_zero s => s = sx
  | SpecFloat.S754_infinity s =>
      s = sx
      /\ ~ (ex <= emax - prec /\ SpecFloat.Zdigits2 mx + ex + 1 <= emax)
  | SpecFloat.S754_finite s m e =>
      s = sx /\ e <= emax - prec
      /\ SpecFloat.Zdigits2 (Z.pos m) + e
         <= Z.max (SpecFloat.Zdigits2 mx + ex + 1) (-1072)
  | SpecFloat.S754_nan => False
  end.
Proof.
  intros Hm. unfold SpecFloat.binary_round_aux.
  destruct (shr_fexp_spec mx ex lx Hm) as (H1 & E1 & D1).
  destruct (SpecFloat.shr_fexp prec emax mx ex lx) as [mrs' e'].
  cbn [fst snd] in H1, E1, D1.
  pose proof (round_nearest_even_spec (SpecFloat.shr_m mrs')
                (SpecFloat.loc_of_shr_record mrs') H1) as Hr.
  set (r := SpecFloat.round_nearest_even (SpecFloat.shr_m mrs')
              (SpecFloat.loc_of_shr_record mrs')) in *.
  assert (Hr0 : 0 <= r) by lia.
  assert (Dr : SpecFloat.Zdigits2 r
               <= SpecFloat.Zdigits2 (SpecFloat.shr_m mrs') + 1).
  { etransitivity; [apply (Zdigits2_mono r (SpecFloat.shr_m mrs' + 1)); lia|].
    apply Zdigits2_succ, H1. }
  destruct (shr_fexp_spec r e' SpecFloat.loc_Exact Hr0) as (H2 & E2 & D2).
  destruct (SpecFloat.shr_fexp prec emax r e' SpecFloat.loc_Exact)
    as [mrs'' e''].
  cbn [fst snd] in H2, E2, D2.
  pose proof (Zdigits2_nonneg mx) as Hdx.
  pose proof (Zdigits2_nonneg r) as Hdr.
  unfold SpecFloat.fexp, SpecFloat.emin, prec, emax in *.
  destruct (SpecFloat.shr_m mrs'') as [|m|m] eqn:Hm''; [reflexivity| |lia].
  assert (Hdm : 0 < SpecFloat.Zdigits2 (Z.pos m)) by (simpl; lia).
  destruct (Z.leb_spec e'' (1024 - 53)) as [Hle|Hgt].
  - split; [reflexivity|]. split; [exact Hle|]. lia.
  - split; [reflexivity|]. lia.
Qed.

Lemma binary_round_aux_number sx mx ex lx :
  0 <= mx ->
  is_nan (SpecFloat.binary_round_aux prec emax sx mx ex lx) = false.
Proof.
  intros Hm. pose proof (binary_round_aux_spec sx mx ex lx Hm) as H.
  destruct (SpecFloat.binary_round_aux prec emax sx mx ex lx);
    [reflexivity|reflexivity|destruct H|reflexivity].
Qed.

Lemma binary_round_number sx mx ex :
  is_nan (SpecFloat.binary_round prec emax sx mx ex) = false.
Proof.
  unfold SpecFloat.binary_round.
  destruct (SpecFloat.shl_align _ _ _) as [mz ez].
  apply binary_round_aux_number. lia.
Qed.

Lemma fadd_number x y :
  is_nan x = false -> is_finite y = true -> is_nan (fadd x y) = false.
Proof.
  intros Hx Hy. unfold fadd.
  destruct x as [sx|sx| |sx mx ex]; try discriminate;
    destruct y as [sy|sy| |sy my ey]; try discriminate;
    cbn [SpecFloat.SFadd]; try reflexivity.
  - destruct sx, sy; reflexivity.
  - unfold SpecFloat.binary_normalize.
    destruct (_ + _)%Z; [reflexivity| |]; apply binary_round_number.
Qed.

Lemma fmul_number x y :
  is_nan x = false -> (exists s m e, y = SpecFloat.S754_finite s m e) ->
  is_nan (fmul x y) = false.
Proof.
  intros Hx (s & m & e & ->). unfold fmul.
  destruct x as [sx|sx| |sx mx ex]; try discriminate;
    cbn [SpecFloat.SFmul]; try reflexivity.
  apply binary_round_aux_number. lia.
Qed.

Lemma int_truediv_small (a b : Z) :
  0 <= a <= b -> 0 < b -> is_small (int_truediv a b).
Proof.
  intros [Ha Hab] Hb. unfold int_truediv.
  destruct a as [|a|a]; [exact I| |lia].
  unfold SpecFloat.SFdiv_core_binary.
  rewrite (Z.abs_eq (Z.pos a)), (Z.abs_eq b) by lia.
  set (d1 := SpecFloat.Zdigits2 (Z.pos a)).
  set (d2 := SpecFloat.Zdigits2 b).
  assert (Hd : d1 <= d2) by (apply Zdigits2_mono; lia).
  assert (Hd1 : 0 < d1) by (apply Zdigits2_pos; lia).
  set (e' := Z.min (SpecFloat.fexp prec emax (d1 + 0 - (d2 + 0))) (0 - 0)).
  assert (He' : e' <= 0) by (unfold e'; lia).
  set (m' := match 0 - 0 - e' with
             | Z.pos _ => Z.shiftl (Z.pos a) (0 - 0 - e')
             | 0 => Z.pos a
             | Z.neg _ => 0
             end).
  assert (Hm' : m' = Z.pos a * 2 ^ (- e')).
  { unfold m'. replace (0 - 0 - e') with (- e') by lia.
    destruct (- e') as [|p|p] eqn:Hs; [simpl; lia| |lia].
    rewrite Z.shiftl_mul_pow2 by lia. reflexivity. }
  pose proof (Z.div_eucl_eq m' b ltac:(lia)) as Heq.
  pose proof (Z.mod_pos_bound m' b Hb) as Hmod.
  unfold Z.modulo in Hmod.
  destruct (Z.div_eucl m' b) as [q r] eqn:Hdiv.
  assert (Hp : 0 < 2 ^ (- e')) by (apply Z.pow_pos_nonneg; lia).
  assert (Hq : 0 <= q <= 2 ^ (- e')) by nia.
  pose proof (Zdigits2_below_pow q (- e') ltac:(lia) Hq) as Hdq.
  pose proof (binary_round_aux_spec (xorb (Z.pos a <? 0) (b <? 0)) q e'
                (SpecFloat.new_location b r) ltac:(lia)) as H.
  destruct (SpecFloat.binary_round_aux prec emax _ q e' _)
    as [s|s| |s m e]; [exact I| |destruct H|].
  - destruct H as [_ H]. exfalso. apply H. unfold emax, prec. lia.
  - destruct H as (_ & He & Hdm). split; [exact He|]. lia.
Qed.

Lemma fmul_small x s m :
  is_small x -> SpecFloat.Zdigits2 (Z.pos m) <= 53 ->
  is_finite (fmul x (SpecFloat.S754_finite s m (-54))) = true.
Proof.
  intros Hx Hm. unfold fmul.
  destruct x as [sx|sx| |sx mx ex]; cbn [SpecFloat.SFmul];
    try reflexivity; try contradiction.
  destruct Hx as [He Hd].
  pose proof (binary_round_aux_spec (xorb sx s) (Z.pos (mx * m)) (ex + -54)
                SpecFloat.loc_Exact ltac:(lia)) as H.
  pose proof (Zdigits2_mul (Z.pos mx) (Z.pos m) ltac:(lia) ltac:(lia)) as Hmul.
  change (Z.pos mx * Z.pos m) with (Z.pos (mx * m)) in Hmul.
  destruct (SpecFloat.binary_round_aux prec emax _ _ _ _)
    as [s'|s'| |s' m' e']; [reflexivity| |destruct H|reflexivity].
  destruct H as [_ H]. exfalso. apply H. unfold emax, prec in *. lia.
Qed.

Lemma keyword_score_small query_words text :
  is_small (Rerank.keyword_score query_words text).
Proof.
  unfold Rerank.keyword_score.
  destruct (decide (query_words = ∅)) as [He|Hne]; [exact I|].
  apply int_truediv_small.
  - split; [lia|]. apply inj_le, subseteq_size, intersection_subseteq_l.
  - assert (size query_words <> 0%nat); [|lia].
    intros H0. apply size_empty_iff in H0. apply Hne.
    now apply leibniz_equiv.
Qed.

(** The combined score of a candidate whose similarity is a number is a
    number. *)
Lemma combined_score_number query_words (c : Payload * float) :
  is_nan (snd c) = false ->
  is_nan (Rerank.combined_score query_words c) = false.
Proof.
  destruct c as [result similarity_score]. cbn [snd]. intros Hs.
  unfold Rerank.combined_score. apply fadd_number.
  - apply fmul_number; [exact Hs|]. now eexists _, _, _.
  - change (literal 3 10)
      with (SpecFloat.S754_finite false 5404319552844595 (-54)).
    apply fmul_small; [apply keyword_score_small|].
    vm_compute. discriminate.
Qed.

(** *** The stable descending sort on float keys *)

Section StableSortFloat.
Context {A : Type}.
Variable key : A -> float.
(** [before a b]: what is known of an element and a later one in the list
    that is sorted. *)
Variable before : A -> A -> Prop.

Lemma float_insert_perm x l :
  Permutation (Rerank.insert_desc key x l) (x :: l).
Proof.
  induction l as [|y l IH]; simpl; [reflexivity|].
  destruct (flt (key x) (key y)); [|reflexivity].
  rewrite IH. apply perm_swap.
Qed.

Lemma float_sorted_perm l : Permutation (Rerank.sorted_desc key l) l.
Proof.
  induction l as [|x l IH]; simpl; [reflexivity|].
  rewrite float_insert_perm. now constructor.
Qed.

Lemma float_insert_sorted x l :
  is_nan (key x) = false ->
  List.Forall (fun a => is_nan (key a) = false) l ->
  List.Forall (before x) l ->
  StronglySorted (placed_before key before) l ->
  StronglySorted (placed_before key before) (Rerank.insert_desc key x l).
Proof.
  intros Hnx Hnl Hx Hl. induction Hl as [|y l Hl IH Hy]; simpl.
  - repeat constructor.
  - apply List.Forall_cons_iff in Hx as [Hxy Hxl].
    apply List.Forall_cons_iff in Hnl as [Hny Hnl].
    destruct (flt (key x) (key y)) eqn:Hcmp.
    + constructor; [now apply IH|].
      eapply Permutation_Forall; [symmetry; apply float_insert_perm|].
      constructor; [now left|exact Hy].
    + constructor; [now constructor|].
      constructor.
      * destruct (flt_total (key x) (key y) Hnx Hny Hcmp) as [Hlt|Heq];
          [now left|right]. split; [exact Heq|exact Hxy].
      * rewrite List.Forall_forall in Hy, Hxl, Hnl |- *. intros z Hz.
        specialize (Hy z Hz). specialize (Hxl z Hz). specialize (Hnl z Hz).
        destruct Hy as [Hlt|[Heq _]].
        -- left. exact (flt_below (key x) (key y) (key z) Hnx Hny Hnl
                          Hlt Hcmp).
        -- destruct (flt (key z) (key x)) eqn:Hzx; [now left|right].
           split; [|exact Hxl].
           exact (feq_between (key x) (key y) (key z) Hnx Hny Hnl Heq
                    Hcmp Hzx).
Qed.

Lemma float_sorted_sorted l :
  List.Forall (fun a => is_nan (key a) = false) l ->
  StronglySorted before l ->
  StronglySorted (placed_before key before) (Rerank.sorted_desc key l).
Proof.
  intros Hn Hs. induction Hs as [|x l Hl IH Hx]; simpl; [constructor|].
  apply List.Forall_cons_iff in Hn as [Hnx Hnl].
  apply float_insert_sorted; [exact Hnx| | |now apply IH].
  - eapply Permutation_Forall; [symmetry; apply float_sorted_perm|exact Hnl].
  - eapply Permutation_Forall; [symmetry; apply float_sorted_perm|exact Hx].
Qed.
End StableSortFloat.

Lemma float_sorted_map {A B} (key : B -> float) (f : A -> B) (l : list A) :
  Rerank.sorted_desc key (map f l)
  = map f (Rerank.sorted_desc (fun a => key (f a)) l).
Proof.
  induction l as [|x l IH]; [reflexivity|]. simpl. rewrite IH.
  generalize (Rerank.sorted_desc (fun a => key (f a)) l) as t.
  induction t as [|y t IHt]; [reflexivity|]. simpl.
  destruct (flt (key (f x)) (key (f y))); [|reflexivity].
  simpl. now rewrite IHt.
Qed.

Lemma StronglySorted_weaken {A} (R R' : A -> A -> Prop) (l : list A) :
  (forall a b, R a b -> R' a b) ->
  StronglySorted R l -> StronglySorted R' l.
Proof.
  intros HR. induction 1 as [|x l Hl IH Hx]; constructor; [exact IH|].
  eapply List.Forall_impl; [|exact Hx]. intros b. apply HR.
Qed.

Lemma indexed_from_fst start cands a :
  In a (indexed_from start cands) -> (start <= fst a)%nat.
Proof.
  revert start. induction cands as [|c cands IH]; intros start; simpl;
    [tauto|].
  intros [<-|Hin]; [simpl; lia|]. apply IH in Hin. lia.
Qed.

Lemma indexed_from_snd start cands a :
  In a (indexed_from start cands) -> In (snd a) cands.
Proof.
  revert start. induction cands as [|c cands IH]; intros start; simpl;
    [tauto|].
  intros [<-|Hin]; [now left|right]. eapply IH, Hin.
Qed.

Lemma indexed_from_earlier start cands :
  StronglySorted (fun c d => fle (snd d) (snd c) = true) cands ->
  StronglySorted earlier (indexed_from start cands).
Proof.
  intros H. revert start.
  induction H as [|c cands Hs IH Hc]; intros start; [constructor|].
  change (indexed_from start (c :: cands))
    with ((start, c) :: indexed_from (S start) cands).
  constructor; [apply IH|].
  apply List.Forall_forall. intros a Ha. split; simpl.
  - apply indexed_from_fst in Ha. lia.
  - apply indexed_from_snd in Ha.
    rewrite List.Forall_forall in Hc. now apply Hc.
Qed.

Lemma indexed_from_map start cands :
  map snd (indexed_from start cands) = cands.
Proof.
  revert start. induction cands as [|c cands IH]; intros start;
    [reflexivity|].
  change (indexed_from start (c :: cands))
    with ((start, c) :: indexed_from (S start) cands).
  simpl. now rewrite IH.
Qed.

Lemma slice_to_take {A} (l : list A) (k : Z) :
  0 <= k -> slice_to l k = take (Z.to_nat k) l.
Proof.
  intros Hk. unfold slice_to, slice_bound.
  destruct (Z.ltb_spec k 0); [lia|].
  destruct (Z.le_gt_cases k (Z.of_nat (length l))).
  - f_equal. lia.
  - rewrite !take_ge by lia. reflexivity.
Qed.

Lemma sorted_similarities_numbers (c d : Payload * float) rest :
  StronglySorted (fun c d => fle (snd d) (snd c) = true) (c :: d :: rest) ->
  Forall (fun c => is_nan (snd c) = false) (c :: d :: rest).
Proof.
  intros H. apply StronglySorted_inv in H as [_ H].
  assert (Hd : fle (snd d) (snd c) = true)
    by (now apply List.Forall_cons_iff in H as [H _]).
  constructor; [apply (fle_number _ _ Hd)|].
  eapply List.Forall_impl; [|exact H].
  intros a Ha. apply (fle_number _ _ Ha).
Qed.

(** C1, as the code has it. The combined score of a candidate is
    [similarity * 0.7 + keyword_score * 0.3] in binary64 arithmetic, every
    operation rounded, where [keyword_score] is the quotient of the number of
    distinct words of the lower-cased query, split at white space only, that
    are words of the lower-cased candidate text, by the number of distinct
    words of the query (0 for a query without words). On search results that
    come in descending similarity, the reranked list is the candidates in
    descending combined score as computed, ties broken by similarity and then
    by position in the search results, and the engine keeps the first
    [top_k] of them. *)
Theorem rerank_order
    (self : RAGService) (query : pystr) (cands : list (Payload * float))
    (top_k : Z) :
  StronglySorted (fun c d => fle (snd d) (snd c) = true) cands ->
  0 <= top_k ->
  Forall
    (fun c =>
       Rerank.combined_score (word_set query) c
       = fadd (fmul (snd c) (literal 7 10))
           (fmul
              (if decide (word_set query = ∅) then float_of_int 0
               else int_truediv
                      (Z.of_nat
                         (size (word_set query ∩ word_set (p_text (fst c)))))
                      (Z.of_nat (size (word_set query))))
              (literal 3 10)))
    cands
  /\ exists order : list (nat * (Payload * float)),
       Permutation order (indexed_from 0 cands)
       /\ StronglySorted (ranks_before query) order
       /\ Rerank._rerank_results self query cands
          = map (fun a =>
                   (fst (snd a),
                    Rerank.combined_score (word_set query) (snd a)))
              order
       /\ slice_to (Rerank._rerank_results self query cands) top_k
          = take (Z.to_nat top_k) (Rerank._rerank_results self query cands).
Proof.
  intros Hsim Hk. split.
  { apply List.Forall_forall. intros [result s] _. reflexivity. }
  destruct cands as [|c [|d rest]].
  - exists []. split; [reflexivity|]. split; [constructor|].
    split; [reflexivity|now apply slice_to_take].
  - exists [(0%nat, c)]. split; [reflexivity|].
    split; [repeat constructor|]. split; [reflexivity|now apply slice_to_take].
  - set (cands := c :: d :: rest) in *.
    assert (Hnum : Forall (fun c => is_nan (Rerank.combined_score
                                              (word_set query) c) = false)
                     cands).
    { eapply List.Forall_impl; [|apply sorted_similarities_numbers, Hsim].
      intros a Ha. now apply combined_score_number. }
    set (score := fun a : nat * (Payload * float) =>
                    Rerank.combined_score (word_set query) (snd a)).
    exists (Rerank.sorted_desc score (indexed_from 0 cands)).
    split; [apply float_sorted_perm|]. split; [|split].
    + eapply StronglySorted_weaken;
        [|apply (float_sorted_sorted score earlier);
          [|apply indexed_from_earlier, Hsim]].
      * intros a b [Hlt|[Heq [Hidx Hs]]]; [now left|right].
        split; [exact Heq|].
        destruct (fle_number _ _ Hs) as [Hb Ha].
        destruct (fle_cases (similarity a) (similarity b) Ha Hb Hs)
          as [Hlt|Hse]; [now left|right]. split; [exact Hse|exact Hidx].
      * apply List.Forall_forall. intros a Ha.
        apply indexed_from_snd in Ha.
        rewrite List.Forall_forall in Hnum. now apply Hnum.
    + unfold Rerank._rerank_results.
      rewrite <- (indexed_from_map 0 cands) at 1.
      rewrite map_map.
      apply (float_sorted_map snd
               (fun a : nat * (Payload * float) =>
                  (fst (snd a),
                   Rerank.combined_score (word_set query) (snd a)))).
    + now apply slice_to_take.
Qed.

Lemma rerank_order_witness :
  let query := txt "refund policy" in
  let cands := [ (doc "Shipping times", literal 3 4);
                 (doc "refund policy explained", literal 7 10) ] in
  ranked_texts query cands
  = [txt "refund policy explained"; txt "Shipping times"]
  /\ exists order : list (nat * (Payload * float)),
       Permutation order (indexed_from 0 cands)
       /\ StronglySorted (ranks_before query) order
       /\ Rerank._rerank_results offline query cands
          = map (fun a =>
                   (fst (snd a),
                    Rerank.combined_score (word_set query) (snd a)))
              order
       /\ slice_to (Rerank._rerank_results offline query cands) 1
          = take (Z.to_nat 1) (Rerank._rerank_results offline query cands).
Proof.
  intros query cands. split; [vm_compute; reflexivity|].
  refine (proj2 (rerank_order offline query cands 1 _ _)).
  - repeat constructor.
  - lia.
Defined.

(** C1 fails as stated, in two ways. The code splits at white space only, so
    the word [policy.] of a candidate is not the query word [policy]: the
    candidate gets the overlap 1/2 where the claim gives 1, and the engine
    ranks it below a candidate that the claimed score ranks it above. And
    the score is computed in floating point: of two candidates of which the
    first has the greater similarity and, in exact arithmetic, the greater
    combined score, the engine ranks the second first, because the rounded
    sums are [0.6199999999999999] and [0.62]. *)
Lemma rerank_differs_from_claim :
  (let query := txt "refund policy" in
   let a := (doc "Our refund policy.", literal 6 10) in
   let b := (doc "Shipping times", literal 9 10) in
   Rerank.keyword_score (word_set query) (p_text (fst a)) = literal 1 2
   /\ (claimed_lexical_overlap query (p_text (fst a)) == 1)%Q
   /\ ranked_texts query [b; a] = [p_text (fst b); p_text (fst a)]
   /\ (claimed_combined_score query b < claimed_combined_score query a)%Q)
  /\ (let query := txt "w0 w1 w2 w3 w4 w5 w6 w7 w8 w9" in
      let c := (doc "w0 w1", literal 8 10) in
      let d := (doc "w0 w1 w2 w3 w4 w5 w6 w7 w8", literal 5 10) in
      flt (snd d) (snd c) = true
      /\ (exact_combined_score query d < exact_combined_score query c)%Q
      /\ Rerank.combined_score (word_set query) c
         = SpecFloat.S754_finite false 5584463537939414 (-53)
      /\ Rerank.combined_score (word_set query) d
         = SpecFloat.S754_finite false 5584463537939415 (-53)
      /\ ranked_texts query [c; d] = [p_text (fst d); p_text (fst c)]).
Proof.
  vm_compute. repeat split; try discriminate; reflexivity.
Qed.

(** The floats of the literals [0.7] and [0.3]: [0x1.6666666666666p-1] and
    [0x1.3333333333333p-2]. *)
Example literal_values :
  literal 7 10 = SpecFloat.S754_finite false 6305039478318694 (-53)
  /\ literal 3 10 = SpecFloat.S754_finite false 5404319552844595 (-54)
  /\ float_of_int 0 = SpecFloat.S754_zero false
  /\ fmul (float_of_int 0) (literal 3 10) = SpecFloat.S754_zero false.
Proof. vm_compute. repeat split. Qed.

(** Why the search results must come in descending similarity: the sort is
    stable, so on candidates in another order a tie of the combined score is
    broken by position, whatever the similarities. Both candidates below
    score [0.3]; the first has the smaller similarity and stays first. *)
Example unsorted_candidates_keep_position :
  let query := txt "refund" in
  let a := (doc "refund", float_of_int 0) in
  let b := (doc "other", int_truediv 3 7) in
  flt (snd a) (snd b) = true
  /\ Rerank.combined_score (word_set query) a = literal 3 10
  /\ Rerank.combined_score (word_set query) b = literal 3 10
  /\ ranked_texts query [a; b] = [p_text (fst a); p_text (fst b)].
Proof. vm_compute. repeat split. Qed.

(** Why [top_k] must not be negative: a negative bound of a slice counts from
    the end, so [ranked_results[:-1]] drops the last result instead of keeping
    none. *)
Example negative_top_k_counts_from_the_end :
  slice_to [1; 2; 3] (-1) = [1; 2] /\ slice_to [1; 2; 3] 0 = [].
Proof. split; reflexivity. Qed.

(** ** Failure of the query embedding *)

(** C2, as the code has it: when the embedding of the query raises,
    [query_knowledge_base] catches the exception and answers with the general
    fallback response and no sources; it raises only if the fallback
    generation raises too. *)
Theorem embedding_failure_falls_back
    (self : RAGService) (query : pystr)
    (conversation_history : option (list Message))
    (filters : option (gmap string pyval)) (max_results : Z)
    (score_threshold : Q) (e : exn) :
  generate_embedding (azure_ai self) query = Raise e ->
  query_knowledge_base self query conversation_history filters max_results
    score_threshold
  = match generate_response (azure_ai self) (fallback_messages query) with
    | Ok fallback_response => Ok (fallback_response, [])
    | Raise e' => Raise e'
    end.
Proof.
  intros He.
  unfold query_knowledge_base, query_knowledge_base_try.
  rewrite He. cbn.
  destruct (generate_response _ _); reflexivity.
Qed.

Lemma embedding_failure_falls_back_witness :
  query_knowledge_base embedding_down (txt "refund policy") None None 5
    (7 # 10)
  = match generate_response (azure_ai embedding_down)
            (fallback_messages (txt "refund policy")) with
    | Ok fallback_response => Ok (fallback_response, [])
    | Raise e' => Raise e'
    end.
Proof.
  apply (embedding_failure_falls_back embedding_down (txt "refund policy")
           None None 5 (7 # 10)
           (Exn "EmbeddingServiceError" "embedding failed")).
  reflexivity.
Defined.

(** C2 fails as stated: the embedding raises and the operation returns an
    answer. *)
Lemma embedding_failure_returns_answer :
  generate_embedding (azure_ai embedding_down) (txt "refund policy")
    = Raise (Exn "EmbeddingServiceError" "embedding failed")
  /\ query_knowledge_base embedding_down (txt "refund policy") None None 5
       (7 # 10)
     = Ok (txt "general answer", []).
Proof. split; reflexivity. Qed.

(** ** Upserts *)

(** C4, as the code has it: [add_documents] stores a chunk under an
    identifier drawn anew at each call, so two calls with the same chunk
    write under the two identifiers drawn, each point with the vector of its
    call; the store holds one point for the chunk, with the latest vector,
    only if the two draws coincide. *)
Theorem add_documents_twice
    (self : QdrantVectorStore) (chunk : Chunk) (e1 e2 : list Q) :
  reachable self = true ->
  let u1 := uuid4 self (uuid_calls self) in
  let u2 := uuid4 self (S (uuid_calls self)) in
  let first := add_documents self [chunk] [e1] in
  let second := add_documents (snd first) [chunk] [e2] in
  fst first = Ok [u1]
  /\ fst second = Ok [u2]
  /\ points (snd second)
     = <[u2 := make_point u2 chunk e2]>
         (<[u1 := make_point u1 chunk e1]> (points self))
  /\ points (snd second) !! u2 = Some (make_point u2 chunk e2)
  /\ (u1 <> u2 ->
      points (snd second) !! u1 = Some (make_point u1 chunk e1))
  /\ (u1 = u2 ->
      points (snd second) = <[u1 := make_point u1 chunk e2]> (points self)).
Proof.
  intros Hr. unfold add_documents. rewrite Hr. cbn.
  rewrite !Nat.add_0_r, Nat.add_1_r.
  repeat split.
  - apply lookup_insert_eq.
  - intros Hne. rewrite lookup_insert_ne by congruence.
    apply lookup_insert_eq.
  - intros ->. apply insert_insert_eq.
Qed.

Lemma add_documents_twice_witness :
  let first := add_documents empty_store [sample_chunk] [[1%Q]] in
  let second := add_documents (snd first) [sample_chunk] [[2%Q]] in
  fst first = Ok ["uuid-0"%string]
  /\ fst second = Ok ["uuid-1"%string]
  /\ points (snd second)
     = <["uuid-1"%string := make_point "uuid-1" sample_chunk [2%Q]]>
         (<["uuid-0"%string := make_point "uuid-0" sample_chunk [1%Q]]> ∅)
  /\ points (snd second) !! "uuid-1"%string
     = Some (make_point "uuid-1" sample_chunk [2%Q])
  /\ ("uuid-0"%string <> "uuid-1"%string ->
      points (snd second) !! "uuid-0"%string
      = Some (make_point "uuid-0" sample_chunk [1%Q]))
  /\ ("uuid-0"%string = "uuid-1"%string ->
      points (snd second)
      = <["uuid-0"%string := make_point "uuid-0" sample_chunk [2%Q]]> ∅).
Proof.
  apply (add_documents_twice empty_store sample_chunk [1%Q] [2%Q]).
  reflexivity.
Defined.

(** C4 fails as stated: the same chunk upserted twice leaves two stored
    points, the first still holding the vector of the first call. *)
Lemma same_chunk_twice_two_points :
  let first := add_documents empty_store [sample_chunk] [[1%Q]] in
  let second := add_documents (snd first) [sample_chunk] [[2%Q]] in
  size (points (snd second)) = 2%nat
  /\ (vector <$> points (snd second) !! "uuid-0"%string) = Some [1%Q]
  /\ (vector <$> points (snd second) !! "uuid-1"%string) = Some [2%Q]
  /\ (p_text ∘ payload <$> points (snd second) !! "uuid-0"%string)
     = Some (text sample_chunk)
  /\ (p_text ∘ payload <$> points (snd second) !! "uuid-1"%string)
     = Some (text sample_chunk).
Proof. vm_compute. repeat split. Qed.

(** ** The text that [stream_rag_response] saves *)

Lemma rev_cons_nonempty (a : ascii) word : rev word ++ [a] <> [].
Proof.
  intros H. apply (f_equal (@length ascii)) in H.
  rewrite length_app in H. simpl in H. lia.
Qed.

Lemma split_ws_from_words word s :
  Forall (fun c => isspace c = false) word ->
  Forall (fun w => w <> [] /\ Forall (fun c => isspace c = false) w)
    (split_ws_from word s).
Proof.
  revert word. induction s as [|c s IH]; intros word Hw; simpl.
  - destruct word as [|a word]; simpl; constructor; [|constructor].
    split; [apply rev_cons_nonempty|].
    change (rev word ++ [a]) with (rev (a :: word)).
    apply List.Forall_rev. exact Hw.
  - destruct (isspace c) eqn:Hc.
    + destruct word as [|a word]; simpl; [apply IH; constructor|].
      constructor; [|apply IH; constructor].
      split; [apply rev_cons_nonempty|].
      change (rev word ++ [a]) with (rev (a :: word)).
      apply List.Forall_rev. exact Hw.
    + apply IH. now constructor.
Qed.

Lemma lstrip_head_fixed c x : lstrip (c :: x) = c :: x -> isspace c = false.
Proof.
  simpl. destruct (isspace c); [|reflexivity]. intros H.
  pose proof (lstrip_length x) as Hlen. rewrite H in Hlen. simpl in Hlen.
  lia.
Qed.

Lemma lstrip_app_fixed x y :
  x <> [] -> lstrip x = x -> lstrip (x ++ y) = x ++ y.
Proof.
  intros Hne Hx. destruct x as [|c x]; [congruence|].
  apply lstrip_head_fixed in Hx. simpl. now rewrite Hx.
Qed.

Lemma word_trimmed w :
  w <> [] -> Forall (fun c => isspace c = false) w -> trimmed w.
Proof.
  intros Hne Hw. split.
  - destruct w as [|c w]; [congruence|].
    apply List.Forall_cons_iff in Hw as [Hc _]. simpl. now rewrite Hc.
  - apply List.Forall_rev in Hw.
    destruct (rev w) as [|c r] eqn:Hr.
    + apply (f_equal (@rev ascii)) in Hr. rewrite rev_involutive in Hr.
      simpl in Hr. congruence.
    + apply List.Forall_cons_iff in Hw as [Hc _]. simpl. now rewrite Hc.
Qed.

Lemma join_cons sep w ws :
  ws <> [] -> join sep (w :: ws) = w ++ sep ++ join sep ws.
Proof. destruct ws; [congruence|reflexivity]. Qed.

(** Words joined by single spaces have no white space at either end. *)
Lemma join_words_trimmed ws :
  ws <> [] ->
  Forall (fun w => w <> [] /\ Forall (fun c => isspace c = false) w) ws ->
  join (txt " ") ws <> [] /\ trimmed (join (txt " ") ws).
Proof.
  intros Hne Hws. induction Hws as [|w ws [Hw1 Hw2] Hws IH]; [congruence|].
  destruct ws as [|w' ws'].
  - simpl. split; [exact Hw1|now apply word_trimmed].
  - destruct IH as [IH1 [IH2 IH3]]; [discriminate|].
    rewrite join_cons by discriminate.
    destruct (word_trimmed w Hw1 Hw2) as [Hl _].
    split; [destruct w; [congruence|discriminate]|].
    split.
    + now apply lstrip_app_fixed.
    + rewrite !rev_app_distr, <- app_assoc.
      apply lstrip_app_fixed; [|exact IH3].
      intros H. apply IH1. apply (f_equal (@rev ascii)) in H.
      rewrite rev_involutive in H. exact H.
Qed.

Lemma full_response_concat ws acc :
  fold_left (fun acc word => acc ++ word ++ txt " ") ws acc
  = acc ++ concat (map (fun w => w ++ txt " ") ws).
Proof.
  revert acc. induction ws as [|w ws IH]; intros acc; simpl.
  - now rewrite app_nil_r.
  - rewrite IH. now rewrite <- !app_assoc.
Qed.

Lemma concat_words_join ws :
  ws <> [] ->
  concat (map (fun w => w ++ txt " ") ws) = join (txt " ") ws ++ txt " ".
Proof.
  induction ws as [|w ws IH]; [congruence|]. intros _.
  destruct ws as [|w' ws'].
  - simpl. now rewrite app_nil_r.
  - rewrite join_cons by discriminate.
    cbn [map concat]. cbn [map concat] in IH. rewrite IH by discriminate.
    now rewrite <- !app_assoc.
Qed.

Lemma strip_full_response ws :
  Forall (fun w => w <> [] /\ Forall (fun c => isspace c = false) w) ws ->
  strip (fold_left (fun acc word => acc ++ word ++ txt " ") ws [])
  = join (txt " ") ws.
Proof.
  intros Hws. rewrite full_response_concat. simpl app.
  destruct ws as [|w ws]; [reflexivity|].
  rewrite concat_words_join by discriminate.
  destruct (join_words_trimmed (w :: ws)) as [Hne [Hl Hr]];
    [discriminate|exact Hws|].
  unfold strip, rstrip.
  rewrite lstrip_app_fixed by assumption.
  rewrite rev_app_distr. change (rev (txt " ")) with (txt " ").
  change (txt " " ++ ?x) with (" "%char :: x).
  change (lstrip (" "%char :: ?x)) with (lstrip x).
  now rewrite Hr, rev_involutive.
Qed.

(** ** Empty retrieval *)

Lemma join_contains sep (parts : list pystr) part :
  In part parts -> exists before after, join sep parts = before ++ part ++ after.
Proof.
  induction parts as [|p ps IH]; [intros []|].
  intros [->|Hin].
  - destruct ps as [|q ps'].
    + exists [], []. simpl. now rewrite app_nil_r.
    + exists [], (sep ++ join sep (q :: ps')). reflexivity.
  - destruct ps as [|q ps']; [destruct Hin|].
    destruct (IH Hin) as (before & after & Hj).
    exists (p ++ sep ++ before), after.
    change (join sep (p :: q :: ps')) with (p ++ sep ++ join sep (q :: ps')).
    rewrite Hj. now rewrite <- !app_assoc.
Qed.

Lemma prepare_context_contains self (results : list (Payload * Q)) r :
  In r results ->
  exists before after,
    _prepare_context self results = before ++ p_text (fst r) ++ after.
Proof.
  intros Hin. apply list_elem_of_In, list_elem_of_lookup in Hin as [i Hi].
  unfold _prepare_context.
  match goal with
  | |- context [join newline (imap ?f results)] =>
      assert (Hpart : In (f i r) (imap f results))
  end.
  { apply list_elem_of_In, list_elem_of_lookup. exists i.
    now rewrite list_lookup_imap, Hi. }
  apply (join_contains newline) in Hpart as (before & after & ->).
  destruct r as [result score]. cbn [fst].
  match goal with
  | |- context [before ++ (?info ++ newline ++ _ ++ newline) ++ after] =>
      exists (before ++ info ++ newline), (newline ++ after)
  end.
  now rewrite <- !app_assoc.
Qed.

Lemma prepare_sources_cite self (results : list (Payload * Q)) s :
  In s (_prepare_sources self results) ->
  exists r, In r results /\ s_preview s = preview_of (p_text (fst r)).
Proof.
  unfold _prepare_sources. intros Hin.
  apply List.in_map_iff in Hin as ([result score] & <- & Hr).
  exists (result, score). split; [exact Hr|reflexivity].
Qed.

(** C5, as the code has it. When the search returns no candidate, the
    context is the empty string and it is placed in the system prompt like any
    other context; [query_knowledge_base] answers with what the generation
    capability says to the RAG messages, or with the fallback answer if that
    call raises an [Exception], in both cases with [sources = []], and it
    raises only if the fallback call raises too. [stream_rag_response] then
    yields the [sources] event, whose keys are [type], [sources] and
    [session_id], one event for each word and the [complete] event; no event
    has a [no_sources] key; the generator raises only if the save of the
    message raises. No source is cited; and in general every source that is
    cited previews the text of a retrieved result, which is part of the
    context. *)
Theorem empty_retrieval_answer
    (self : RAGService) (chat : ChatService) (query : pystr)
    (conversation_history : option (list Message))
    (filters : option (gmap string pyval)) (max_results : Z)
    (score_threshold : Q) (v : list Q) (session_id user_id : string) :
  generate_embedding (azure_ai self) query = Ok v ->
  search_similar self v (max_results * 2) score_threshold filters = Ok [] ->
  query_knowledge_base self query conversation_history filters max_results
    score_threshold
  = match generate_response (azure_ai self)
            (rag_messages query [] (default [] conversation_history)) with
    | Ok response => Ok (response, [])
    | Raise _ =>
        match generate_response (azure_ai self) (fallback_messages query) with
        | Ok fallback_response => Ok (fallback_response, [])
        | Raise e => Raise e
        end
    end
  /\ (forall hist,
        head (rag_messages query [] hist)
        = Some {| role := "system";
                  content := system_prompt_head ++ system_prompt_tail |})
  /\ _prepare_context self [] = []
  /\ _prepare_sources self [] = []
  /\ (forall response,
        stream_rag_response chat session_id user_id query response []
        = let words := split_ws response in
          let yielded :=
            sources_event session_id []
            :: map (chunk_event session_id) words in
          match save_chat_message_with_sources chat session_id user_id query
                  (join (txt " ") words) [] with
          | Ok message_id =>
              (yielded ++ [complete_event session_id message_id], Ok tt)
          | Raise e => (yielded, Raise e)
          end)
  /\ dom (sources_event session_id [])
     = ({["type"; "sources"; "session_id"]} : gset string)
  /\ sources_event session_id [] !! "sources" = Some (JSources [])
  /\ (forall response,
        Forall (fun ev => ev !! "no_sources" = None)
          (fst (stream_rag_response chat session_id user_id query response
                  [])))
  /\ (forall results s,
        In s (_prepare_sources self results) ->
        exists r before after,
          In r results
          /\ s_preview s = preview_of (p_text (fst r))
          /\ _prepare_context self results
             = before ++ p_text (fst r) ++ after).
Proof.
  intros Hemb Hsearch.
  split.
  { unfold query_knowledge_base, query_knowledge_base_try.
    rewrite Hemb. cbn. rewrite Hsearch. cbn.
    unfold slice_to. rewrite take_nil. cbn.
    unfold _generate_rag_response.
    destruct (generate_response _ _); [reflexivity|]. cbn.
    destruct (generate_response _ _); reflexivity. }
  split; [reflexivity|]. split; [reflexivity|]. split; [reflexivity|].
  split.
  { intros response. unfold stream_rag_response.
    rewrite strip_full_response; [reflexivity|].
    apply split_ws_from_words. constructor. }
  split.
  { unfold sources_event. rewrite !dom_insert_L, dom_empty_L. set_solver. }
  split; [reflexivity|]. split.
  { intros response. unfold stream_rag_response.
    assert (Hyield :
              Forall (fun ev : gmap string jval => ev !! "no_sources" = None)
                (sources_event session_id []
                 :: map (chunk_event session_id) (split_ws response))).
    { constructor; [reflexivity|].
      apply List.Forall_map, List.Forall_forall. reflexivity. }
    destruct (save_chat_message_with_sources _ _ _ _ _ _); cbn [fst];
      [|exact Hyield].
    apply Forall_app. split; [exact Hyield|].
    constructor; [reflexivity|constructor]. }
  intros results s Hs.
  destruct (prepare_sources_cite self results s Hs) as (r & Hr & Hprev).
  destruct (prepare_context_contains self results r Hr)
    as (before & after & Hctx).
  now exists r, before, after.
Qed.

Lemma empty_retrieval_answer_witness :
  query_knowledge_base nothing_found (txt "refund policy") None None 5
    (7 # 10)
  = Ok (txt "I found nothing on that.", [])
  /\ stream_rag_response chat_db "s1" "u1" (txt "refund policy")
       (txt "I found  nothing on that.") []
     = ([ sources_event "s1" [];
          chunk_event "s1" (txt "I"); chunk_event "s1" (txt "found");
          chunk_event "s1" (txt "nothing"); chunk_event "s1" (txt "on");
          chunk_event "s1" (txt "that.");
          complete_event "s1" "msg-1" ], Ok tt).
Proof.
  pose proof (empty_retrieval_answer nothing_found chat_db
                (txt "refund policy") None None 5 (7 # 10) [1%Q]
                "s1"%string "u1"%string eq_refl eq_refl)
    as (Hq & _ & _ & _ & Hstream & _).
  split; [exact Hq|]. rewrite Hstream. reflexivity.
Defined.

(** C5 fails as stated. With no retrieved result the first streamed event has
    no [no_sources] flag; the generation capability still receives the system
    prompt with its context section; the query raises when the generation
    capability is down; and the stream raises when the message cannot be
    saved. *)
Lemma empty_retrieval_no_flag :
  let out :=
    stream_rag_response chat_db "s1" "u1" (txt "refund policy")
      (txt "I found nothing on that.") [] in
  (head (fst out) ≫= (fun ev => ev !! "no_sources")) = None
  /\ (head (fst out) ≫= (fun ev => ev !! "sources")) = Some (JSources [])
  /\ (forall v, (head (fst out) ≫= (fun ev => ev !! "no_sources"))
                <> Some v)
  /\ head (rag_messages (txt "refund policy")
             (_prepare_context nothing_found []) [])
     = Some {| role := "system";
               content := system_prompt_head ++ system_prompt_tail |}
  /\ search_similar generation_down [1%Q] 10 (7 # 10) None = Ok []
  /\ query_knowledge_base generation_down (txt "refund policy") None None 5
       (7 # 10)
     = Raise (Exn "APIError" "generation failed")
  /\ snd (stream_rag_response chat_db_down "s1" "u1" (txt "refund policy")
            (txt "I found nothing on that.") [])
     = Raise (Exn "ServerSelectionTimeoutError" "no server").
Proof.
  vm_compute. repeat split. intros v. discriminate.
Qed.

(** ** Errors of an indexing job *)

Section Job.
Variable self : IndexingService.
Variable outcome : string -> result bool.
Hypothesis update_ok : forall job, _update_job_status self job = Ok tt.
Hypothesis index_outcome :
  forall file_path job, _index_single_file self file_path job
                        = outcome file_path.

Lemma tally_app fs1 fs2 job :
  tally outcome (fs1 ++ fs2) job = tally outcome fs2 (tally outcome fs1 job).
Proof. apply fold_left_app. Qed.

Lemma tally_set_progress p fs job :
  tally outcome fs (set_progress p job)
  = set_progress p (tally outcome fs job).
Proof.
  revert job. induction fs as [|f fs IH]; intros job; [reflexivity|].
  simpl. destruct (outcome f); rewrite <- IH; reflexivity.
Qed.

Lemma tally_total_files fs job :
  total_files (tally outcome fs job) = total_files job.
Proof.
  revert job. induction fs as [|f fs IH]; intros job; [reflexivity|].
  simpl. rewrite IH. now destruct (outcome f).
Qed.

Lemma tally_status fs job : status (tally outcome fs job) = status job.
Proof.
  revert job. induction fs as [|f fs IH]; intros job; [reflexivity|].
  simpl. rewrite IH. now destruct (outcome f).
Qed.

Lemma tally_processed fs job :
  processed_files (tally outcome fs job)
  = processed_files job
    + len (List.filter (fun f => is_ok (outcome f)) fs).
Proof.
  revert job. induction fs as [|f fs IH]; intros job; simpl.
  - unfold len. simpl. lia.
  - rewrite IH. destruct (outcome f); simpl; unfold len; simpl; lia.
Qed.

Lemma tally_errors fs job :
  errors (tally outcome fs job) = errors job ++ failures outcome fs.
Proof.
  revert job. induction fs as [|f fs IH]; intros job; simpl.
  - now rewrite app_nil_r.
  - rewrite IH. destruct (outcome f); simpl; [reflexivity|].
    now rewrite <- app_assoc.
Qed.

Lemma record_results_tally batch job0 job :
  record_results batch
    (map (fun file_path => _index_single_file self file_path job0) batch)
    job
  = tally outcome batch job.
Proof.
  unfold record_results, tally. revert job.
  induction batch as [|f fs IH]; intros job; [reflexivity|].
  simpl. rewrite index_outcome. apply IH.
Qed.

(** The loop of [_process_files_batch] and its consumer: all batches are
    processed, whatever their outcomes. *)
Lemma process_loop files batch_size idxs (m : jobM unit) job0 job :
  m job0 = (Ok tt, job) ->
  (idxs <> [] -> total_files job <> 0) ->
  exists p,
    fold_left (next_batch self files batch_size) idxs m job0
    = (Ok tt,
       set_progress p
         (tally outcome
            (concat (map (fun i => slice files (Z.of_nat i)
                                     (Z.of_nat i + batch_size)) idxs))
            job)).
Proof.
  revert m job. induction idxs as [|i idxs IH]; intros m job Hm Htot.
  - exists (progress job). simpl. rewrite Hm. now destruct job.
  - simpl fold_left.
    assert (Htot' : total_files job <> 0) by now apply Htot.
    set (batch := slice files (Z.of_nat i) (Z.of_nat i + batch_size)).
    set (job1 := tally outcome batch job).
    set (p1 := ((inject_Z (processed_files job1)
                 / inject_Z (total_files job1)) * 100)%Q).
    destruct (IH (next_batch self files batch_size m i)
                (set_progress p1 job1)) as [p Hp].
    + unfold next_batch. run_job. rewrite Hm.
      unfold process_batch.
      rewrite record_results_tally. fold batch. fold job1.
      destruct (Z.eqb_spec (total_files job1) 0) as [H0|_].
      * unfold job1 in H0. rewrite tally_total_files in H0. contradiction.
      * rewrite update_ok. reflexivity.
    + intros _. simpl. unfold job1. now rewrite tally_total_files.
    + exists p. rewrite Hp. f_equal.
      cbn [map concat]. fold batch.
      rewrite tally_app, tally_set_progress. fold job1.
      now destruct (tally outcome _ job1).
Qed.
End Job.

Lemma range0_nonempty n step idxs :
  range0 n step = Ok idxs -> idxs <> [] -> n <> 0%nat.
Proof.
  unfold range0. intros Hr Hne ->.
  destruct (Z.eqb_spec step 0); [discriminate|].
  destruct (Z.ltb_spec step 0).
  - injection Hr as <-. now apply Hne.
  - injection Hr as <-. apply Hne.
    unfold range_len. simpl Z.of_nat.
    rewrite Z.div_small by lia. reflexivity.
Qed.

(** C6, as the code has it: when the files are discovered, the batch size is
    positive and the job can be persisted, every file of every batch is
    indexed whatever the outcome of the others: the failing files are
    recorded in [job.errors], in order, the others are counted in
    [processed_files], and the job ends with the status [completed]. *)
Theorem job_accumulates_errors
    (self : IndexingService) (outcome : string -> result bool)
    (id : string) (cfg : gmap string pyval) (files : list string)
    (batch_size : Z) :
  (forall job, _update_job_status self job = Ok tt) ->
  (forall file_path job,
     _index_single_file self file_path job = outcome file_path) ->
  _discover_files self cfg = Ok files ->
  batch_size_of cfg = Ok batch_size ->
  0 < batch_size ->
  let out := _execute_indexing_job self (new_job id cfg) in
  fst out = Ok tt
  /\ status (snd out) = "completed"
  /\ total_files (snd out) = len files
  /\ processed_files (snd out)
     = len (List.filter (fun f => is_ok (outcome f)) files)
  /\ errors (snd out) = failures outcome files.
Proof.
  intros Hupd Hidx Hdisc Hbs Hpos.
  destruct (range0_batches files batch_size Hpos) as (idxs & Hr & Hcat).
  set (job_start :=
         set_total_files (len files)
           (set_start_time (utcnow self)
              (set_status "running" (new_job id cfg)))).
  destruct (process_loop self outcome Hupd Hidx files batch_size idxs
              (ret tt) job_start job_start eq_refl) as [p Hp].
  { intros Hne. apply (range0_nonempty _ _ _ Hr) in Hne.
    simpl. unfold len. lia. }
  rewrite Hcat in Hp.
  assert (Htry : execute_try self (new_job id cfg)
                 = (Ok tt,
                    set_end_time (utcnow self)
                      (set_status "completed"
                         (set_progress p (tally outcome files job_start))))).
  { unfold execute_try, process_files. run_job. cbn.
    rewrite !Hupd, Hdisc. cbn. rewrite !Hupd, Hbs, Hr.
    fold job_start. unfold ret in Hp. rewrite Hp. reflexivity. }
  unfold _execute_indexing_job. cbv zeta. rewrite Htry.
  unfold lift. rewrite Hupd. cbn [fst snd].
  split; [reflexivity|]. split; [reflexivity|].
  cbn [total_files processed_files errors set_end_time set_status
       set_progress].
  rewrite tally_total_files, tally_processed, tally_errors.
  cbn. repeat split; lia.
Qed.

Lemma job_accumulates_errors_witness :
  let out := _execute_indexing_job three_files (new_job "idx_1" batches_of_one) in
  fst out = Ok tt
  /\ status (snd out) = "completed"%string
  /\ total_files (snd out) = len ["a.pdf"; "b.pdf"; "c.pdf"]%string
  /\ processed_files (snd out)
     = len (List.filter (fun f => is_ok (second_fails f))
              ["a.pdf"; "b.pdf"; "c.pdf"]%string)
  /\ errors (snd out)
     = failures second_fails ["a.pdf"; "b.pdf"; "c.pdf"]%string.
Proof.
  apply (job_accumulates_errors three_files second_fails "idx_1"
           batches_of_one ["a.pdf"; "b.pdf"; "c.pdf"]%string 1).
  - intros job. reflexivity.
  - intros file_path job. reflexivity.
  - reflexivity.
  - reflexivity.
  - lia.
Defined.

(** C6 fails as stated: the second of three batches fails, the other two are
    indexed, the failure is recorded, and the job ends with the status
    [completed]. *)
Lemma partial_failure_is_completed :
  let out := _execute_indexing_job three_files (new_job "idx_1" batches_of_one) in
  status (snd out) = "completed"%string
  /\ status (snd out) <> "completed_with_errors"%string
  /\ processed_files (snd out) = 2
  /\ errors (snd out) = ["Error processing b.pdf: embedding failed"%string].
Proof.
  vm_compute. repeat split. discriminate.
Qed.

(** * Further properties *)

#[local] Set Warnings "-clear-no-such-hyp".

(** ** The semantic strategy *)

(** X1. The semantic strategy gives no chunk for the empty text, whatever the
    tokenizer counts for it. *)
Theorem semantic_empty_text (self : Sem.t) (md : gmap string pyval) :
  Sem.chunk_text self [] md = [].
Proof.
  unfold Sem.chunk_text, Sem.run_paragraphs.
  cbn [split_paragraphs fold_left]. unfold Sem.paragraph_step.
  destruct (_ >? _); [reflexivity|].
  unfold Sem.accumulate. cbn. now rewrite andb_false_r.
Qed.

Lemma trimmed_first s c s' : trimmed s -> s = c :: s' -> isspace c = false.
Proof.
  intros [H _] ->. simpl in H. destruct (isspace c); [|reflexivity].
  pose proof (lstrip_length s') as Hlen. rewrite H in Hlen. simpl in Hlen.
  lia.
Qed.

Lemma trimmed_last s c s' : trimmed s -> s = s' ++ [c] -> isspace c = false.
Proof.
  intros [_ H] ->. rewrite rev_app_distr in H. simpl in H.
  destruct (isspace c); [|reflexivity].
  pose proof (lstrip_length (rev s')) as Hlen. rewrite H in Hlen.
  simpl in Hlen. lia.
Qed.

(** X3. No chunk text of the semantic strategy starts or ends with white
    space. *)
Theorem semantic_chunks_trimmed
    (self : Sem.t) (text : pystr) (md : gmap string pyval) :
  Forall
    (fun c =>
       (forall a s, Chunking.text c = a :: s -> isspace a = false)
       /\ (forall a s, Chunking.text c = s ++ [a] -> isspace a = false))
    (Sem.chunk_text self text md).
Proof.
  apply List.Forall_forall. intros c Hin.
  destruct (chunk_text_good self text md c Hin) as (p0 & rest & i & -> & _).
  simpl. split; intros a s Hs.
  - eapply trimmed_first; [apply strip_trimmed|exact Hs].
  - eapply trimmed_last; [apply strip_trimmed|exact Hs].
Qed.

(** X4. Every chunk of the semantic strategy carries the metadata it was given:
    only the entries [chunk_index] and [token_count] are written. *)
Theorem semantic_chunks_inherit_metadata
    (self : Sem.t) (text : pystr) (md : gmap string pyval) :
  Forall
    (fun c =>
       forall key : string,
         key <> "chunk_index"%string -> key <> "token_count"%string ->
         metadata c !! key = md !! key)
    (Sem.chunk_text self text md).
Proof.
  apply List.Forall_forall. intros c Hin key Hk1 Hk2.
  destruct (chunk_text_good self text md c Hin) as (p0 & rest & i & -> & _).
  simpl. now rewrite !lookup_insert_ne by congruence.
Qed.

(** ** The fixed-size strategy *)

Lemma fixed_fold_imap self tokens md idxs cs :
  fold_left (Fix.append_chunk self tokens md) idxs cs
  = cs ++ imap (fun j i => fixed_chunk self tokens md (length cs + j) i) idxs.
Proof.
  revert cs. induction idxs as [|i idxs IH]; intros cs; simpl.
  - now rewrite app_nil_r.
  - rewrite IH. unfold Fix.append_chunk at 1.
    rewrite <- app_assoc. f_equal. simpl. f_equal.
    + unfold fixed_chunk, len. now rewrite Nat.add_0_r.
    + apply imap_ext. intros j x _. unfold Fix.append_chunk, compose.
      rewrite length_app. simpl. f_equal. lia.
Qed.

Lemma range_len_below (n : nat) (step : Z) (k : nat) :
  0 < step -> (k < range_len n step)%nat -> (k * Z.to_nat step < n)%nat.
Proof.
  intros Hs Hk. unfold range_len in Hk.
  pose proof (Z.div_mod (Z.of_nat n + step - 1) step ltac:(lia)) as Hdm.
  pose proof (Z.mod_pos_bound (Z.of_nat n + step - 1) step Hs) as Hm.
  assert (0 <= (Z.of_nat n + step - 1) / step) by (apply Z.div_pos; lia).
  nia.
Qed.

Lemma fixed_window_take_drop self tokens i :
  0 <= Fix.chunk_size self ->
  Fix.window self tokens i
  = take (Z.to_nat (Fix.chunk_size self)) (drop i tokens).
Proof.
  intros Hc. unfold Fix.window.
  rewrite <- slice_take_drop. f_equal. lia.
Qed.

(** X5. With a positive window size and a smaller overlap, the fixed-size
    strategy returns [ceil(len(tokens) / step)] chunks; the [k]-th starts at
    token [k * step], holds between one and [chunk_size] tokens, and its
    [end_token] is its start plus its token count, within the text. *)
Theorem fixed_chunk_bounds
    (self : Fix.t) (text : pystr) (md : gmap string pyval) :
  0 < Fix.chunk_size self ->
  Fix.overlap self < Fix.chunk_size self ->
  let tokens := encode (Fix.tokenizer self) text in
  exists cs,
    Fix.chunk_text self text md = Ok cs
    /\ length cs
       = range_len (length tokens) (Fix.chunk_size self - Fix.overlap self)
    /\ forall k c,
         cs !! k = Some c ->
         exists t,
           metadata c !! "chunk_index" = Some (VInt (Z.of_nat k))
           /\ metadata c !! "start_token"
              = Some (VInt (Z.of_nat (k * fixed_step self)))
           /\ metadata c !! "token_count" = Some (VInt t)
           /\ metadata c !! "end_token"
              = Some (VInt (Z.of_nat (k * fixed_step self) + t))
           /\ 1 <= t <= Fix.chunk_size self
           /\ Z.of_nat (k * fixed_step self) + t <= len tokens.
Proof.
  intros Hsize Hov tokens.
  set (step := Fix.chunk_size self - Fix.overlap self).
  assert (Hstep : 0 < step) by (unfold step; lia).
  unfold Fix.chunk_text, Fix.starts, range0. fold tokens. fold step.
  destruct (Z.eqb_spec step 0); [lia|].
  destruct (Z.ltb_spec step 0); [lia|].
  eexists. split; [reflexivity|].
  rewrite fixed_fold_imap. cbn [app length Nat.add].
  split; [now rewrite length_imap, length_map, length_seq|].
  intros k c Hk.
  rewrite list_lookup_imap in Hk.
  destruct (_ !! k) as [i|] eqn:Hi; [|discriminate].
  injection Hk as <-.
  change (map ?f ?l) with (f <$> l) in Hi.
  rewrite list_lookup_fmap in Hi.
  destruct (seq 0 _ !! k) as [k'|] eqn:Hseq; [|discriminate].
  apply lookup_seq in Hseq as [-> Hlt]. simpl in Hi. injection Hi as <-.
  pose proof (range_len_below _ _ _ Hstep Hlt) as Hbelow.
  exists (len (Fix.window self tokens (k * Z.to_nat step))).
  unfold fixed_chunk, fixed_step. fold step. cbn [metadata].
  split; [now rewrite !lookup_insert_ne by done; rewrite lookup_insert_eq|].
  split; [now rewrite lookup_insert_ne by done; rewrite lookup_insert_eq|].
  split; [now rewrite !lookup_insert_ne by done; rewrite lookup_insert_eq|].
  split; [now rewrite lookup_insert_eq|].
  rewrite fixed_window_take_drop by lia.
  unfold len. rewrite length_take, length_drop. lia.
Qed.

(** X6. When the overlap is not below the window size the fixed-size strategy
    covers nothing: an overlap equal to the size makes [range] raise
    [ValueError], a greater one gives an empty chunk list for every text. *)
Theorem fixed_degenerate_step
    (self : Fix.t) (text : pystr) (md : gmap string pyval) :
  Fix.chunk_size self <= Fix.overlap self ->
  Fix.chunk_text self text md
  = if decide (Fix.chunk_size self = Fix.overlap self)
    then Raise (Exn "ValueError" "range() arg 3 must not be zero")
    else Ok [].
Proof.
  intros Hle. unfold Fix.chunk_text, Fix.starts, range0.
  destruct (Z.eqb_spec (Fix.chunk_size self - Fix.overlap self) 0) as [H0|H0];
    destruct (decide (Fix.chunk_size self = Fix.overlap self)) as [He|He];
    try lia; [reflexivity|].
  destruct (Z.ltb_spec (Fix.chunk_size self - Fix.overlap self) 0); [|lia].
  reflexivity.
Qed.

Lemma fixed_degenerate_step_witness :
  Fix.chunk_text
    {| Fix.chunk_size := 4; Fix.overlap := 6; Fix.tokenizer := char_tokenizer |}
    (txt "0123456789") ∅
  = Ok [].
Proof.
  apply (fixed_degenerate_step
           {| Fix.chunk_size := 4; Fix.overlap := 6;
              Fix.tokenizer := char_tokenizer |} (txt "0123456789") ∅).
  simpl. lia.
Defined.

Lemma fixed_chunk_bounds_witness :
  exists cs,
    Fix.chunk_text small_fixed (txt "0123456789") ∅ = Ok cs
    /\ length cs = 5%nat.
Proof.
  destruct (fixed_chunk_bounds small_fixed (txt "0123456789") ∅
              ltac:(simpl; lia) ltac:(simpl; lia)) as (cs & Hcs & Hlen & _).
  exists cs. split; [exact Hcs|exact Hlen].
Defined.

(** X7. Consecutive windows of the fixed-size strategy share the overlap: the
    first [overlap] tokens of a window are the tokens of the window before it
    from position [step] on. *)
Theorem fixed_windows_share_overlap
    (self : Fix.t) (tokens : list Z) (k : nat) :
  0 <= Fix.overlap self < Fix.chunk_size self ->
  take (Z.to_nat (Fix.overlap self))
    (Fix.window self tokens ((k + 1) * fixed_step self))
  = drop (fixed_step self) (Fix.window self tokens (k * fixed_step self)).
Proof.
  intros Ho. rewrite !fixed_window_take_drop by lia.
  unfold fixed_step.
  set (s := Z.to_nat (Fix.chunk_size self - Fix.overlap self)).
  set (o := Z.to_nat (Fix.overlap self)).
  replace (Z.to_nat (Fix.chunk_size self)) with (s + o)%nat
    by (unfold s, o; lia).
  rewrite take_take, <- take_drop_commute, drop_drop.
  replace (o `min` (s + o))%nat with o by lia.
  do 2 f_equal. lia.
Qed.

Lemma fixed_windows_share_overlap_witness :
  take 2 (Fix.window small_fixed [0; 1; 2; 3; 4; 5; 6; 7; 8; 9] 2)
  = drop 2 (Fix.window small_fixed [0; 1; 2; 3; 4; 5; 6; 7; 8; 9] 0).
Proof.
  apply (fixed_windows_share_overlap small_fixed
           [0; 1; 2; 3; 4; 5; 6; 7; 8; 9] 0).
  simpl. lia.
Defined.

(** ** The vector store *)

Lemma build_points_ids self pairs :
  map id (build_points self pairs) = drawn_ids self (length pairs).
Proof.
  unfold build_points, drawn_ids.
  rewrite <- imap_seq_0.
  change (map id ?l) with (id <$> l). rewrite fmap_imap.
  apply imap_ext. intros k [c e] _. reflexivity.
Qed.

Lemma upsert_snoc m pts p :
  upsert m (pts ++ [p]) = <[id p := p]> (upsert m pts).
Proof. unfold upsert. now rewrite fold_left_app. Qed.

Lemma upsert_lookup_other m pts i :
  i ∉ map id pts -> upsert m pts !! i = m !! i.
Proof.
  induction pts as [|p pts IH] using rev_ind; intros Hi; [reflexivity|].
  rewrite map_app in Hi. simpl in Hi.
  rewrite upsert_snoc, lookup_insert_ne by set_solver.
  apply IH. set_solver.
Qed.

Lemma upsert_lookup_in m pts k p :
  NoDup (map id pts) -> pts !! k = Some p -> upsert m pts !! id p = Some p.
Proof.
  revert k. induction pts as [|q pts IH] using rev_ind; intros k Hnd Hk;
    [discriminate|].
  rewrite map_app in Hnd. simpl in Hnd.
  apply NoDup_app in Hnd as (Hnd & Hq & _).
  rewrite upsert_snoc.
  destruct (decide (k < length pts)%nat) as [Hlt|Hge].
  - rewrite lookup_app_l in Hk by exact Hlt.
    rewrite lookup_insert_ne; [now apply (IH k)|].
    intros Heq. apply (Hq (id p)); [|rewrite Heq; set_solver].
    apply list_elem_of_fmap_2, list_elem_of_lookup. eauto.
  - rewrite lookup_app_r in Hk by lia.
    destruct (k - length pts)%nat; [|discriminate].
    injection Hk as <-. apply lookup_insert_eq.
Qed.

Lemma upsert_size m pts :
  NoDup (map id pts) ->
  (forall i, i ∈ map id pts -> m !! i = None) ->
  size (upsert m pts) = (size m + length pts)%nat.
Proof.
  induction pts as [|q pts IH] using rev_ind; intros Hnd Hfresh;
    [simpl; lia|].
  rewrite map_app in Hnd, Hfresh. simpl in Hnd, Hfresh.
  apply NoDup_app in Hnd as (Hnd & Hq & _).
  rewrite upsert_snoc, map_size_insert_None, IH, length_app; simpl.
  - lia.
  - exact Hnd.
  - intros i Hi. apply Hfresh. set_solver.
  - rewrite upsert_lookup_other; [apply Hfresh; set_solver|].
    intros Hin. apply (Hq (id q)); [exact Hin|set_solver].
Qed.

(** X8. [add_documents] draws one identifier for each (chunk, embedding) pair of
    the [zip]: chunks beyond the embeddings, or embeddings beyond the chunks,
    are left out without an error. It returns the identifiers drawn, in
    order; if the server cannot be reached it raises and stores nothing. *)
Theorem add_documents_ids
    (self : QdrantVectorStore) (chunks : list Chunk)
    (embeddings : list (list Q)) :
  let out := add_documents self chunks embeddings in
  let n := (length chunks `min` length embeddings)%nat in
  uuid_calls (snd out) = (uuid_calls self + n)%nat
  /\ match fst out with
     | Ok point_ids => reachable self = true /\ point_ids = drawn_ids self n
     | Raise _ => reachable self = false /\ points (snd out) = points self
     end.
Proof.
  unfold add_documents. rewrite build_points_ids, length_zip.
  destruct (reachable self); simpl; auto.
Qed.

(** X9. After a successful [add_documents] whose identifiers are distinct, every
    pair is stored under its identifier with its text, vector and metadata,
    every point stored under another identifier is as before, and if the
    identifiers were free the collection has grown by the number of pairs. *)
Theorem add_documents_lookup
    (self : QdrantVectorStore) (chunks : list Chunk)
    (embeddings : list (list Q)) :
  reachable self = true ->
  let n := (length chunks `min` length embeddings)%nat in
  NoDup (drawn_ids self n) ->
  let after := points (snd (add_documents self chunks embeddings)) in
  (forall k chunk embedding,
     zip chunks embeddings !! k = Some (chunk, embedding) ->
     after !! uuid4 self (uuid_calls self + k)
     = Some (make_point (uuid4 self (uuid_calls self + k)) chunk embedding))
  /\ (forall i, i ∉ drawn_ids self n -> after !! i = points self !! i)
  /\ ((forall i, i ∈ drawn_ids self n -> points self !! i = None) ->
      size after = (size (points self) + n)%nat).
Proof.
  intros Hr n Hnd after. unfold after, add_documents. rewrite Hr.
  cbn [snd points].
  pose proof (build_points_ids self (zip chunks embeddings)) as Hids.
  rewrite length_zip in Hids. fold n in Hids.
  split; [|split].
  - intros k chunk embedding Hk.
    apply (upsert_lookup_in _ _ k
             (make_point (uuid4 self (uuid_calls self + k)) chunk embedding)).
    + now rewrite Hids.
    + unfold build_points. rewrite list_lookup_imap, Hk. reflexivity.
  - intros i Hi. apply upsert_lookup_other. now rewrite Hids.
  - intros Hfresh. rewrite upsert_size.
    + f_equal. unfold build_points.
      rewrite length_imap, length_zip. reflexivity.
    + now rewrite Hids.
    + intros i Hi. apply Hfresh. now rewrite <- Hids.
Qed.

Lemma add_documents_lookup_witness :
  points (snd (add_documents empty_store [sample_chunk] [[1%Q]]))
    !! "uuid-0"%string
  = Some (make_point "uuid-0" sample_chunk [1%Q]).
Proof.
  destruct (add_documents_lookup empty_store [sample_chunk] [[1%Q]] eq_refl)
    as (Hin & _ & _).
  - vm_compute. repeat constructor. intros H. inversion H.
  - exact (Hin 0%nat sample_chunk [1%Q] eq_refl).
Defined.

Lemma filter_upsert_selected m pts document_id :
  (forall p, p ∈ pts -> selects document_id p) ->
  (forall p, p ∈ pts -> m !! id p = None) ->
  (forall i p, m !! i = Some p -> ¬ selects document_id p) ->
  filter (fun kv : string * PointStruct => ¬ selects document_id kv.2)
    (upsert m pts)
  = m.
Proof.
  intros Hsel Hfresh Hold.
  induction pts as [|q pts IH] using rev_ind.
  - apply map_filter_id. intros i p Hp. simpl. eapply Hold, Hp.
  - rewrite upsert_snoc, map_filter_insert_False.
    + rewrite map_filter_delete, IH.
      * apply delete_id, Hfresh. set_solver.
      * intros p Hp. apply Hsel. set_solver.
      * intros p Hp. apply Hfresh. set_solver.
    + simpl. intros Hn. apply Hn, Hsel. set_solver.
Qed.

(** X10. Deleting a document keeps the points of the other documents and no
    other point; and deleting the document whose chunks were just added, on a
    collection that held nothing of it and under identifiers that were free,
    gives back the collection as it was. *)
Theorem delete_document_undoes_add
    (self : QdrantVectorStore) (document_id : string) (chunks : list Chunk)
    (embeddings : list (list Q)) :
  reachable self = true ->
  (forall c, c ∈ chunks ->
     metadata c !! "document_id" = Some (VStr (txt document_id))) ->
  (forall i p, points self !! i = Some p -> ¬ selects document_id p) ->
  (forall i,
     i ∈ drawn_ids self (length chunks `min` length embeddings) ->
     points self !! i = None) ->
  let added := snd (add_documents self chunks embeddings) in
  let deleted := delete_document added document_id in
  fst deleted = Ok tt
  /\ (forall i p,
        points (snd deleted) !! i = Some p
        <-> points added !! i = Some p /\ ¬ selects document_id p)
  /\ points (snd deleted) = points self.
Proof.
  intros Hr Hdoc Hold Hfresh added deleted.
  assert (Hra : reachable added = true).
  { unfold added, add_documents. now rewrite Hr. }
  unfold deleted, delete_document. rewrite Hra. cbn [fst snd points].
  split; [reflexivity|]. split.
  - intros i p. rewrite map_lookup_filter_Some. simpl. reflexivity.
  - unfold added, add_documents. rewrite Hr. cbn [snd points].
    apply filter_upsert_selected.
    + intros p Hp. unfold build_points in Hp.
      apply list_elem_of_lookup in Hp as [k Hk].
      rewrite list_lookup_imap in Hk.
      destruct (zip chunks embeddings !! k) as [[c e]|] eqn:Hz;
        [|discriminate].
      injection Hk as <-. unfold selects. simpl.
      apply Hdoc. apply list_elem_of_lookup_2 in Hz.
      apply (elem_of_zip_l _ _ _ _ Hz).
    + intros p Hp. apply Hfresh.
      rewrite <- length_zip, <- build_points_ids.
      now apply list_elem_of_fmap_2.
    + exact Hold.
Qed.

Lemma delete_document_undoes_add_witness :
  points
    (snd (delete_document
            (snd (add_documents empty_store [sample_chunk] [[1%Q]])) "doc_1"))
  = ∅.
Proof.
  destruct (delete_document_undoes_add empty_store "doc_1" [sample_chunk]
              [[1%Q]]) as (_ & _ & H).
  - reflexivity.
  - intros c Hc. apply list_elem_of_singleton in Hc. now subst c.
  - intros i p Hp. unfold empty_store in Hp. cbn [points] in Hp.
    now rewrite lookup_empty in Hp.
  - intros i _. apply lookup_empty.
  - exact H.
Defined.

(** ** Reranking *)










(** ** Querying *)

(** X13. An [Exception] that [query_knowledge_base] raises is the one its
    fallback generation call raised: every [Exception] of the embedding, the
    search or the RAG generation is caught by [except Exception], and an
    answer is returned as long as the fallback generation answers. *)
Theorem query_raises_only_fallback_error
    (self : RAGService) (query : pystr)
    (conversation_history : option (list Message))
    (filters : option (gmap string pyval)) (max_results : Z)
    (score_threshold : Q) (e : exn) :
  query_knowledge_base self query conversation_history filters max_results
    score_threshold = Raise e ->
  generate_response (azure_ai self) (fallback_messages query) = Raise e.
Proof.
  unfold query_knowledge_base, try_except.
  destruct (query_knowledge_base_try _ _ _ _ _ _); [discriminate|].
  cbn. destruct (generate_response _ _); cbn; congruence.
Qed.

Lemma query_raises_only_fallback_error_witness :
  generate_response (azure_ai offline) (fallback_messages (txt "refund"))
  = Raise (Exn "APIError" "generation failed").
Proof.
  apply (query_raises_only_fallback_error offline (txt "refund") None None 5
           (7 # 10)).
  reflexivity.
Defined.

Lemma prepare_sources_length self results :
  length (_prepare_sources self results) = length results.
Proof. unfold _prepare_sources. apply length_map. Qed.

(** X14. For a non-negative [max_results], an answer of [query_knowledge_base]
    cites at most [max_results] sources. *)
Theorem query_sources_bounded
    (self : RAGService) (query : pystr)
    (conversation_history : option (list Message))
    (filters : option (gmap string pyval)) (max_results : Z)
    (score_threshold : Q) (response : pystr) (sources : list Source) :
  0 <= max_results ->
  query_knowledge_base self query conversation_history filters max_results
    score_threshold = Ok (response, sources) ->
  (length sources <= Z.to_nat max_results)%nat.
Proof.
  intros Hk. unfold query_knowledge_base, query_knowledge_base_try, try_except.
  destruct (generate_embedding _ _) as [v|e1]; cbn.
  - destruct (search_similar _ _ _ _ _) as [found|e2]; cbn.
    + destruct (_generate_rag_response _ _ _ _) as [r|e3]; cbn.
      * intros [= <- <-]. rewrite prepare_sources_length, slice_to_take by lia.
        rewrite length_take. lia.
      * destruct (generate_response _ _); cbn; [|discriminate].
        intros [= <- <-]. simpl. lia.
    + destruct (generate_response _ _); cbn; [|discriminate].
      intros [= <- <-]. simpl. lia.
  - destruct (generate_response _ _); cbn; [|discriminate].
    intros [= <- <-]. simpl. lia.
Qed.

Lemma query_sources_bounded_witness :
  let answer :=
    query_knowledge_base three_found (txt "refund policy") None None 2
      (7 # 10) in
  let sources :=
    match answer with Ok (_, sources) => sources | Raise _ => [] end in
  (exists found,
     search_similar three_found [1%Q] 4 (7 # 10) None = Ok found
     /\ length found = 3%nat)
  /\ length sources = 2%nat
  /\ (length sources <= Z.to_nat 2)%nat.
Proof.
  intros answer sources. split; [eexists; split; reflexivity|].
  split; [reflexivity|].
  apply (query_sources_bounded three_found (txt "refund policy") None None
           2 (7 # 10)
           (match answer with Ok (response, _) => response | Raise _ => [] end)
           sources).
  - lia.
  - vm_compute. reflexivity.
Defined.

Lemma slice_from_last {A} (l : list A) (k : nat) :
  (0 < k)%nat -> slice_from l (- Z.of_nat k) = drop (length l - k) l.
Proof.
  intros Hk. unfold slice_from, slice_bound.
  destruct (Z.ltb_spec (- Z.of_nat k) 0); [|lia].
  f_equal. lia.
Qed.

(** X15. The messages sent for a RAG answer are the system prompt with the
    context, then the last five messages of the history in order (all of
    them if there are fewer), then the query as the user message. *)
Theorem rag_messages_window
    (query context : pystr) (conversation_history : list Message) :
  rag_messages query context conversation_history
  = {| role := "system";
       content := system_prompt_head ++ context ++ system_prompt_tail |}
    :: drop (length conversation_history - 5) conversation_history
    ++ [ {| role := "user"; content := query |} ]
  /\ (length (rag_messages query context conversation_history) <= 7)%nat.
Proof.
  unfold rag_messages.
  change (-5) with (- Z.of_nat 5).
  rewrite (slice_from_last conversation_history 5) by lia.
  split; [reflexivity|].
  simpl. rewrite length_app, length_drop. simpl. lia.
Qed.

(** X16. The preview of a source is the text of its chunk when the text has at
    most 200 characters, and its first 200 characters followed by three dots
    otherwise; it never exceeds 203 characters. *)
Theorem source_previews
    (self : RAGService) (results : list (Payload * Q)) :
  Forall2
    (fun r s =>
       (length (s_preview s) <= 203)%nat
       /\ ((length (p_text (fst r)) <= 200)%nat ->
           s_preview s = p_text (fst r))
       /\ ((200 < length (p_text (fst r)))%nat ->
           s_preview s = take 200 (p_text (fst r)) ++ txt "..."))
    results (_prepare_sources self results).
Proof.
  induction results as [|[p q] rs IH]; [constructor|].
  unfold _prepare_sources in *. cbn [map]. constructor; [|exact IH].
  cbn [fst s_preview]. unfold len.
  destruct (Z.gtb_spec (Z.of_nat (length (p_text p))) 200) as [Hgt|Hle].
  - rewrite slice_to_take by lia. change (Z.to_nat 200) with 200%nat.
    split; [|split]; [|lia|reflexivity].
    rewrite length_app, length_take.
    change (length (txt "...")) with 3%nat. lia.
  - split; [|split]; [lia|reflexivity|lia].
Qed.

(** ** Batched embedding: edge cases *)

(** X17. A batch size of zero makes the batched embedding raise [ValueError]; a
    negative one makes it return no vector at all, whatever the texts. *)
Theorem batched_embedding_nonpositive
    (self : RAGService) (texts : list pystr) (batch_size : Z) :
  batch_size <= 0 ->
  _generate_embeddings_batch self texts batch_size
  = if decide (batch_size = 0)
    then Raise (Exn "ValueError" "range() arg 3 must not be zero")
    else Ok [].
Proof.
  intros Hb. unfold _generate_embeddings_batch, range0.
  destruct (Z.eqb_spec batch_size 0) as [H0|H0];
    destruct (decide (batch_size = 0)); try lia; [reflexivity|].
  destruct (Z.ltb_spec batch_size 0); [reflexivity|lia].
Qed.

Lemma batched_embedding_nonpositive_witness :
  _generate_embeddings_batch nothing_found [txt "a"; txt "bb"] (-1) = Ok [].
Proof.
  apply (batched_embedding_nonpositive nothing_found [txt "a"; txt "bb"] (-1)).
  lia.
Defined.

Lemma gather_raises {A} (tasks : list (result A)) e :
  In (Raise e) tasks -> exists e', gather tasks = Raise e'.
Proof.
  induction tasks as [|t ts IH]; intros Hin; [destruct Hin|].
  simpl. destruct t as [a|e0]; [|now exists e0].
  destruct Hin as [Heq|Hin]; [discriminate|].
  destruct (IH Hin) as [e' He']. exists e'. cbn. now rewrite He'.
Qed.

Lemma embeddings_fold_raises self texts bs idxs e :
  fold_left
    (fun (acc : result (list (list Q))) (i : nat) =>
       embeddings ← acc;
       let batch := slice texts (Z.of_nat i) (Z.of_nat i + bs) in
       batch_embeddings ←
         gather (map (generate_embedding (azure_ai self)) batch);
       Ok (embeddings ++ batch_embeddings))
    idxs (Raise e)
  = Raise e.
Proof. induction idxs as [|i idxs IH]; [reflexivity|exact IH]. Qed.

Lemma embeddings_fold_fails self texts bs idxs acc t e :
  In t (concat (map (fun i => slice texts (Z.of_nat i) (Z.of_nat i + bs))
                    idxs)) ->
  generate_embedding (azure_ai self) t = Raise e ->
  exists e',
    fold_left
      (fun (acc : result (list (list Q))) (i : nat) =>
         embeddings ← acc;
         let batch := slice texts (Z.of_nat i) (Z.of_nat i + bs) in
         batch_embeddings ←
           gather (map (generate_embedding (azure_ai self)) batch);
         Ok (embeddings ++ batch_embeddings))
      idxs (Ok acc)
    = Raise e'.
Proof.
  intros Hin He. revert acc.
  induction idxs as [|i idxs IH]; intros acc; [destruct Hin|].
  simpl in Hin. apply in_app_or in Hin. simpl fold_left. cbn.
  destruct (gather _) as [vs|e0] eqn:Hg; cbn.
  - destruct Hin as [Hin|Hin]; [|now apply IH].
    destruct (gather_raises
                (map (generate_embedding (azure_ai self))
                   (slice texts (Z.of_nat i) (Z.of_nat i + bs))) e)
      as [e' He'].
    + rewrite <- He. now apply in_map.
    + congruence.
  - exists e0. apply embeddings_fold_raises.
Qed.

(** X18. The batched embedding gives no partial result: for a positive batch
    size, if the embedding of one of the texts raises, the call raises. *)
Theorem batched_embedding_fails_whole
    (self : RAGService) (texts : list pystr) (batch_size : Z) (t : pystr)
    (e : exn) :
  0 < batch_size ->
  In t texts ->
  generate_embedding (azure_ai self) t = Raise e ->
  exists e', _generate_embeddings_batch self texts batch_size = Raise e'.
Proof.
  intros Hb Hin He. unfold _generate_embeddings_batch.
  destruct (range0_batches texts batch_size Hb) as (idxs & Hr & Hcat).
  rewrite Hr. cbn.
  apply (embeddings_fold_fails self texts batch_size idxs [] t e);
    [now rewrite Hcat|exact He].
Qed.

Lemma batched_embedding_fails_whole_witness :
  exists e',
    _generate_embeddings_batch offline [txt "a"; txt "bb"; txt "ccc"] 2
    = Raise e'.
Proof.
  apply (batched_embedding_fails_whole offline [txt "a"; txt "bb"; txt "ccc"]
           2 (txt "bb")
           (Exn "EmbeddingServiceError" "embedding failed")).
  - lia.
  - right; left; reflexivity.
  - reflexivity.
Defined.

(** ** Streaming an answer *)

(** X19. [stream_rag_response] yields the sources first, then one chunk event for
    each word of the answer, and saves the words joined by single spaces:
    runs of white space in the answer, line breaks included, are not kept.
    The [complete] event follows only if the save succeeds; otherwise the
    generator raises after the last word. *)
Theorem stream_saves_joined_words
    (self : ChatService) (session_id user_id : string)
    (user_message rag_response : pystr) (sources : list Source) :
  stream_rag_response self session_id user_id user_message rag_response
    sources
  = let words := split_ws rag_response in
    let yielded :=
      sources_event session_id sources
      :: map (chunk_event session_id) words in
    match save_chat_message_with_sources self session_id user_id
            user_message (join (txt " ") words) sources with
    | Ok message_id =>
        (yielded ++ [complete_event session_id message_id], Ok tt)
    | Raise e => (yielded, Raise e)
    end.
Proof.
  unfold stream_rag_response.
  rewrite strip_full_response; [reflexivity|].
  apply split_ws_from_words. constructor.
Qed.

(** ** Indexing jobs: how a job ends *)

Lemma bindM_ok {A B} (m : jobM A) (k : A -> jobM B) job b job' :
  bindM m k job = (Ok b, job') ->
  exists a job1, m job = (Ok a, job1) /\ k a job1 = (Ok b, job').
Proof.
  unfold bindM. destruct (m job) as [[a|e] job1]; [|discriminate].
  intros H. now exists a, job1.
Qed.

Lemma execute_try_ok self job job' :
  execute_try self job = (Ok tt, job') ->
  status job' = "completed"%string /\ end_time job' = Some (utcnow self).
Proof.
  unfold execute_try, mbind, jobM_bind. intros H.
  do 7 (apply bindM_ok in H as (? & ? & _ & H)).
  unfold bindM, modify in H. injection H as <-. split; reflexivity.
Qed.

(** X20. How a job ends. If the [try] block of [_execute_indexing_job] runs to
    its end, the job is left as the block left it, with the status
    [completed]. If the block raises an [Exception] [e], the job gets the
    status [failed] and [str(e)] is appended to the errors recorded until
    then, as their last entry. In both cases the end time is set. (The
    handler is [except Exception]: the cancellation of the task is not an
    [Exception] and is outside the statement.) *)
Theorem job_ends_completed_or_failed
    (self : IndexingService) (job : IndexingJob) :
  let out := _execute_indexing_job self job in
  end_time (snd out) = Some (utcnow self)
  /\ match execute_try self job with
     | (Ok _, job') =>
         snd out = job' /\ status (snd out) = "completed"%string
     | (Raise e, job') =>
         status (snd out) = "failed"%string
         /\ errors (snd out) = errors job' ++ [exn_str e]
         /\ processed_files (snd out) = processed_files job'
         /\ total_files (snd out) = total_files job'
     end.
Proof.
  unfold _execute_indexing_job, lift. cbn [snd].
  destruct (execute_try self job) as [[[]|e] job'] eqn:Htry.
  - apply execute_try_ok in Htry as [Hs He]. now rewrite He, Hs.
  - cbn. repeat split.
Qed.

(** X21. A batch size of zero makes the job fail on [range] before any file is
    indexed; a negative one makes it end as [completed] with no file indexed
    and no error, although the files were discovered. *)
Theorem job_nonpositive_batch_size
    (self : IndexingService) (id : string) (cfg : gmap string pyval)
    (files : list string) (batch_size : Z) :
  (forall job, _update_job_status self job = Ok tt) ->
  _discover_files self cfg = Ok files ->
  batch_size_of cfg = Ok batch_size ->
  batch_size <= 0 ->
  let out := _execute_indexing_job self (new_job id cfg) in
  total_files (snd out) = len files
  /\ processed_files (snd out) = 0
  /\ status (snd out)
     = (if decide (batch_size = 0) then "failed" else "completed")%string
  /\ errors (snd out)
     = if decide (batch_size = 0)
       then ["range() arg 3 must not be zero"%string]
       else [].
Proof.
  intros Hupd Hdisc Hbs Hle.
  unfold _execute_indexing_job, execute_try, process_files. run_job. cbn.
  rewrite !Hupd, Hdisc. cbn. rewrite !Hupd, Hbs. unfold range0.
  destruct (Z.eqb_spec batch_size 0) as [H0|H0];
    destruct (decide (batch_size = 0)); try lia.
  - cbn. repeat split.
  - destruct (Z.ltb_spec batch_size 0); [|lia]. cbn. repeat split.
Qed.

Lemma job_nonpositive_batch_size_witness :
  let out :=
    _execute_indexing_job three_files
      (new_job "idx_1" {["batch_size" := VInt (-1)]}) in
  total_files (snd out) = 3
  /\ processed_files (snd out) = 0
  /\ status (snd out) = "completed"%string
  /\ errors (snd out) = [].
Proof.
  apply (job_nonpositive_batch_size three_files "idx_1"
           {["batch_size" := VInt (-1)]}
           ["a.pdf"; "b.pdf"; "c.pdf"]%string (-1)).
  - intros job. reflexivity.
  - reflexivity.
  - reflexivity.
  - lia.
Defined.

Lemma execute_job_state
    (self : IndexingService) (outcome : string -> result bool)
    (id : string) (cfg : gmap string pyval) (files : list string)
    (batch_size : Z) :
  (forall job, _update_job_status self job = Ok tt) ->
  (forall file_path job,
     _index_single_file self file_path job = outcome file_path) ->
  _discover_files self cfg = Ok files ->
  batch_size_of cfg = Ok batch_size ->
  0 < batch_size ->
  exists p,
    _execute_indexing_job self (new_job id cfg)
    = (Ok tt,
       set_end_time (utcnow self)
         (set_status "completed"
            (set_progress p
               (tally outcome files
                  (set_total_files (len files)
                     (set_start_time (utcnow self)
                        (set_status "running" (new_job id cfg)))))))).
Proof.
  intros Hupd Hidx Hdisc Hbs Hpos.
  destruct (range0_batches files batch_size Hpos) as (idxs & Hr & Hcat).
  set (job_start :=
         set_total_files (len files)
           (set_start_time (utcnow self)
              (set_status "running" (new_job id cfg)))).
  destruct (process_loop self outcome Hupd Hidx files batch_size idxs
              (ret tt) job_start job_start eq_refl) as [p Hp].
  { intros Hne. apply (range0_nonempty _ _ _ Hr) in Hne.
    simpl. unfold len. lia. }
  rewrite Hcat in Hp. exists p.
  unfold _execute_indexing_job, execute_try, process_files. run_job. cbn.
  rewrite !Hupd, Hdisc. cbn. rewrite !Hupd, Hbs, Hr.
  fold job_start. unfold ret in Hp. rewrite Hp. reflexivity.
Qed.

Lemma outcomes_partition (outcome : string -> result bool) files :
  len (List.filter (fun f => is_ok (outcome f)) files)
  + len (failures outcome files)
  = len files.
Proof.
  unfold len. induction files as [|f fs IH]; [reflexivity|].
  simpl. destruct (outcome f); simpl in *; lia.
Qed.

(** X22. At the end of a job whose files were discovered, every file is accounted
    for once: the files counted as processed and the errors recorded add up
    to the files found. *)
Theorem job_accounts_for_every_file
    (self : IndexingService) (outcome : string -> result bool)
    (id : string) (cfg : gmap string pyval) (files : list string)
    (batch_size : Z) :
  (forall job, _update_job_status self job = Ok tt) ->
  (forall file_path job,
     _index_single_file self file_path job = outcome file_path) ->
  _discover_files self cfg = Ok files ->
  batch_size_of cfg = Ok batch_size ->
  0 < batch_size ->
  let out := _execute_indexing_job self (new_job id cfg) in
  processed_files (snd out) + len (errors (snd out)) = total_files (snd out).
Proof.
  intros Hupd Hidx Hdisc Hbs Hpos.
  destruct (execute_job_state self outcome id cfg files batch_size
              Hupd Hidx Hdisc Hbs Hpos) as [p Hp].
  cbv zeta. rewrite Hp.
  cbn [snd total_files processed_files errors set_end_time set_status
       set_progress].
  rewrite tally_total_files, tally_processed, tally_errors. cbn.
  apply outcomes_partition.
Qed.

Lemma job_accounts_for_every_file_witness :
  let out := _execute_indexing_job three_files (new_job "idx_1" batches_of_one) in
  processed_files (snd out) + len (errors (snd out)) = total_files (snd out).
Proof.
  apply (job_accounts_for_every_file three_files second_fails "idx_1"
           batches_of_one ["a.pdf"; "b.pdf"; "c.pdf"]%string 1).
  - intros job. reflexivity.
  - intros file_path job. reflexivity.
  - reflexivity.
  - reflexivity.
  - lia.
Defined.

(** ** Indexing a document *)

(** X23. [get_processor] raises [TypeError] for every extension: it builds the
    whole table of processors at each call, and [EMLProcessor], which defines
    no [extract_metadata], cannot be instantiated. So [index_document] raises
    that [TypeError] for every file, before anything is read, embedded or
    stored: the vector store is unchanged, and neither the [ValueError] for
    an unsupported format nor the [indexed] result is ever reached. *)
Theorem index_document_cannot_instantiate
    (self : Indexer) (store : QdrantVectorStore)
    (file_path document_id : string)
    (metadata : option (gmap string pyval)) :
  exists msg,
    instantiate EMLProcessor = Raise (Exn "TypeError" msg)
    /\ (forall file_extension,
          get_processor file_extension = Raise (Exn "TypeError" msg))
    /\ index_document self store file_path document_id metadata
       = (Raise (Exn "TypeError" msg), store).
Proof.
  eexists. split; [reflexivity|]. split; [intros ext; reflexivity|].
  unfold index_document. reflexivity.
Qed.

(** ** The records of the indexed files *)

Lemma Qeq_bool_same x : Qeq_bool x x = true.
Proof. apply Qeq_bool_iff. reflexivity. Qed.

(** X25. A file that [_index_single_file] has indexed is not due for indexing
    again while its content hash and modification time stay the same, and
    the records of the other files are as before; when the indexing raises,
    the collection is unchanged, so the file remains due. *)
Theorem indexed_file_is_not_reindexed
    (self : Files.FileIndexer) (indexed_files : gmap string Files.FileRecord)
    (file_path : string) (job : IndexingJob) :
  match Files._index_single_file self indexed_files file_path job with
  | (Ok _, after) =>
      Files._should_reindex_file self after file_path = Ok false
      /\ forall other, other <> file_path ->
                       after !! other = indexed_files !! other
  | (Raise _, after) => after = indexed_files
  end.
Proof.
  unfold Files._index_single_file.
  destruct (Files.rag_index_document _ _ _ _) as [r|e]; [|reflexivity].
  destruct (Files.path_stat self file_path) as [st|e] eqn:Hst; [|reflexivity].
  destruct (Files._calculate_file_hash self file_path) as [h|e] eqn:Hh;
    [|reflexivity].
  split.
  - unfold Files._should_reindex_file. rewrite Hst, Hh. cbn.
    rewrite lookup_insert_eq. cbn.
    rewrite Qeq_bool_same, bool_decide_eq_false_2 by auto. reflexivity.
  - intros other Hne. now rewrite lookup_insert_ne by congruence.
Qed.

Lemma for_each_inv {A B} (Inv : B -> Prop) (body : B -> A -> result B)
    (l : list A) (acc r : B) :
  Inv acc ->
  (forall b a b', In a l -> Inv b -> body b a = Ok b' -> Inv b') ->
  Files.for_each body l acc = Ok r ->
  Inv r.
Proof.
  revert acc. induction l as [|a l IH]; intros acc Hacc Hbody; simpl.
  - now intros [= <-].
  - destruct (body acc a) as [acc'|e] eqn:Hb; cbn; [|discriminate].
    apply IH.
    + eapply Hbody; [now left|exact Hacc|exact Hb].
    + intros b x b' Hx. apply Hbody. now right.
Qed.

(** X26. Every file [_discover_files] returns was listed under an existing base
    path for one of the extensions, contains none of the excluded strings,
    is not larger than the maximum size, and is due for indexing. *)
Theorem discovered_files_pass_filters
    (self : Files.FileIndexer) (indexed_files : gmap string Files.FileRecord)
    (config : Files.DiscoveryConfig) (found : list string) :
  Files._discover_files self indexed_files config = Ok found ->
  Forall (passes_filters self indexed_files config) found.
Proof.
  unfold Files._discover_files.
  apply for_each_inv; [constructor|].
  intros acc base_path acc1 Hbase Hacc.
  destruct (Files.path_exists self base_path) eqn:Hex; cbn;
    [|now intros [= <-]].
  apply for_each_inv; [exact Hacc|].
  intros acc2 ext acc3 Hext Hacc2.
  apply for_each_inv; [exact Hacc2|].
  intros acc4 file_path acc5 Hfile Hacc4.
  unfold Files.consider_file.
  destruct (existsb _ _) eqn:Hexcl; [now intros [= <-]|].
  destruct (Files.path_stat self file_path) as [st|e] eqn:Hst; cbn;
    [|discriminate].
  destruct (Z.gtb_spec (Files.st_size st)
              (default (100 * 1024 * 1024) (Files.cfg_max_file_size config)))
    as [Hbig|Hsmall]; [now intros [= <-]|].
  destruct (Files._should_reindex_file self indexed_files file_path)
    as [[|]|e] eqn:Hre; cbn; [|now intros [= <-]|discriminate].
  intros [= <-]. apply Forall_app. split; [exact Hacc4|].
  constructor; [|constructor].
  split; [exact Hexcl|]. split; [now exists st|]. split; [exact Hre|].
  exists base_path, ext. auto.
Qed.

(** X27. After [cancel_job] the job is not running, whether the call returns or
    raises; the other jobs are untouched; and a second call returns [False]
    and changes nothing. *)
Theorem cancel_job_settles
    (self : IndexingService) (current_jobs : gmap string IndexingJob)
    (job_id : string) :
  let first := Files.cancel_job self current_jobs job_id in
  let second := Files.cancel_job self (snd first) job_id in
  (forall job, snd first !! job_id = Some job ->
               status job <> "running"%string)
  /\ (forall other, other <> job_id ->
                    snd first !! other = current_jobs !! other)
  /\ second = (Ok false, snd first).
Proof.
  unfold Files.cancel_job.
  destruct (current_jobs !! job_id) as [job|] eqn:Hjob.
  - destruct (String.eqb (status job) "running") eqn:Hrun.
    + destruct (_update_job_status self _); cbn [snd];
        rewrite lookup_insert_eq; cbn;
        (split; [intros j [= <-]; discriminate|]);
        (split; [intros other Hne; now rewrite lookup_insert_ne by congruence|]);
        reflexivity.
    + cbn [snd]. rewrite Hjob, Hrun.
      split; [|split]; [|reflexivity|reflexivity].
      intros j [= <-]. now apply String.eqb_neq.
  - cbn [snd]. rewrite Hjob.
    split; [|split]; [|reflexivity|reflexivity].
    intros j Hj. discriminate.
Qed.

Lemma discovered_files_pass_filters_witness :
  Forall (passes_filters demo_files ∅ exclude_tmp) ["/mnt/a.pdf"%string].
Proof.
  apply (discovered_files_pass_filters demo_files ∅ exclude_tmp
           ["/mnt/a.pdf"%string]).
  vm_compute. reflexivity.
Defined.

(** ** A text of one paragraph *)

Lemma is_newline_nl c : is_newline c = true -> c = nl.
Proof.
  unfold is_newline, nl. intros H%Nat.eqb_eq.
  rewrite <- H. symmetry. apply ascii_nat_embedding.
Qed.

Lemma no_blank_line_tail c s : no_blank_line (c :: s) -> no_blank_line s.
Proof.
  intros H pre post Hs. apply (H (c :: pre) post). simpl. now rewrite Hs.
Qed.

Lemma split_paragraphs_single s :
  no_blank_line s -> split_paragraphs s = [s].
Proof.
  enough (H : forall s,
             (no_blank_line s -> split_paragraphs s = [s])
             /\ forall c, no_blank_line (c :: s) ->
                          split_paragraphs (c :: s) = [c :: s]) by apply H.
  clear s. induction s as [|d s [IH1 IH2]]; (split; [|intros c]); intros Hs.
  - reflexivity.
  - reflexivity.
  - now apply IH2.
  - change (split_paragraphs (c :: d :: s))
      with (if is_newline c && is_newline d
            then [] :: split_paragraphs s
            else cons_head c (split_paragraphs (d :: s))).
    destruct (is_newline c && is_newline d) eqn:Hnl.
    + apply andb_prop in Hnl as [Hc%is_newline_nl Hd%is_newline_nl].
      subst c d. exfalso. now apply (Hs [] s).
    + rewrite IH2 by (eapply no_blank_line_tail, Hs). reflexivity.
Qed.

(** X2. A non-empty text without a blank line whose token count is within
    [max_chunk_size] becomes exactly one chunk, numbered 0, that holds the
    whole text with the white space at its ends removed. *)
Theorem semantic_single_paragraph
    (self : Sem.t) (text : pystr) (md : gmap string pyval) :
  no_blank_line text ->
  text <> [] ->
  piece_tokens self text <= Sem.max_chunk_size self ->
  Sem.chunk_text self text md = [Sem._create_chunk self text md 0].
Proof.
  intros Hblank Hne Hfit.
  unfold Sem.chunk_text, Sem.run_paragraphs.
  rewrite (split_paragraphs_single text Hblank).
  cbn [fold_left]. unfold Sem.paragraph_step.
  fold (piece_tokens self text).
  destruct (Z.gtb_spec (piece_tokens self text) (Sem.max_chunk_size self));
    [lia|].
  unfold Sem.accumulate. cbn. rewrite andb_false_r. cbn.
  destruct text; [congruence|reflexivity].
Qed.

Lemma semantic_single_paragraph_witness :
  Sem.chunk_text
    {| Sem.max_chunk_size := 512; Sem.overlap := 50;
       Sem.tokenizer := char_tokenizer |} (txt " Hello world. ") ∅
  = [Sem._create_chunk
       {| Sem.max_chunk_size := 512; Sem.overlap := 50;
          Sem.tokenizer := char_tokenizer |} (txt " Hello world. ") ∅ 0].
Proof.
  apply (semantic_single_paragraph
           {| Sem.max_chunk_size := 512; Sem.overlap := 50;
              Sem.tokenizer := char_tokenizer |} (txt " Hello world. ") ∅).
  - intros pre post H.
    assert (Hin : In nl (txt " Hello world. "))
      by (rewrite H; apply in_or_app; right; left; reflexivity).
    vm_compute in Hin. intuition discriminate.
  - discriminate.
  - vm_compute. discriminate.
Defined.
